(** * GPXParser.js: a shallow embedding of [src/index.ts] and its properties

    The development follows the source file top-down.  JavaScript numbers are
    the binary64 values of [PrimFloat]; the operations of the language that
    the parser relies on ([||], [parseFloat], [Math.max], array stores, the
    traversal of the DOM) are written out next to the code that uses them.
    What the language leaves to the engine ([Math.sin], [Math.cos],
    [Math.atan2], [Date.parse], the number of arguments a call can take) and
    what the DOM implementation decides (the XML parser, which elements a
    selector matches, the serialization of an element) are fields of a
    [Host]. *)

From Stdlib Require Import ZArith List String Ascii Bool Lia.
From Stdlib Require Import Floats.
Import ListNotations.

Set Warnings "-register-all".

Local Open Scope Z_scope.
Local Open Scope bool_scope.

(* ===================================================================== *)
(** * Part I: definitions                                                 *)
(* ===================================================================== *)

(** ** Completions: a call returns normally or throws *)

Inductive JSError : Type :=
| TypeError      (* a property read on [undefined] *)
| RangeError     (* more arguments in one call than the engine has room for *)
| XmlSyntaxError (* raised by the XML parser on a malformed document *).

Inductive Result (A : Type) : Type :=
| Ok (a : A)
| Throw (e : JSError).

Arguments Ok {A} a.
Arguments Throw {A} e.

Definition bind {A B : Type} (c : Result A) (k : A -> Result B) : Result B :=
  match c with
  | Ok a => k a
  | Throw e => Throw e
  end.

Notation "x <- c ;; k" := (bind c (fun x => k))
  (at level 61, c at next level, right associativity).
Notation "' p <- c ;; k" := (bind c (fun x => let 'p := x in k))
  (at level 61, p pattern, c at next level, right associativity).

(** [for (let i = lo; i < hi; i++) body(i)] over a loop state [S]: the body
    runs for [i = lo, lo+1, ..., hi-1], and a body that throws ends the loop. *)
Fixpoint for_range {S : Type} (count : nat) (i : Z)
    (body : Z -> S -> Result S) (s : S) : Result S :=
  match count with
  | O => Ok s
  | Datatypes.S k => s' <- body i s ;; for_range k (i + 1) body s'
  end.

Definition for_lt {S : Type} (lo hi : Z) (body : Z -> S -> Result S) (s : S)
    : Result S :=
  for_range (Z.to_nat (hi - lo)) lo body s.

(** [for (const x of xs) body(x)], the loop state threaded left to right. *)
Definition for_of {A S : Type} (xs : list A) (body : A -> S -> S) (s : S) : S :=
  fold_left (fun acc x => body x acc) xs s.

Fixpoint for_ofM {A S : Type} (xs : list A) (body : A -> S -> Result S) (s : S)
    : Result S :=
  match xs with
  | [] => Ok s
  | x :: rest => s' <- body x s ;; for_ofM rest body s'
  end.

(** [arr.push(x)] *)
Definition push {A : Type} (arr : list A) (x : A) : list A := arr ++ [x].

(** [xs[i]] followed by a property read: a [TypeError] outside the array. *)
Definition index {A : Type} (xs : list A) (i : Z) : Result A :=
  if i <? 0 then Throw TypeError
  else match nth_error xs (Z.to_nat i) with
       | Some x => Ok x
       | None => Throw TypeError
       end.

(** ** Numbers *)

(** The Number type is binary64. *)
Abbreviation number := float.

(** [ToBoolean] on a number: [+0], [-0] and [NaN] are falsy. *)
Definition truthy (x : number) : bool := negb (is_zero x || is_nan x).

Definition isNaN (x : number) : bool := is_nan x.

(** [x || d] for [x : number | null]. *)
Definition or_number (x : option number) (d : number) : number :=
  match x with
  | Some v => if truthy v then v else d
  | None => d
  end.

(** [x || null] for a number [x]. *)
Definition or_null (x : number) : option number :=
  if truthy x then Some x else None.

(** [s || d] for [s : string | null]: the empty string is falsy. *)
Definition or_string (s : option string) (d : string) : string :=
  match s with
  | Some (String c r) => String c r
  | Some EmptyString => d
  | None => d
  end.

(** The Number value of an integer, rounded to nearest even. *)
Definition number_of_Z (z : Z) : number :=
  SF2Prim (binary_normalize prec emax z 0 false).

Definition Math_PI : number := 0x1.921fb54442d18p+1%float.
Definition Math_abs (x : number) : number := abs x.
Definition Math_sqrt (x : number) : number := sqrt x.

Definition is_pos_zero (x : number) : bool := PrimFloat.Leibniz.eqb x zero.
Definition is_neg_zero (x : number) : bool := PrimFloat.Leibniz.eqb x neg_zero.

(** [Math.max(...args)] (ECMA-262, 21.3.2.24): [highest] starts at [-Infinity];
    a [NaN] argument ends the scan with [NaN]. *)
Fixpoint Math_max_from (highest : number) (args : list number) : number :=
  match args with
  | [] => highest
  | x :: rest =>
      if is_nan x then nan
      else
        let highest :=
          if is_pos_zero x && is_neg_zero highest then zero else highest in
        let highest := if (highest <? x)%float then x else highest in
        Math_max_from highest rest
  end.

Definition Math_max (args : list number) : number :=
  Math_max_from neg_infinity args.

(** [Math.min(...args)] (ECMA-262, 21.3.2.25). *)
Fixpoint Math_min_from (lowest : number) (args : list number) : number :=
  match args with
  | [] => lowest
  | x :: rest =>
      if is_nan x then nan
      else
        let lowest :=
          if is_neg_zero x && is_pos_zero lowest then neg_zero else lowest in
        let lowest := if (x <? lowest)%float then x else lowest in
        Math_min_from lowest rest
  end.

Definition Math_min (args : list number) : number :=
  Math_min_from infinity args.

(** ** Arrays written by index

    [const a: number[] = []] followed by stores [a[i] = v].  A store at an
    index below the length replaces the element, a store at or past the
    length extends the array (leaving holes before [i]), and a store at a
    negative [i] creates the property ["-1"], ["-2"], ... on the object and
    leaves its elements and [length] alone. *)

Record JSArray (A : Type) : Type := mkJSArray {
  items : list (option A);      (* [None] is a hole *)
  props : list (Z * A)          (* properties whose key is no array index *)
}.

Arguments mkJSArray {A} items props.
Arguments items {A} j.
Arguments props {A} j.

Definition empty_array {A : Type} : JSArray A := mkJSArray [] [].

Definition array_length {A : Type} (a : JSArray A) : Z :=
  Z.of_nat (List.length (items a)).

Fixpoint store_at {A : Type} (l : list (option A)) (n : nat) (v : A)
    : list (option A) :=
  match n, l with
  | O, [] => [Some v]
  | O, _ :: rest => Some v :: rest
  | Datatypes.S k, [] => None :: store_at [] k v
  | Datatypes.S k, x :: rest => x :: store_at rest k v
  end.

Definition array_set {A : Type} (a : JSArray A) (i : Z) (v : A) : JSArray A :=
  if i <? 0
  then mkJSArray (items a) ((i, v) :: filter (fun kv => negb (fst kv =? i)) (props a))
  else mkJSArray (store_at (items a) (Z.to_nat i) v) (props a).

(** [a[i]]: [None] stands for [undefined]. *)
Definition array_get {A : Type} (a : JSArray A) (i : Z) : option A :=
  if i <? 0
  then option_map snd (find (fun kv => fst kv =? i) (props a))
  else match nth_error (items a) (Z.to_nat i) with
       | Some (Some v) => Some v
       | _ => None
       end.

(** [ToNumber] of an array read: [undefined] becomes [NaN]. *)
Definition to_number (x : option number) : number :=
  match x with
  | Some v => v
  | None => nan
  end.

(** ** The domain types of [index.ts] *)

(** A field declared [f?: T] may be missing from the object. *)
Inductive optional (A : Type) : Type :=
| undefined
| defined (a : A).

Arguments undefined {A}.
Arguments defined {A} a.

(** A [Date] object is its time value; [NaN] is the Invalid Date. *)
Record Date : Set := mkDate { DateValue : number }.

Record Point : Type := mkPoint {
  lat : number;
  lon : number;
  ele : option number;
  name : optional (option string);
  sym : optional (option string);
  cmt : optional (option string);
  desc : optional (option string);
  time : optional (option Date)
}.

Record RouteDistance : Type := mkRouteDistance {
  total : number;
  cumul : JSArray number
}.

Record ElevationStats : Type := mkElevationStats {
  max : option number;
  min : option number;
  pos : option number;
  neg : option number;
  avg : option number
}.

Record Link : Type := mkLink {
  href : string;
  text : option string;
  type : option string
}.

Record AuthorEmail : Type := mkAuthorEmail {
  email_id : string;
  email_domain : string
}.

Record Author : Type := mkAuthor {
  author_name : option string;
  email : AuthorEmail;
  author_link : Link
}.

Record Metadata : Type := mkMetadata {
  metadata_name : option string;
  metadata_desc : option string;
  metadata_time : option string;
  author : Author;
  metadata_link : Link
}.

(** [Route] and [Track] are the same shape in the source. *)
Record Route : Type := mkRoute {
  route_name : option string;
  route_cmt : option string;
  route_desc : option string;
  src : option string;
  route_number : option string;
  route_type : option string;
  route_link : Link;
  distance : RouteDistance;
  elevation : ElevationStats;
  slopes : list number;
  points : list Point
}.

Definition Track : Type := Route.

(** ** GeoJSON *)

Record LineStringProperties : Type := mkLineStringProperties {
  ls_name : option string;
  ls_cmt : option string;
  ls_desc : option string;
  ls_src : option string;
  ls_number : option string;
  ls_link : Link;
  ls_type : option string
}.

Record PointProperties : Type := mkPointProperties {
  pt_name : optional (option string);
  pt_sym : optional (option string);
  pt_cmt : optional (option string);
  pt_desc : optional (option string)
}.

Definition Position : Set := (number * number * number)%type.

(** A feature is tagged by its [geometry.type]. *)
Inductive Feature : Type :=
| LineStringFeature (coordinates : list Position) (properties : LineStringProperties)
| PointFeature (coordinates : Position) (properties : PointProperties).

Record GeoJSON : Type := mkGeoJSON {
  geojson_type : string;
  features : list Feature;
  geojson_properties : Metadata
}.

(** ** The DOM, as far as the parser reads it

    An element has a namespace, a tag name (its qualified name,
    [prefix:local] when it has a prefix), attributes in document order and
    child nodes; an attribute has a namespace, a qualified name and a value;
    a text node has its data.  Comments and CDATA sections are left out.
    What a selector matches and how an element is serialized is the
    business of the DOM implementation (a browser's, or jsdom's): both are
    fields of the [Host] below. *)

Record Attr : Set := mkAttr {
  attr_namespaceURI : option string;
  attr_name : string;
  attr_value : string
}.

Inductive Node : Type :=
| ElementNode (namespaceURI : option string) (tagName : string)
              (attributes : list Attr) (childNodes : list Node)
| TextNode (data : string).

Record Document : Type := mkDocument { documentNodes : list Node }.

Definition tagName (n : Node) : option string :=
  match n with
  | ElementNode _ t _ _ => Some t
  | TextNode _ => None
  end.

Definition childNodes (n : Node) : list Node :=
  match n with
  | ElementNode _ _ _ cs => cs
  | TextNode _ => []
  end.

Definition isElement (n : Node) : bool :=
  match n with
  | ElementNode _ _ _ _ => true
  | TextNode _ => false
  end.

(** [parent.children]: the child nodes that are elements. *)
Definition children (n : Node) : list Node := filter isElement (childNodes n).

(** ["tagName" in elem && elem.tagName === needle] *)
Definition hasTagName (needle : string) (n : Node) : bool :=
  match n with
  | ElementNode _ t _ _ => String.eqb t needle
  | TextNode _ => false
  end.

(** The part of a qualified name after its colon, if it has one. *)
Fixpoint afterColon (qualifiedName : string) : option string :=
  match qualifiedName with
  | EmptyString => None
  | String c r => if Ascii.eqb c ":" then Some r else afterColon r
  end.

Definition localName (qualifiedName : string) : string :=
  match afterColon qualifiedName with
  | Some l => l
  | None => qualifiedName
  end.

(** Two ways to match a selector that is a bare element name.  The
    Selectors standard has it match the elements with that local name,
    whatever their prefix, and browsers do so; jsdom's selector engine
    compares it with the qualified name, and so finds no element that has a
    prefix. *)
Definition matchesLocalName (needle : string) (n : Node) : bool :=
  match n with
  | ElementNode _ t _ _ => String.eqb (localName t) needle
  | TextNode _ => false
  end.

Definition matchesQualifiedName (needle : string) (n : Node) : bool :=
  match n with
  | ElementNode _ t _ _ => String.eqb t needle
  | TextNode _ => false
  end.

(** An element followed by its element descendants, in document order. *)
Fixpoint subtree (n : Node) : list Node :=
  match n with
  | ElementNode _ _ _ cs =>
      n :: (fix siblings (l : list Node) : list Node :=
              match l with
              | [] => []
              | c :: rest => subtree c ++ siblings rest
              end) cs
  | TextNode _ => []
  end.

(** The elements below a parent with child nodes [nodes]. *)
Definition descendantsOf (nodes : list Node) : list Node :=
  flat_map subtree nodes.

(** [elem.getAttribute(name)]: the value of the first attribute with that
    qualified name, or [null]. *)
Definition getAttribute (n : Node) (attr : string) : option string :=
  match n with
  | ElementNode _ _ attrs _ =>
      option_map attr_value
        (find (fun a => String.eqb (attr_name a) attr) attrs)
  | TextNode _ => None
  end.

(** *** Serialization

    The XML serialization of a text node replaces [&], [<] and [>] by
    entities, and inside an attribute value the double quote too. *)

Definition quote_char : ascii := ascii_of_nat 34.

Fixpoint escape (in_attribute : bool) (s : string) : string :=
  match s with
  | EmptyString => EmptyString
  | String c r =>
      let r' := escape in_attribute r in
      if Ascii.eqb c "&" then "&amp;" ++ r'
      else if Ascii.eqb c "<" then "&lt;" ++ r'
      else if Ascii.eqb c ">" then "&gt;" ++ r'
      else if in_attribute && Ascii.eqb c quote_char then "&quot;" ++ r'
      else String c r'
  end%string.

(** The serialization of an element depends on the namespaces of the
    element, of its descendants and of their attributes: the serializer
    declares with [xmlns] what its output would otherwise lose.  It is a
    field of the [Host].  What follows is the XML serialization of the DOM
    Parsing standard for trees in which no element and no attribute has a
    prefix: an element whose namespace is not the one in force gets an
    [xmlns] declaration as its first attribute, unless it has one that
    declares its namespace; an [xmlns] attribute that restates the
    namespace in force, or contradicts the element's namespace, is left out;
    an element without child nodes is written as an empty-element tag.  The
    sample hosts serialize with it. *)

Definition serializeAttribute (a : Attr) : string :=
  (" " ++ attr_name a ++ "="
       ++ String quote_char (escape true (attr_value a))
       ++ String quote_char EmptyString)%string.

Definition serializeAttributes (attrs : list Attr) : string :=
  String.concat EmptyString (map serializeAttribute attrs).

Definition sameNamespace (a b : option string) : bool :=
  match a, b with
  | None, None => true
  | Some x, Some y => String.eqb x y
  | _, _ => false
  end.

(** The name of a namespace, the empty string for none. *)
Definition namespaceName (ns : option string) : string :=
  match ns with
  | Some uri => uri
  | None => EmptyString
  end.

Definition isDefaultDeclaration (a : Attr) : bool :=
  String.eqb (attr_name a) "xmlns".

(** The default namespace that the attributes of an element declare. *)
Definition localDefaultNamespace (attrs : list Attr) : option string :=
  option_map attr_value (find isDefaultDeclaration attrs).

Fixpoint serializeElement (inherited : option string) (n : Node) : string :=
  match n with
  | TextNode d => escape false d
  | ElementNode ns t attrs cs =>
      let declared :=
        match localDefaultNamespace attrs with
        | Some uri => String.eqb uri (namespaceName ns)
        | None => false
        end in
      let markup :=
        if sameNamespace inherited ns then
          serializeAttributes
            (filter (fun a => negb (isDefaultDeclaration a)) attrs)
        else if declared then serializeAttributes attrs
        else
          (serializeAttribute (mkAttr None "xmlns" (namespaceName ns))
             ++ serializeAttributes
                  (filter (fun a => negb (isDefaultDeclaration a)) attrs))%string in
      match cs with
      | [] => ("<" ++ t ++ markup ++ "/>")%string
      | _ =>
          ("<" ++ t ++ markup ++ ">"
               ++ (fix serializeAll (l : list Node) : string :=
                     match l with
                     | [] => EmptyString
                     | c :: rest => serializeElement ns c ++ serializeAll rest
                     end) cs
               ++ "</" ++ t ++ ">")%string
      end
  end.

(** [new XMLSerializer().serializeToString(n)]: no namespace is in force
    at the start. *)
Definition serializeToString (n : Node) : string := serializeElement None n.

(** An element in no namespace whose attributes are in none, for writing
    down sample trees. *)
Definition element (t : string) (attrs : list (string * string))
    (cs : list Node) : Node :=
  ElementNode None t (map (fun kv => mkAttr None (fst kv) (snd kv)) attrs) cs.

(** ** [parseFloat] (ECMA-262, 19.2.4)

    Leading white space is dropped, the longest prefix that is a
    [StrDecimalLiteral] is read, and its mathematical value is rounded to the
    nearest Number; without such a prefix the result is [NaN].  A [string]
    is a sequence of code units below 256; the white space among them is
    TAB, LF, VT, FF, CR, SP and NBSP. *)

Definition isWhiteSpace (c : ascii) : bool :=
  let n := nat_of_ascii c in
  ((9 <=? n) && (n <=? 13))%nat || (n =? 32)%nat || (n =? 160)%nat.

Fixpoint trimStart (s : string) : string :=
  match s with
  | String c r => if isWhiteSpace c then trimStart r else s
  | EmptyString => s
  end.

Definition isDigit (c : ascii) : bool :=
  let n := nat_of_ascii c in ((48 <=? n) && (n <=? 57))%nat.

Definition digitValue (c : ascii) : Z := Z.of_nat (nat_of_ascii c) - 48.

(** Reads a run of decimal digits: their value on top of [acc], how many
    there were on top of [count], and the rest of the string. *)
Fixpoint readDigits (s : string) (acc : Z) (count : Z) : Z * Z * string :=
  match s with
  | String c r =>
      if isDigit c then readDigits r (10 * acc + digitValue c) (count + 1)
      else (acc, count, s)
  | EmptyString => (acc, count, s)
  end.

(** The Number nearest to [m * 10^e], for [m >= 0]. *)
Definition roundDecimal (negative : bool) (m : Z) (e : Z) : number :=
  match m with
  | Zpos p =>
      if 0 <=? e
      then SF2Prim (binary_normalize prec emax
                      (cond_Zopp negative (Zpos p * 10 ^ e)) 0 false)
      else
        let '(q, e', l) :=
          SFdiv_core_binary prec emax (Zpos p) 0 (10 ^ (- e)) 0 in
        SF2Prim (binary_round_aux prec emax negative q e' l)
  | _ => if negative then neg_zero else zero
  end.

(** [ExponentPart]: [e] or [E], an optional sign and at least one digit. *)
Definition readExponent (s : string) : Z :=
  match s with
  | String c r =>
      if Ascii.eqb c "e" || Ascii.eqb c "E" then
        let '(negative, r') :=
          match r with
          | String "-" r' => (true, r')
          | String "+" r' => (false, r')
          | _ => (false, r)
          end in
        let '(v, n, _) := readDigits r' 0 0 in
        if n =? 0 then 0 else if negative then - v else v
      else 0
  | EmptyString => 0
  end.

Definition parseFloat (input : string) : number :=
  let s := trimStart input in
  let '(negative, s) :=
    match s with
    | String "-" r => (true, r)
    | String "+" r => (false, r)
    | _ => (false, s)
    end in
  if String.prefix "Infinity" s
  then (if negative then neg_infinity else infinity)
  else
    let '(intPart, intDigits, s1) := readDigits s 0 0 in
    let '(mantissa, fracDigits, s2) :=
      match s1 with
      | String "." r => readDigits r intPart 0
      | _ => (intPart, 0, s1)
      end in
    if (intDigits =? 0) && (fracDigits =? 0) then nan
    else roundDecimal negative mantissa (readExponent s2 - fracDigits).

(** The characters a text that [parseFloat] reads as a number can start
    with: white space, a digit, a sign, the decimal point, or the [I] of
    [Infinity]. *)
Definition startsNumber (c : ascii) : bool :=
  isWhiteSpace c || isDigit c || Ascii.eqb c "+" || Ascii.eqb c "-"
  || Ascii.eqb c "." || Ascii.eqb c "I".

(** ** The host

    [Math.sin], [Math.cos] and [Math.atan2] are implementation-approximated,
    [Date.parse] falls back to formats of the engine's choosing, and the XML
    parser is the browser's [DOMParser] (when there is a [window], it never
    throws) or jsdom (which throws on malformed XML).  The DOM
    implementation says whether an element matches a selector
    ([Element_matches], read here for selectors that are bare element
    names) and how an element is serialized ([XMLSerializer], the
    serialization of the element on its own, as [innerHTML] needs it for
    each child).  The engine accepts so many arguments in one call made
    with [apply] and no more ([maxArguments]); engines differ widely in
    that number. *)

Record Host : Type := mkHost {
  Math_sin : number -> number;
  Math_cos : number -> number;
  Math_atan2 : number -> number -> number;
  Date_parse : string -> number;
  window_DOMParser : option (string -> Document);
  JSDOM : string -> Result Document;
  Element_matches : string -> Node -> bool;
  XMLSerializer : Node -> string;
  maxArguments : N
}.

(** A finite number with its fraction dropped; [+0] for what rounds to
    zero ([ToIntegerOrInfinity]). *)
Definition truncate (x : number) : number :=
  match Prim2SF x with
  | S754_finite s m e =>
      if 0 <=? e then x
      else SF2Prim (binary_normalize prec emax
                      (cond_Zopp s (Z.shiftr (Zpos m) (- e))) 0 false)
  | _ => zero
  end.

(** [TimeClip] (ECMA-262, 21.4.1.31): a time value is an integral number of
    milliseconds within 8.64e15 of the epoch, or [NaN]. *)
Definition TimeClip (t : number) : number :=
  if negb (is_finite t) then nan
  else if (8640000000000000 <? abs t)%float then nan
  else truncate t.

(** [new Date(s)]: never an abrupt completion; an unrecognised string gives
    the time value [NaN]. *)
Definition new_Date (h : Host) (s : string) : Date :=
  mkDate (TimeClip (Date_parse h s)).

Definition isInvalidDate (d : Date) : bool := is_nan (DateValue d).

Definition parseXml (h : Host) (xml : string) : Result Document :=
  match window_DOMParser h with
  | Some parseFromString => Ok (parseFromString xml)
  | None => JSDOM h xml
  end.

(** ** The methods of [GPXParser] *)

Section Methods.

Variable h : Host.

(** *** The DOM functions the methods call *)

(** [elem.matches(needle)] *)
Definition matchesSelector (needle : string) (n : Node) : bool :=
  match n with
  | ElementNode _ _ _ _ => Element_matches h needle n
  | TextNode _ => false
  end.

Definition querySelectorAll (parent : Node) (needle : string) : list Node :=
  filter (matchesSelector needle) (descendantsOf (childNodes parent)).

Definition querySelector (parent : Node) (needle : string) : option Node :=
  hd_error (querySelectorAll parent needle).

Definition Document_querySelectorAll (d : Document) (needle : string) : list Node :=
  filter (matchesSelector needle) (descendantsOf (documentNodes d)).

Definition Document_querySelector (d : Document) (needle : string) : option Node :=
  hd_error (Document_querySelectorAll d needle).

(** [elem.innerHTML] in an XML document: the serializations of the child
    nodes, each on its own, one after the other. *)
Definition serializeChild (c : Node) : string :=
  match c with
  | TextNode d => escape false d
  | ElementNode _ _ _ _ => XMLSerializer h c
  end.

Definition innerHTML (n : Node) : string :=
  String.concat EmptyString (map serializeChild (childNodes n)).

(** [f.apply(null, args)]: the elements of [args] become the arguments of
    one call, which throws a [RangeError] when there are more of them than
    the engine accepts. *)
Definition Function_apply {A : Type} (f : list number -> A) (args : list number)
    : Result A :=
  if (maxArguments h <? N.of_nat (List.length args))%N then Throw RangeError
  else Ok (f args).

(** *** The methods *)

Definition getElementValue (parent : Node) (needle : string) : option string :=
  match querySelector parent needle with
  | Some elem => Some (innerHTML elem)
  | None => None
  end.

Definition queryDirectSelector (parent : Node) (needle : string) : option Node :=
  let elements := querySelectorAll parent needle in
  let finalElem := nth_error elements 0 in
  if (1 <? List.length elements)%nat then
    let directChilds := children parent in
    for_of directChilds
      (fun elem finalElem =>
         if hasTagName needle elem then Some elem else finalElem)
      finalElem
  else finalElem.

Definition calcDistanceBetween (wpt1 wpt2 : Point) : number :=
  let rad := (Math_PI / 180)%float in
  let lat1 := (lat wpt1 * rad)%float in
  let lat2 := (lat wpt2 * rad)%float in
  let sinDLat := Math_sin h (((lat wpt2 - lat wpt1) * rad) / 2)%float in
  let sinDLon := Math_sin h (((lon wpt2 - lon wpt1) * rad) / 2)%float in
  let a :=
    (sinDLat * sinDLat
     + Math_cos h lat1 * Math_cos h lat2 * sinDLon * sinDLon)%float in
  let c := (2 * Math_atan2 h (Math_sqrt a) (Math_sqrt (1 - a)))%float in
  (6371000 * c)%float.

Definition calcRouteDistance (points : list Point) : Result RouteDistance :=
  let len := Z.of_nat (List.length points) in
  '(totalDistance, cumulDistance) <-
    for_lt 0 (len - 1)
      (fun i '(totalDistance, cumulDistance) =>
         p <- index points i ;;
         q <- index points (i + 1) ;;
         let totalDistance :=
           (totalDistance + calcDistanceBetween p q)%float in
         Ok (totalDistance, array_set cumulDistance i totalDistance))
      (zero, empty_array) ;;
  let cumulDistance := array_set cumulDistance (len - 1) totalDistance in
  Ok (mkRouteDistance totalDistance cumulDistance).

(** The first loop of [calcElevationStats]: the positive-only and the
    negative-only sums [(dp, dm)] of the elevation differences.  The test
    [rawNextElevation !== null && rawElevation !== null] of the source is
    always true, both being numbers after [|| 0]. *)
Definition elevationDeltas (points : list Point) : Result (number * number) :=
  let len := Z.of_nat (List.length points) in
  for_lt 0 (len - 1)
    (fun i '(dp, dm) =>
       q <- index points (i + 1) ;;
       let rawNextElevation := or_number (ele q) zero in
       p <- index points i ;;
       let rawElevation := or_number (ele p) zero in
       let diff := (rawNextElevation - rawElevation)%float in
       if (diff <? 0)%float then Ok (dp, (dm + diff)%float)
       else if (0 <? diff)%float then Ok ((dp + diff)%float, dm)
       else Ok (dp, dm))
    (zero, zero).

(** The second loop: the non-null elevations and their sum. *)
Definition elevationList (points : list Point)
    : Result (list number * number) :=
  let len := Z.of_nat (List.length points) in
  for_lt 0 len
    (fun i '(elevation, sum) =>
       p <- index points i ;;
       match ele p with
       | Some _ =>
           let e := or_number (ele p) zero in
           Ok (push elevation e, (sum + e)%float)
       | None => Ok (elevation, sum)
       end)
    ([], zero).

Definition calcElevationStats (points : list Point) : Result ElevationStats :=
  '(dp, dm) <- elevationDeltas points ;;
  '(elevation, sum) <- elevationList points ;;
  highest <- Function_apply Math_max elevation ;;
  lowest <- Function_apply Math_min elevation ;;
  Ok {| max := or_null highest;
        min := or_null lowest;
        pos := or_null (Math_abs dp);
        neg := or_null (Math_abs dm);
        avg := or_null
                 (sum / number_of_Z (Z.of_nat (List.length elevation)))%float |}.

Definition calcSlope (points : list Point) (cumul : JSArray number)
    : Result (list number) :=
  let len := Z.of_nat (List.length points) in
  for_lt 0 (len - 1)
    (fun i slopes =>
       point <- index points i ;;
       nextPoint <- index points (i + 1) ;;
       let elevationDiff :=
         (or_number (ele nextPoint) zero - or_number (ele point) zero)%float in
       let distance :=
         (to_number (array_get cumul (i + 1))
          - to_number (array_get cumul i))%float in
       let slope := ((elevationDiff * 100) / distance)%float in
       Ok (push slopes slope))
    [].

Definition defaultLink : Link :=
  mkLink "" (Some ""%string) (Some ""%string).

(** The [link] object built from a [link] element (or its absence); the
    source repeats this expression at each place a link is read. *)
Definition parseLink (linkElem : option Node) : Link :=
  match linkElem with
  | Some linkElem =>
      mkLink (or_string (getAttribute linkElem "href") "")
             (getElementValue linkElem "text")
             (getElementValue linkElem "type")
  | None => defaultLink
  end.

Definition parseAuthor (authorElem : option Node) : Author :=
  match authorElem with
  | None => mkAuthor (Some ""%string) (mkAuthorEmail "" "") defaultLink
  | Some authorElem =>
      let authorLinkElem := querySelector authorElem "link" in
      let authorEmailElem := querySelector authorElem "email" in
      mkAuthor
        (getElementValue authorElem "name")
        (match authorEmailElem with
         | Some e => mkAuthorEmail (or_string (getAttribute e "id") "")
                                   (or_string (getAttribute e "domain") "")
         | None => mkAuthorEmail "" ""
         end)
        (parseLink authorLinkElem)
  end.

Definition parseMetadata (metadata : option Node) : Metadata :=
  match metadata with
  | None =>
      mkMetadata (Some ""%string) (Some ""%string) (Some ""%string)
        (mkAuthor (Some ""%string) (mkAuthorEmail "" "") defaultLink)
        defaultLink
  | Some metadata =>
      let linkElem := queryDirectSelector metadata "link" in
      let link := parseLink linkElem in
      mkMetadata
        (getElementValue metadata "name")
        (getElementValue metadata "desc")
        (getElementValue metadata "time")
        (parseAuthor (querySelector metadata "author"))
        link
  end.

(** [!time ? null : new Date(time)] *)
Definition parseTime (time : option string) : option Date :=
  match time with
  | Some (String c r) => Some (new_Date h (String c r))
  | Some EmptyString => None
  | None => None
  end.

(** [isNaN(ele) ? null : ele] *)
Definition nullIfNaN (x : number) : option number :=
  if isNaN x then None else Some x.

(** The body of the [wpt] loop of the constructor. *)
Definition parseWaypoint (wpt : Node) : Point :=
  let ele := parseFloat (or_string (getElementValue wpt "ele") "0") in
  let time := getElementValue wpt "time" in
  {| name := defined (getElementValue wpt "name");
     sym := defined (getElementValue wpt "sym");
     lat := parseFloat (or_string (getAttribute wpt "lat") "");
     lon := parseFloat (or_string (getAttribute wpt "lon") "");
     ele := nullIfNaN ele;
     cmt := defined (getElementValue wpt "cmt");
     desc := defined (getElementValue wpt "desc");
     time := defined (parseTime time) |}.

(** The body of the [rtept] loop, which the [trkpt] loop repeats. *)
Definition parseRoutePoint (rtept : Node) : Point :=
  let floatValue := parseFloat (or_string (getElementValue rtept "ele") "0") in
  let time := getElementValue rtept "time" in
  {| lat := parseFloat (or_string (getAttribute rtept "lat") "0");
     lon := parseFloat (or_string (getAttribute rtept "lon") "0");
     ele := nullIfNaN floatValue;
     time := defined (parseTime time);
     name := undefined; sym := undefined; cmt := undefined; desc := undefined |}.

Definition parseTrackPoint (trkpt : Node) : Point := parseRoutePoint trkpt.

(** The body of the [rte] loop; [pointTag] is ["rtept"].  The [trk] loop is
    the same code with ["trkpt"]. *)
Definition parseRoute (pointTag : string) (rte : Node) : Result Route :=
  let type := queryDirectSelector rte "type" in
  let linkElem := querySelector rte "link" in
  let link := parseLink linkElem in
  let rtepts := querySelectorAll rte pointTag in
  let points := for_of rtepts (fun rtept points => push points (parseRoutePoint rtept)) [] in
  distance <- calcRouteDistance points ;;
  elevation <- calcElevationStats points ;;
  slopes <- calcSlope points (cumul distance) ;;
  Ok {| route_name := getElementValue rte "name";
        route_cmt := getElementValue rte "cmt";
        route_desc := getElementValue rte "desc";
        src := getElementValue rte "src";
        route_number := getElementValue rte "number";
        route_type := option_map innerHTML type;
        route_link := link;
        points := points;
        distance := distance;
        elevation := elevation;
        slopes := slopes |}.

Record GPXParser : Type := mkGPXParser {
  xmlSource : Document;
  metadata : Metadata;
  waypoints : list Point;
  routes : list Route;
  tracks : list Track
}.

(** [new GPXParser(gpxstring)] *)
Definition GPXParser_new (gpxstring : string) : Result GPXParser :=
  xmlSource <- parseXml h gpxstring ;;
  let metadata := parseMetadata (Document_querySelector xmlSource "metadata") in
  let wpts := Document_querySelectorAll xmlSource "wpt" in
  let waypoints :=
    for_of wpts (fun wpt waypoints => push waypoints (parseWaypoint wpt)) [] in
  let rtes := Document_querySelectorAll xmlSource "rte" in
  routes <- for_ofM rtes
              (fun rte routes =>
                 route <- parseRoute "rtept" rte ;; Ok (push routes route)) [] ;;
  let trks := Document_querySelectorAll xmlSource "trk" in
  tracks <- for_ofM trks
              (fun trk tracks =>
                 track <- parseRoute "trkpt" trk ;; Ok (push tracks track)) [] ;;
  Ok (mkGPXParser xmlSource metadata waypoints routes tracks).

(** [pt.ele || 0] inside a coordinate triplet. *)
Definition position (pt : Point) : Position :=
  (lon pt, lat pt, or_number (ele pt) zero).

Definition lineStringFeature (track : Route) : Feature :=
  let properties :=
    {| ls_name := route_name track;
       ls_cmt := route_cmt track;
       ls_desc := route_desc track;
       ls_src := src track;
       ls_number := route_number track;
       ls_link := route_link track;
       ls_type := route_type track |} in
  let coordinates :=
    for_of (points track) (fun pt coordinates => push coordinates (position pt)) [] in
  LineStringFeature coordinates properties.

Definition pointFeature (pt : Point) : Feature :=
  PointFeature (position pt)
    {| pt_name := name pt; pt_sym := sym pt; pt_cmt := cmt pt; pt_desc := desc pt |}.

Definition toGeoJSON (this : GPXParser) : GeoJSON :=
  let properties :=
    {| metadata_name := metadata_name (metadata this);
       metadata_desc := metadata_desc (metadata this);
       metadata_time := metadata_time (metadata this);
       author := author (metadata this);
       metadata_link := metadata_link (metadata this) |} in
  let features := [] in
  let features :=
    for_of (tracks this)
      (fun track features => push features (lineStringFeature track)) features in
  let features :=
    for_of (routes this)
      (fun track features => push features (lineStringFeature track)) features in
  let features :=
    for_of (waypoints this)
      (fun pt features => push features (pointFeature pt)) features in
  mkGeoJSON "FeatureCollection" features properties.

End Methods.

(** ** Notions the properties are stated with *)

(** The non-null elevations of a point sequence, each read as the source
    reads it ([points[i].ele || 0]). *)
Definition elevations (points : list Point) : list number :=
  flat_map
    (fun p => match ele p with
              | Some _ => [or_number (ele p) zero]
              | None => []
              end)
    points.

Definition hasElevation (p : Point) : bool :=
  match ele p with
  | Some _ => true
  | None => false
  end.

(** [sum] after the second loop of [calcElevationStats]. *)
Definition sumOf (es : list number) : number :=
  fold_left (fun acc e => (acc + e)%float) es zero.

(** The mean as [calcElevationStats] computes it. *)
Definition meanOf (es : list number) : number :=
  (sumOf es / number_of_Z (Z.of_nat (List.length es)))%float.

(** Whether the engine takes the non-null elevations of [points] as the
    arguments of one call: [Math.max.apply] and [Math.min.apply] throw a
    [RangeError] otherwise. *)
Definition argumentsFit (h : Host) (points : list Point) : bool :=
  (N.of_nat (List.length (elevations points)) <=? maxArguments h)%N.

(** The points the constructor parses for a route or track element. *)
Definition routePoints (h : Host) (pointTag : string) (rte : Node) : list Point :=
  map (parseRoutePoint h) (querySelectorAll h rte pointTag).

(** Whether it does so for every route and every track of a document. *)
Definition documentFits (h : Host) (doc : Document) : bool :=
  forallb (fun rte => argumentsFit h (routePoints h "rtept" rte))
          (Document_querySelectorAll h doc "rte")
  && forallb (fun trk => argumentsFit h (routePoints h "trkpt" trk))
             (Document_querySelectorAll h doc "trk").

(** Each entry is at most the next one ([<=] of the language: false on
    [NaN]). *)
Definition nonDecreasing (l : list number) : Prop :=
  forall (i : nat) (x y : number),
    nth_error l i = Some x -> nth_error l (Datatypes.S i) = Some y ->
    (x <=? y)%float = true.

(** The distance of every two consecutive points is a number that is not
    negative. *)
Definition segmentsNonNegative (h : Host) (points : list Point) : Prop :=
  forall (i : nat) (p q : Point),
    nth_error points i = Some p -> nth_error points (Datatypes.S i) = Some q ->
    (0 <=? calcDistanceBetween h p q)%float = true.

(** The last immediate child element of [parent] with tag name [needle]. *)
Definition lastDirectChild (parent : Node) (needle : string) : option Node :=
  hd_error (rev (filter (hasTagName needle) (children parent))).

(** ** Sample inputs *)

(** A route point as the parser builds it when the [time] child is absent. *)
Definition samplePoint (lat lon : number) (ele : option number) : Point :=
  {| lat := lat; lon := lon; ele := ele;
     name := undefined; sym := undefined; cmt := undefined; desc := undefined;
     time := defined None |}.

(** One point at sea level. *)
Definition seaLevel : list Point := [samplePoint 47%float 2%float (Some zero)].

(** A climb of 2 followed by a descent of 1. *)
Definition upAndDown : list Point :=
  [samplePoint 47%float 2%float (Some 1%float);
   samplePoint 47%float 2%float (Some 3%float);
   samplePoint 47%float 2%float (Some 2%float)].

(** A host for running the methods on sample inputs.  Its Math functions
    are crude stand-ins: [sin x = x], [cos x = 1] and [atan2(y, x) = y / x],
    with [NaN] for a [NaN] argument and for the sine and cosine of an
    infinity; nothing depends on their accuracy.  Its [Date.parse]
    recognises no format, and its [DOMParser] hands out the tree [doc].
    It matches selectors as browsers do, serializes as is right for trees
    without prefixes, and takes up to 65535 arguments in a call. *)
Definition sampleHost (doc : Document) : Host :=
  {| Math_sin := fun x => if is_finite x then x else nan;
     Math_cos := fun x => if is_finite x then 1%float else nan;
     Math_atan2 := fun y x => if is_nan y || is_nan x then nan else (y / x)%float;
     Date_parse := fun _ => nan;
     window_DOMParser := Some (fun _ => doc);
     JSDOM := fun _ => Throw XmlSyntaxError;
     Element_matches := matchesLocalName;
     XMLSerializer := serializeToString;
     maxArguments := 65535%N |}.

(** The same without a [window]: jsdom parses (here, to the tree [doc]) and
    matches selectors. *)
Definition jsdomHost (doc : Document) : Host :=
  {| Math_sin := Math_sin (sampleHost doc);
     Math_cos := Math_cos (sampleHost doc);
     Math_atan2 := Math_atan2 (sampleHost doc);
     Date_parse := Date_parse (sampleHost doc);
     window_DOMParser := None;
     JSDOM := fun _ => Ok doc;
     Element_matches := matchesQualifiedName;
     XMLSerializer := serializeToString;
     maxArguments := 65535%N |}.

(** A host with room for [limit] arguments only. *)
Definition withMaxArguments (limit : N) (h : Host) : Host :=
  {| Math_sin := Math_sin h;
     Math_cos := Math_cos h;
     Math_atan2 := Math_atan2 h;
     Date_parse := Date_parse h;
     window_DOMParser := window_DOMParser h;
     JSDOM := JSDOM h;
     Element_matches := Element_matches h;
     XMLSerializer := XMLSerializer h;
     maxArguments := limit |}.

Definition emptyDocument : Document := mkDocument [].

(** Two points, the first with a latitude that is [NaN]. *)
Definition nanLatitude : list Point :=
  [samplePoint nan 2%float None; samplePoint 47%float 2%float None].

(** ** What the properties ask of the host

    ECMA-262 prescribes [Math.sin(+0) = +0] and [Math.atan2(+0, x) = +0] for
    [x > 0].  That the sine is odd and that the cosine of a finite number
    lies in [[-1, 1]] it does not prescribe; engines built on fdlibm (V8,
    SpiderMonkey, JavaScriptCore) have both. *)








(** Two waypoints. *)
Definition harbour : Point :=
  {| lat := 47.25%float; lon := (-1.5)%float; ele := Some 35%float;
     name := defined (Some "Harbour"%string); sym := defined None;
     cmt := defined (Some "Warning"%string); desc := defined None;
     time := defined None |}.

Definition bridge : Point :=
  {| lat := 47.125%float; lon := (-1.75)%float; ele := Some 20%float;
     name := defined (Some "Bridge"%string); sym := defined None;
     cmt := defined None; desc := defined None;
     time := defined (Some (mkDate 1580630070000%float)) |}.

(** A route whose two [type] elements are both nested, none a direct child:
    [<rte><link><type>Web</type></link><extensions><type>hike</type></extensions></rte>] *)
Definition nestedTypes : Node :=
  element "rte" []
    [element "link" [("href", "http://example.com")]
       [element "type" [] [TextNode "Web"]];
     element "extensions" []
       [element "type" [] [TextNode "hike"]]]%string.

(** The LineString feature of a route or track, with [map] for the loop. *)
Definition lineStringOf (track : Route) : Feature :=
  LineStringFeature
    (map position (points track))
    {| ls_name := route_name track;
       ls_cmt := route_cmt track;
       ls_desc := route_desc track;
       ls_src := src track;
       ls_number := route_number track;
       ls_link := route_link track;
       ls_type := route_type track |}.

(** The GeoJSON a model stands for, written from the description of the
    conversion and not from the method: a coordinate triplet is
    [[lon, lat, ele]], with 0 for a null elevation (and for the elevation
    [-0], which is the same number); a track or a route gives a LineString
    of the triplets of its points, with its seven texts as properties; a
    waypoint gives a Point at its triplet, with its four texts. *)
Definition elevationOrZero (e : option number) : number :=
  match e with
  | None => zero
  | Some v => if is_zero v then zero else v
  end.

Definition tripletOf (pt : Point) : Position :=
  (lon pt, lat pt, elevationOrZero (ele pt)).

Definition lineStringFor (track : Route) : Feature :=
  LineStringFeature
    (map tripletOf (points track))
    (mkLineStringProperties (route_name track) (route_cmt track)
       (route_desc track) (src track) (route_number track)
       (route_link track) (route_type track)).

Definition pointFor (waypoint : Point) : Feature :=
  PointFeature
    (lon waypoint, lat waypoint, elevationOrZero (ele waypoint))
    (mkPointProperties (name waypoint) (sym waypoint) (cmt waypoint)
       (desc waypoint)).

(** The points of a route, or of a track, are its point elements parsed. *)
Definition pointsParsedFrom (h : Host) (pointTag : string) (rte : Node)
    (route : Route) : Prop :=
  points route = map (parseRoutePoint h) (querySelectorAll h rte pointTag).

(** The points of a model: its waypoints, and the points of its routes and
    tracks. *)
Definition pointOf (this : GPXParser) (pt : Point) : Prop :=
  In pt (waypoints this) \/
  exists r : Route, (In r (routes this) \/ In r (tracks this)) /\ In pt (points r).

(** [<wpt lat="47.25" lon="-1.5"><name>Harbour</name></wpt>]: no [ele]. *)
Definition waypointWithoutEle : Node :=
  (element "wpt" [("lat", "47.25"); ("lon", "-1.5")]
     [element "name" [] [TextNode "Harbour"]])%string.

(** [<wpt lat="47.25" lon="-1.5"><ele>0.0</ele></wpt>] *)
Definition waypointEleZeroPointZero : Node :=
  (element "wpt" [("lat", "47.25"); ("lon", "-1.5")]
     [element "ele" [] [TextNode "0.0"]])%string.

(** [<rtept lat="abc" lon="-1.5"><ele>12</ele></rtept>] *)
Definition routePointBadLat : Node :=
  (element "rtept" [("lat", "abc"); ("lon", "-1.5")]
     [element "ele" [] [TextNode "12"]])%string.

(** A document with one waypoint whose [time] is no timestamp. *)
Definition badTimeText : string :=
  "<gpx><wpt lat='47.25' lon='-1.5'><time>yesterday at noon</time></wpt></gpx>".

Definition badTimeDocument : Document :=
  mkDocument
    [element "gpx" []
       [element "wpt" [("lat", "47.25"); ("lon", "-1.5")]
          [element "time" [] [TextNode "yesterday at noon"]]]]%string.

(** A document with a waypoint, a route of two points and a track of two
    points; the second route point has no [ele] and the second track point
    has elevation [-0]. *)
Definition sampleText : string :=
  "<gpx><metadata><name>Demo</name></metadata><wpt lat='47.25' lon='-1.5'><ele>35</ele><name>Harbour</name></wpt><rte><name>Plan</name><rtept lat='47.25' lon='-1.5'><ele>35</ele></rtept><rtept lat='47.125' lon='-1.75'/></rte><trk><name>Walk</name><type>hike</type><trkpt lat='47.25' lon='-1.5'><ele>4.5</ele></trkpt><trkpt lat='47.125' lon='-1.75'><ele>-0</ele></trkpt></trk></gpx>".

Definition sampleDocument : Document :=
  mkDocument
    [element "gpx" []
       [element "metadata" [] [element "name" [] [TextNode "Demo"]];
        element "wpt" [("lat", "47.25"); ("lon", "-1.5")]
          [element "ele" [] [TextNode "35"];
           element "name" [] [TextNode "Harbour"]];
        element "rte" []
          [element "name" [] [TextNode "Plan"];
           element "rtept" [("lat", "47.25"); ("lon", "-1.5")]
             [element "ele" [] [TextNode "35"]];
           element "rtept" [("lat", "47.125"); ("lon", "-1.75")] []];
        element "trk" []
          [element "name" [] [TextNode "Walk"];
           element "type" [] [TextNode "hike"];
           element "trkpt" [("lat", "47.25"); ("lon", "-1.5")]
             [element "ele" [] [TextNode "4.5"]];
           element "trkpt" [("lat", "47.125"); ("lon", "-1.75")]
             [element "ele" [] [TextNode "-0"]]]]]%string.

(** A route in a prefixed vocabulary, with two [type] children:
    [<g:rte><g:type>road</g:type><g:type>hike</g:type></g:rte>], where the
    prefix [g] is bound to the namespace of GPX 1.1. *)
Definition gpxNamespace : option string :=
  Some "http://www.topografix.com/GPX/1/1"%string.

Definition prefixedTypes : Node :=
  ElementNode gpxNamespace "g:rte" []
    [ElementNode gpxNamespace "g:type" [] [TextNode "road"];
     ElementNode gpxNamespace "g:type" [] [TextNode "hike"]]%string.

(** A description with markup, in the namespace of GPX 1.1:
    [<desc>An <b>easy</b> walk</desc>] below a [gpx] element that declares
    the namespace as the default one. *)
Definition descWithMarkup : Node :=
  ElementNode gpxNamespace "wpt" []
    [ElementNode gpxNamespace "desc" []
       [TextNode "An ";
        ElementNode gpxNamespace "b" [] [TextNode "easy"];
        TextNode " walk"]]%string.

(** ** Notions for the further properties *)

(** The pairs of neighbours of a list: [(l[0], l[1])], [(l[1], l[2])], ... *)
Definition consecutive {A : Type} (l : list A) : list (A * A) :=
  combine l (tl l).

(** The distance of each point of a sequence to the next one. *)
Definition segmentDistances (h : Host) (points : list Point) : list number :=
  map (fun pq => calcDistanceBetween h (fst pq) (snd pq)) (consecutive points).

(** The totals a sum from the left goes through, after each addend. *)
Fixpoint runningTotals (start : number) (ds : list number) : list number :=
  match ds with
  | [] => []
  | d :: rest => (start + d)%float :: runningTotals (start + d)%float rest
  end.

(** The slope [calcSlope] stores at index [i], when [points] has an index
    [i + 1]. *)
Definition slopeAt (points : list Point) (cumul : JSArray number) (i : nat)
    : option number :=
  match nth_error points i, nth_error points (Datatypes.S i) with
  | Some point, Some nextPoint =>
      let elevationDiff :=
        (or_number (ele nextPoint) zero - or_number (ele point) zero)%float in
      let distance :=
        (to_number (array_get cumul (Z.of_nat i + 1))
         - to_number (array_get cumul (Z.of_nat i)))%float in
      Some ((elevationDiff * 100) / distance)%float
  | _, _ => None
  end.

(** ECMA-262 prescribes [NaN] for the sine of [NaN] and for [atan2] with a
    [NaN] argument. *)
Definition sinOfNaN (h : Host) : Prop := Math_sin h nan = nan.

Definition atan2OfNaN (h : Host) : Prop :=
  forall y x : number,
    is_nan y = true \/ is_nan x = true -> Math_atan2 h y x = nan.

(** The angle of a point of the closed first quadrant lies in [[0, pi/2]]:
    for [y] and [x] that are [+0] or positive, [atan2] is not negative.  (A
    host may also answer [NaN]; the zero [-0] is left out, the angle of
    [(-0, -0)] being [-pi].) *)
Definition atan2FirstQuadrant (h : Host) : Prop :=
  forall y x : number,
    (0 <=? y)%float = true -> is_neg_zero y = false ->
    (0 <=? x)%float = true -> is_neg_zero x = false ->
    is_nan (Math_atan2 h y x) = true \/ (0 <=? Math_atan2 h y x)%float = true.

(** The differences the first loop of [calcElevationStats] takes between
    neighbours, each elevation read as [ele || 0]. *)
Definition elevationDiffs (points : list Point) : list number :=
  map (fun pq =>
         (or_number (ele (snd pq)) zero - or_number (ele (fst pq)) zero)%float)
      (consecutive points).

(** One turn of that loop on the sums [(dp, dm)]. *)
Definition addDelta (acc : number * number) (diff : number) : number * number :=
  if (diff <? 0)%float then (fst acc, (snd acc + diff)%float)
  else if (0 <? diff)%float then ((fst acc + diff)%float, snd acc)
  else acc.

Definition deltaSums (points : list Point) : number * number :=
  fold_left addDelta (elevationDiffs points) (zero, zero).

(** A point with its elevation replaced by what [ele || 0] reads. *)
Definition zeroFilled (p : Point) : Point :=
  {| lat := lat p; lon := lon p; ele := Some (or_number (ele p) zero);
     name := name p; sym := sym p; cmt := cmt p; desc := desc p;
     time := time p |}.

(** Two points without elevation. *)
Definition noElevation : list Point :=
  [samplePoint 47%float 2%float None; samplePoint 48%float 3%float None].

(** A level walk at 100 whose middle point has no elevation. *)
Definition gapInElevation : list Point :=
  [samplePoint 47%float 2%float (Some 100%float);
   samplePoint 47%float 2%float None;
   samplePoint 47%float 2%float (Some 100%float)].

(** A text without the characters that the XML serialization escapes. *)
Fixpoint plainText (s : string) : bool :=
  match s with
  | EmptyString => true
  | String c r =>
      negb (Ascii.eqb c "&" || Ascii.eqb c "<" || Ascii.eqb c ">")
      && plainText r
  end.

(** A route or track as the constructor builds it from an element. *)
Definition routeParsedFrom (h : Host) (pointTag : string) (rte : Node)
    (route : Route) : Prop :=
  parseRoute h pointTag rte = Ok route.

(** The metadata the constructor stores when the document has no
    [metadata] element: every text is the empty string. *)
Definition emptyMetadata : Metadata :=
  {| metadata_name := Some ""%string;
     metadata_desc := Some ""%string;
     metadata_time := Some ""%string;
     author :=
       {| author_name := Some ""%string;
          email := {| email_id := ""; email_domain := "" |};
          author_link :=
            {| href := ""; text := Some ""%string; type := Some ""%string |} |};
     metadata_link :=
       {| href := ""; text := Some ""%string; type := Some ""%string |} |}.

(** [<metadata><author><name>Ann</name><link href="http://example.com">
    <text>Home</text></link></author></metadata>]: the only [link] is the
    author's. *)
Definition metadataAuthorLink : Node :=
  element "metadata" []
    [element "author" []
       [element "name" [] [TextNode "Ann"];
        element "link" [("href", "http://example.com")]
          [element "text" [] [TextNode "Home"]]]]%string.

(** [<wpt lat="1" lon="2"><name>Fish & Chips</name></wpt>], the ampersand
    being one character of the text node. *)
Definition waypointAmpersand : Node :=
  (element "wpt" [("lat", "1"); ("lon", "2")]
     [element "name" [] [TextNode "Fish & Chips"]])%string.

(** [<rte><rtept lat="1" lon="2"><name>Start</name></rtept><name>Loop</name></rte>] *)
Definition routeNamedLate : Node :=
  element "rte" []
    [element "rtept" [("lat", "1"); ("lon", "2")]
       [element "name" [] [TextNode "Start"]];
     element "name" [] [TextNode "Loop"]]%string.

(** A track of two segments:
    [<trk><trkseg><trkpt lat="1" lon="2"/></trkseg>
          <trkseg><trkpt lat="3" lon="4"/><trkpt lat="5" lon="6"/></trkseg></trk>] *)
Definition twoSegments : Node :=
  element "trk" []
    [element "trkseg" [] [element "trkpt" [("lat", "1"); ("lon", "2")] []];
     element "trkseg" []
       [element "trkpt" [("lat", "3"); ("lon", "4")] [];
        element "trkpt" [("lat", "5"); ("lon", "6")] []]]%string.

(** No point lies lower (resp. higher) than the one before it, elevations
    read as [ele || 0]. *)
Definition neverDescends (points : list Point) : Prop :=
  Forall (fun pq => (or_number (ele (fst pq)) zero
                     <=? or_number (ele (snd pq)) zero)%float = true)
         (consecutive points).

Definition neverClimbs (points : list Point) : Prop :=
  Forall (fun pq => (or_number (ele (snd pq)) zero
                     <=? or_number (ele (fst pq)) zero)%float = true)
         (consecutive points).

(** A climb in two steps, the second one level. *)
Definition climbOnly : list Point :=
  [samplePoint 47%float 2%float (Some 10%float);
   samplePoint 47%float 2%float (Some 25%float);
   samplePoint 47%float 2%float (Some 25%float)].

(** The coordinate triplets of a feature. *)
Definition coordinatesOf (f : Feature) : list Position :=
  match f with
  | LineStringFeature coordinates _ => coordinates
  | PointFeature coordinates _ => [coordinates]
  end.

(** A model built by hand: one waypoint whose latitude and elevation are
    both [NaN]. *)
Definition handBuilt : GPXParser :=
  {| xmlSource := emptyDocument;
     metadata := emptyMetadata;
     waypoints := [samplePoint nan 2%float (Some nan)];
     routes := [];
     tracks := [] |}.

(** [<rte><rtept lat="47.25" lon="-1.5"/><rtept lat="abc" lon="-1.75"/></rte>] *)
Definition routeBadLat : Node :=
  element "rte" []
    [element "rtept" [("lat", "47.25"); ("lon", "-1.5")] [];
     element "rtept" [("lat", "abc"); ("lon", "-1.75")] []]%string.

(** ** Classes of binary64 values, on their [SpecFloat] image *)

(** A number with sign bit [s]; [NaN] has none. *)
Definition has_sign (s : bool) (x : spec_float) : Prop :=
  match x with
  | S754_zero s' | S754_infinity s' | S754_finite s' _ _ => s' = s
  | S754_nan => False
  end.

(** Zero or finite. *)
Definition is_finite_sf (x : spec_float) : Prop :=
  match x with
  | S754_zero _ | S754_finite _ _ _ => True
  | _ => False
  end.

(** [0 <= x], and [x <= 0]: both hold of either zero, neither of [NaN]. *)
Definition nonneg_sf (x : spec_float) : Prop :=
  match x with
  | S754_zero _ => True
  | S754_infinity s | S754_finite s _ _ => s = false
  | S754_nan => False
  end.

Definition nonpos_sf (x : spec_float) : Prop :=
  match x with
  | S754_zero _ => True
  | S754_infinity s | S754_finite s _ _ => s = true
  | S754_nan => False
  end.


(* ===================================================================== *)
(** * Part II: binary64 arithmetic                                        *)
(* ===================================================================== *)

(** The facts below are about [SpecFloat], the bit-level specification that
    [FloatAxioms] gives to the primitive operations: how
    [binary_round_aux] moves a mantissa through its two shifts, and what
    that means for the sign, the size and the order of results. *)

Module Binary64.

Lemma fexp_eq z : fexp prec emax z = Z.max (z - 53) (-1074).
Proof. reflexivity. Qed.

Lemma digits2_pos_size p : digits2_pos p = Pos.size p.
Proof. induction p; simpl; congruence. Qed.

Lemma Zdigits2_log2 p : Zdigits2 (Zpos p) = Z.log2 (Zpos p) + 1.
Proof.
  simpl. rewrite digits2_pos_size.
  destruct p; simpl; try reflexivity; rewrite Pos2Z.inj_succ; lia.
Qed.

Lemma iter_xO_pow2 d m : Zpos (Pos.iter xO m d) = Zpos m * 2 ^ Zpos d.
Proof.
  induction d using Pos.peano_ind.
  - simpl. lia.
  - rewrite Pos.iter_succ, Pos2Z.inj_xO, IHd, Pos2Z.inj_succ, Z.pow_succ_r by lia. lia.
Qed.

Lemma shr_1_m r : 0 <= shr_m r -> shr_m (shr_1 r) = Z.div2 (shr_m r).
Proof.
  destruct r as [m rb sb]; simpl. destruct m as [|p|p]; try lia; intros _.
  - reflexivity.
  - destruct p; reflexivity.
Qed.

Lemma iter_shr_1_m p : forall r, 0 <= shr_m r ->
  shr_m (iter_pos shr_1 p r) = Z.shiftr (shr_m r) (Zpos p).
Proof.
  assert (H1 : forall r, 0 <= shr_m r -> 0 <= shr_m (shr_1 r)).
  { intros r Hr. rewrite shr_1_m by exact Hr. rewrite Z.div2_div. apply Z.div_pos; lia. }
  induction p; intros r Hr; simpl.
  - rewrite IHp, IHp, shr_1_m by (try rewrite IHp; try apply Z.shiftr_nonneg; auto).
    rewrite Z.div2_spec, !Z.shiftr_shiftr by lia. f_equal. lia.
  - rewrite IHp, IHp by (try rewrite IHp; try apply Z.shiftr_nonneg; auto).
    rewrite !Z.shiftr_shiftr by lia. f_equal. lia.
  - rewrite shr_1_m by exact Hr. apply Z.div2_spec.
Qed.

(** shr on a natural shifts by max n 0 *)
Lemma shr_spec r e n : 0 <= shr_m r ->
  shr_m (fst (shr r e n)) = Z.shiftr (shr_m r) (Z.max n 0) /\ snd (shr r e n) = e + Z.max n 0.
Proof.
  intros Hr. destruct n as [|p|p]; simpl.
  - rewrite Z.shiftr_0_r. split; auto; lia.
  - rewrite iter_shr_1_m by exact Hr. split; auto.
  - rewrite Z.shiftr_0_r. split; auto; lia.
Qed.

Lemma shr_record_of_loc_m m l : shr_m (shr_record_of_loc m l) = m.
Proof. destruct l as [|[]]; reflexivity. Qed.

Lemma shr_fexp_spec m e l : 0 <= m ->
  let n := Z.max (fexp prec emax (Zdigits2 m + e) - e) 0 in
  shr_m (fst (shr_fexp prec emax m e l)) = Z.shiftr m n /\
  snd (shr_fexp prec emax m e l) = e + n.
Proof.
  intros Hm n. unfold shr_fexp.
  pose proof (shr_spec (shr_record_of_loc m l) e (fexp prec emax (Zdigits2 m + e) - e)) as H.
  rewrite shr_record_of_loc_m in H. apply H. exact Hm.
Qed.

Lemma round_nearest_even_bounds m l : m <= round_nearest_even m l <= m + 1.
Proof. destruct l as [|[]]; simpl; try lia. destruct (Z.even m); lia. Qed.

(** The three stages of binary_round_aux on a non-negative mantissa. *)
Lemma binary_round_aux_spec s m e l : 0 <= m ->
  exists m1 m2 e2,
    let n1 := Z.max (fexp prec emax (Zdigits2 m + e) - e) 0 in
    let e1 := e + n1 in
    let n2 := Z.max (fexp prec emax (Zdigits2 m1 + e1) - e1) 0 in
    Z.shiftr m n1 <= m1 <= Z.shiftr m n1 + 1 /\
    m2 = Z.shiftr m1 n2 /\ e2 = e1 + n2 /\
    binary_round_aux prec emax s m e l =
      match m2 with
      | Z0 => S754_zero s
      | Zpos p => if e2 <=? emax - prec then S754_finite s p e2 else S754_infinity s
      | Zneg _ => S754_nan
      end.
Proof.
  intros Hm. unfold binary_round_aux.
  pose proof (shr_fexp_spec m e l Hm) as [Hm1 He1].
  destruct (shr_fexp prec emax m e l) as [mrs1 e1] eqn:E1. simpl in Hm1, He1.
  set (m1 := round_nearest_even (shr_m mrs1) (loc_of_shr_record mrs1)).
  assert (Hb : shr_m mrs1 <= m1 <= shr_m mrs1 + 1) by apply round_nearest_even_bounds.
  assert (Hm1' : 0 <= m1).
  { rewrite Hm1 in Hb. pose proof (Z.shiftr_nonneg m (Z.max (fexp prec emax (Zdigits2 m + e) - e) 0)). lia. }
  pose proof (shr_fexp_spec m1 e1 loc_Exact Hm1') as [Hm2 He2].
  destruct (shr_fexp prec emax m1 e1 loc_Exact) as [mrs2 e2] eqn:E2. simpl in Hm2, He2.
  exists m1, (shr_m mrs2), e2. cbv zeta. subst e1. rewrite <- Hm1.
  repeat split; try lia; auto.
Qed.

Lemma SFcompare_refl (x : spec_float) : x <> S754_nan -> SFcompare x x = Some Eq.
Proof.
  destruct x as [s|s| |s m e]; simpl; try congruence; intros _.
  - destruct s; reflexivity.
  - rewrite Z.compare_refl.
    change (Pos.compare_cont Eq m m) with (Pos.compare m m).
    rewrite Pos.compare_refl. destruct s; reflexivity.
Qed.

Lemma binary_round_aux_sign s m e l : 0 <= m -> has_sign s (binary_round_aux prec emax s m e l).
Proof.
  intros Hm. destruct (binary_round_aux_spec s m e l Hm) as (m1 & m2 & e2 & Hm1 & Hm2 & He2 & ->).
  assert (0 <= m2).
  { subst m2. apply Z.shiftr_nonneg.
    pose proof (Z.shiftr_nonneg m (Z.max (fexp prec emax (Zdigits2 m + e) - e) 0)). lia. }
  destruct m2; try lia; simpl; auto.
  destruct (_ <=? _); simpl; auto.
Qed.

Lemma binary_round_sign s m e : has_sign s (binary_round prec emax s m e).
Proof.
  unfold binary_round. destruct (shl_align _ _ _) as [mz ez].
  apply binary_round_aux_sign. lia.
Qed.

Lemma shl_align_spec m e e' :
  e' <= e -> shl_align m e e' = (Z.to_pos (Zpos m * 2 ^ (e - e')), e') .
Proof.
  intros H. unfold shl_align.
  destruct (e' - e) as [|p|p] eqn:E; try lia.
  - replace (e - e') with 0 by lia. simpl. f_equal; try lia.
  - f_equal. replace (e - e') with (Zpos p) by lia.
    rewrite <- iter_xO_pow2. reflexivity.
Qed.

Lemma shl_align_ge m e e' : e <= e' -> shl_align m e e' = (m, e).
Proof.
  intros H. unfold shl_align. destruct (e' - e) as [|p|p] eqn:E; try lia; reflexivity.
Qed.

Lemma digits_ge_1 p : 1 <= Zdigits2 (Zpos p).
Proof. rewrite Zdigits2_log2. pose proof (Z.log2_nonneg (Zpos p)). lia. Qed.

Lemma digits_lower p : 2 ^ (Zdigits2 (Zpos p) - 1) <= Zpos p.
Proof.
  rewrite Zdigits2_log2. replace (Z.log2 (Zpos p) + 1 - 1) with (Z.log2 (Zpos p)) by lia.
  apply Z.log2_spec. lia.
Qed.

Lemma shiftr_fexp_pos p e : emin <= e ->
  0 < Z.shiftr (Zpos p) (Z.max (fexp prec emax (Zdigits2 (Zpos p) + e) - e) 0).
Proof.
  intros He. rewrite fexp_eq. change emin with (-1074) in He.
  pose proof (digits_lower p) as Hl. pose proof (digits_ge_1 p) as Hd.
  set (d := Zdigits2 (Zpos p)) in *.
  rewrite Z.shiftr_div_pow2 by lia.
  apply Z.div_str_pos. split; [apply Z.pow_pos_nonneg; lia|].
  eapply Z.le_trans; [|exact Hl].
  apply Z.pow_le_mono_r; lia.
Qed.

Lemma valid_finite_canonical s m e :
  valid_binary (S754_finite s m e) = true ->
  fexp prec emax (Zdigits2 (Zpos m) + e) = e /\ e <= emax - prec.
Proof.
  simpl. unfold bounded, canonical_mantissa. rewrite andb_true_iff, Z.eqb_eq, Z.leb_le. auto.
Qed.

Lemma fexp_mono a b : a <= b -> fexp prec emax a <= fexp prec emax b.
Proof. rewrite !fexp_eq. lia. Qed.

Lemma fexp_ge_emin a : emin <= fexp prec emax a.
Proof. rewrite fexp_eq. change emin with (-1074). lia. Qed.

Lemma digits_mono p q : Zpos p <= Zpos q -> Zdigits2 (Zpos p) <= Zdigits2 (Zpos q).
Proof. intros. rewrite !Zdigits2_log2. pose proof (Z.log2_le_mono _ _ H). lia. Qed.

Lemma digits_shift p k : 0 <= k -> Zdigits2 (Zpos p * 2 ^ k) = Zdigits2 (Zpos p) + k.
Proof.
  intros Hk. assert (0 < Zpos p * 2 ^ k) by (apply Z.mul_pos_pos; [lia|apply Z.pow_pos_nonneg; lia]).
  destruct (Zpos p * 2 ^ k) eqn:E; try lia.
  rewrite !Zdigits2_log2, <- E, Z.log2_mul_pow2 by lia. lia.
Qed.

(** Adding a non-negative finite number never goes below the first operand. *)
Lemma SFadd_finite_mono mx ex md ed :
  valid_binary (S754_finite false mx ex) = true ->
  valid_binary (S754_finite false md ed) = true ->
  SFleb (S754_finite false mx ex)
        (SFadd prec emax (S754_finite false mx ex) (S754_finite false md ed)) = true.
Proof.
  intros Vx Vd.
  apply valid_finite_canonical in Vx as [Cx Bx], Vd as [Cd Bd].
  assert (Ex : emin <= ex) by (rewrite <- Cx; apply fexp_ge_emin).
  assert (Ed : emin <= ed) by (rewrite <- Cd; apply fexp_ge_emin).
  unfold SFadd. set (ez := Z.min ex ed).
  rewrite (shl_align_spec mx ex ez), (shl_align_spec md ed ez) by (unfold ez; lia).
  cbn [fst cond_Zopp].
  assert (Px : 0 < Zpos mx * 2 ^ (ex - ez)) by (apply Z.mul_pos_pos; [lia|apply Z.pow_pos_nonneg; lia]).
  assert (Pd : 0 < Zpos md * 2 ^ (ed - ez)) by (apply Z.mul_pos_pos; [lia|apply Z.pow_pos_nonneg; lia]).
  rewrite !Z2Pos.id by lia.
  destruct (Zpos mx * 2 ^ (ex - ez) + Zpos md * 2 ^ (ed - ez)) as [|M|M] eqn:EM; try lia.
  unfold binary_normalize, binary_round.
  assert (Hdig : Zdigits2 (Zpos mx) + ex <= Zdigits2 (Zpos M) + ez).
  { assert (Zdigits2 (Zpos mx * 2 ^ (ex - ez)) <= Zdigits2 (Zpos M)).
    { destruct (Zpos mx * 2 ^ (ex - ez)) eqn:E; try lia. apply digits_mono. lia. }
    rewrite digits_shift in H by (unfold ez; lia). lia. }
  assert (HE1 : ex <= fexp prec emax (Zdigits2 (Zpos M) + ez)).
  { rewrite <- Cx at 1. apply fexp_mono, Hdig. }
  change (Zpos (digits2_pos M)) with (Zdigits2 (Zpos M)).
  rewrite shl_align_ge by (unfold ez in *; lia).
  destruct (binary_round_aux_spec false (Zpos M) ez loc_Exact ltac:(lia))
    as (m1 & m2 & e2 & Hm1 & Hm2 & He2 & ->).
  set (n1 := Z.max (fexp prec emax (Zdigits2 (Zpos M) + ez) - ez) 0) in *.
  set (e1 := ez + n1) in *.
  assert (Hez : emin <= ez) by (unfold ez; lia).
  pose proof (shiftr_fexp_pos M ez Hez) as HM1. fold n1 in HM1.
  assert (Hm1pos : 0 < m1) by lia.
  destruct m1 as [|p1|p1]; try lia.
  assert (He1 : emin <= e1) by (unfold e1, n1; lia).
  pose proof (shiftr_fexp_pos p1 e1 He1) as HM2.
  set (n2 := Z.max (fexp prec emax (Zdigits2 (Zpos p1) + e1) - e1) 0) in *.
  rewrite <- Hm2 in HM2.
  destruct m2 as [|p2|p2]; try lia.
  destruct (e2 <=? emax - prec); [|reflexivity].
  unfold SFleb, SFcompare.
  assert (Hex : ex <= e2) by (unfold e1, n1, n2 in *; lia).
  destruct (Z.compare_spec ex e2) as [Heq|Hlt|Hgt]; try lia; auto.
  change (Pos.compare_cont Eq mx p2) with (Pos.compare mx p2).
  assert (Hn2 : n2 = 0) by (unfold e1, n1 in *; lia).
  assert (Hn1 : n1 = ex - ez) by (unfold e1 in *; lia).
  rewrite Hn2, Z.shiftr_0_r in Hm2.
  assert (Zpos mx <= Zpos p2).
  { rewrite Hm2. eapply Z.le_trans; [|apply Hm1]. rewrite Hn1, Z.shiftr_div_pow2 by (unfold ez; lia).
    apply Z.div_le_lower_bound; [apply Z.pow_pos_nonneg; unfold ez; lia|]. lia. }
  destruct (Pos.compare_spec mx p2); auto. lia.
Qed.



Lemma SFmul_comm x y : SFmul prec emax x y = SFmul prec emax y x.
Proof.
  destruct x as [sx|sx| |sx mx ex], y as [sy|sy| |sy my ey]; simpl;
    try rewrite (xorb_comm sx sy); try reflexivity.
  rewrite (Pos.mul_comm mx my), (Z.add_comm ex ey). reflexivity.
Qed.







Ltac cmp_cases :=
  repeat match goal with
  | H : context [Pos.compare_cont Eq ?a ?b] |- _ =>
      change (Pos.compare_cont Eq a b) with (Pos.compare a b) in H
  | |- context [Pos.compare_cont Eq ?a ?b] =>
      change (Pos.compare_cont Eq a b) with (Pos.compare a b)
  end;
  repeat match goal with
  | H : context [Z.compare ?a ?b] |- _ => destruct (Z.compare_spec a b)
  | |- context [Z.compare ?a ?b] => destruct (Z.compare_spec a b)
  | H : context [Pos.compare ?a ?b] |- _ => destruct (Pos.compare_spec a b)
  | |- context [Pos.compare ?a ?b] => destruct (Pos.compare_spec a b)
  end;
  simpl in *; try congruence; try lia.

Lemma SFleb_trans x y z :
  SFleb x y = true -> SFleb y z = true -> SFleb x z = true.
Proof.
  unfold SFleb, SFcompare.
  destruct x as [[]|[]| |[] mx ex], y as [[]|[]| |[] my ey], z as [[]|[]| |[] mz ez];
    simpl; try congruence; intros H1 H2; cmp_cases.
Qed.

Lemma SFltb_false_leb x y :
  x <> S754_nan -> y <> S754_nan -> SFltb x y = false -> SFleb y x = true.
Proof.
  unfold SFleb, SFltb, SFcompare.
  destruct x as [[]|[]| |[] mx ex], y as [[]|[]| |[] my ey];
    simpl; try congruence; intros _ _ H1; cmp_cases.
Qed.

Lemma SFltb_leb x y : SFltb x y = true -> SFleb x y = true.
Proof.
  unfold SFleb, SFltb. destruct (SFcompare x y) as [[]|]; congruence.
Qed.

Lemma SFleb_not_nan x y : SFleb x y = true -> x <> S754_nan /\ y <> S754_nan.
Proof.
  unfold SFleb, SFcompare.
  destruct x as [[]|[]| |[] mx ex], y as [[]|[]| |[] my ey]; simpl; split; congruence.
Qed.




Lemma SFleb_zero_l x : SFleb (S754_zero false) x = true <-> nonneg_sf x.
Proof.
  unfold SFleb. destruct x as [[]|[]| |[] m e]; simpl; split; try congruence; tauto.
Qed.

Lemma SFleb_zero_r x : SFleb x (S754_zero false) = true <-> nonpos_sf x.
Proof.
  unfold SFleb. destruct x as [[]|[]| |[] m e]; simpl; split; try congruence; tauto.
Qed.

Lemma has_sign_nonneg x : has_sign false x -> nonneg_sf x.
Proof. destruct x; simpl; auto. Qed.

Lemma has_sign_nonpos x : has_sign true x -> nonpos_sf x.
Proof. destruct x; simpl; auto. Qed.

Lemma SFadd_nonneg x y : nonneg_sf x -> nonneg_sf y -> nonneg_sf (SFadd prec emax x y).
Proof.
  destruct x as [sx|sx| |sx mx ex], y as [sy|sy| |sy my ey]; simpl; try tauto;
    try (intros; subst; simpl; auto; fail).
  - intros _ _. destruct sx, sy; simpl; auto.
  - intros -> ->. simpl. apply has_sign_nonneg. apply (binary_round_sign false).
Qed.

Lemma SFadd_nonpos x y : nonpos_sf x -> nonpos_sf y -> nonpos_sf (SFadd prec emax x y).
Proof.
  destruct x as [sx|sx| |sx mx ex], y as [sy|sy| |sy my ey]; simpl; try tauto;
    try (intros; subst; simpl; auto; fail).
  - intros _ _. destruct sx, sy; simpl; auto.
  - intros -> ->. simpl. apply has_sign_nonpos. apply (binary_round_sign true).
Qed.

Lemma SFleb_refl x : x <> S754_nan -> SFleb x x = true.
Proof. intros H. unfold SFleb. rewrite SFcompare_refl by exact H. reflexivity. Qed.

Lemma SFadd_mono x y :
  valid_binary x = true -> valid_binary y = true ->
  nonneg_sf x -> nonneg_sf y -> SFleb x (SFadd prec emax x y) = true.
Proof.
  intros Vx Vy Hx Hy.
  destruct x as [sx|sx| |sx mx ex], y as [sy|sy| |sy my ey]; simpl in Hx, Hy; try tauto; subst.
  - destruct sx, sy; reflexivity.
  - destruct sx; reflexivity.
  - destruct sx; reflexivity.
  - reflexivity.
  - reflexivity.
  - reflexivity.
  - simpl. apply SFleb_refl. congruence.
  - reflexivity.
  - apply SFadd_finite_mono; assumption.
Qed.




End Binary64.

(* ===================================================================== *)
(** * Part III: JavaScript numbers                                        *)
(* ===================================================================== *)

(** The same facts on [number], through [FloatAxioms]. *)

Import Binary64.

Local Open Scope float_scope.

Lemma Prim2SF_zero : Prim2SF zero = S754_zero false.
Proof. reflexivity. Qed.

Lemma is_nan_spec (x : number) : is_nan x = true <-> Prim2SF x = S754_nan.
Proof.
  unfold is_nan. rewrite eqb_spec. unfold SFeqb.
  destruct (Prim2SF x) eqn:E.
  all: try (rewrite SFcompare_refl by congruence).
  all: simpl; split; congruence.
Qed.

Lemma is_nan_false (x : number) : is_nan x = false <-> Prim2SF x <> S754_nan.
Proof.
  rewrite <- is_nan_spec. destruct (is_nan x); split; congruence.
Qed.

Lemma is_zero_spec (x : number) :
  is_zero x = true <-> exists s, Prim2SF x = S754_zero s.
Proof.
  unfold is_zero. rewrite eqb_spec, Prim2SF_zero. unfold SFeqb.
  destruct (Prim2SF x) as [s|[]| |[] m e]; simpl;
    split; eauto; try congruence; intros [? ?]; congruence.
Qed.

Lemma is_finite_spec (x : number) :
  is_finite x = true <-> is_finite_sf (Prim2SF x).
Proof.
  unfold is_finite, is_infinity.
  destruct (is_nan x) eqn:N.
  - apply is_nan_spec in N. rewrite N. simpl. split; [congruence|tauto].
  - apply is_nan_false in N. rewrite eqb_spec, abs_spec. simpl.
    change (Prim2SF infinity) with (S754_infinity false).
    destruct (Prim2SF x) as [s|s| |s m e]; simpl; try tauto;
      unfold SFeqb; simpl; split; auto; congruence.
Qed.

Lemma leb_zero_l (x : number) : (0 <=? x) = true <-> nonneg_sf (Prim2SF x).
Proof. rewrite leb_spec. apply SFleb_zero_l. Qed.

Lemma leb_zero_r (x : number) : (x <=? 0) = true <-> nonpos_sf (Prim2SF x).
Proof. rewrite leb_spec. apply SFleb_zero_r. Qed.

Lemma leb_not_nan (x y : number) :
  (x <=? y) = true -> is_nan x = false /\ is_nan y = false.
Proof.
  rewrite leb_spec, !is_nan_false. apply SFleb_not_nan.
Qed.

Lemma leb_refl (x : number) : is_nan x = false -> (x <=? x) = true.
Proof. rewrite leb_spec, is_nan_false. apply SFleb_refl. Qed.

Lemma leb_trans (x y z : number) :
  (x <=? y) = true -> (y <=? z) = true -> (x <=? z) = true.
Proof. rewrite !leb_spec. apply SFleb_trans. Qed.

Lemma ltb_leb (x y : number) : (x <? y) = true -> (x <=? y) = true.
Proof. rewrite ltb_spec, leb_spec. apply SFltb_leb. Qed.

Lemma ltb_false_leb (x y : number) :
  is_nan x = false -> is_nan y = false -> (x <? y) = false -> (y <=? x) = true.
Proof. rewrite ltb_spec, leb_spec, !is_nan_false. apply SFltb_false_leb. Qed.

(** Sums of numbers of one sign keep it, and never turn into [NaN]. *)
Lemma add_nonneg (x y : number) :
  (0 <=? x) = true -> (0 <=? y) = true -> (0 <=? x + y) = true.
Proof. rewrite !leb_zero_l, add_spec. apply SFadd_nonneg. Qed.

Lemma add_nonpos (x y : number) :
  (x <=? 0) = true -> (y <=? 0) = true -> (x + y <=? 0) = true.
Proof. rewrite !leb_zero_r, add_spec. apply SFadd_nonpos. Qed.

(** Rounding is monotone enough for running totals: a non-negative addend
    never takes a non-negative total down. *)
Lemma add_nonneg_mono (x y : number) :
  (0 <=? x) = true -> (0 <=? y) = true -> (x <=? x + y) = true.
Proof.
  rewrite !leb_zero_l, leb_spec, add_spec.
  apply SFadd_mono; apply Prim2SF_valid.
Qed.

Lemma mul_comm (x y : number) : x * y = y * x.
Proof. apply Prim2SF_inj. rewrite !mul_spec. apply SFmul_comm. Qed.






Lemma sub_diag (x : number) : is_finite x = true -> x - x = zero.
Proof.
  rewrite is_finite_spec. intros H. apply Prim2SF_inj.
  rewrite sub_spec, Prim2SF_zero.
  destruct (Prim2SF x) as [[]|s| |s m e]; simpl in *; try tauto.
  rewrite Z.min_id, Z.sub_diag. reflexivity.
Qed.

(** *** Truthiness *)

Lemma truthy_spec (x : number) :
  truthy x = true <->
  match Prim2SF x with
  | S754_infinity _ | S754_finite _ _ _ => True
  | _ => False
  end.
Proof.
  unfold truthy. rewrite negb_true_iff, orb_false_iff.
  destruct (is_zero x) eqn:Z.
  - apply is_zero_spec in Z as [s ->]. split; [intros []; congruence|tauto].
  - destruct (is_nan x) eqn:N.
    + apply is_nan_spec in N. rewrite N. split; [intros []; congruence|tauto].
    + apply is_nan_false in N.
      assert (Z' : ~ exists s, Prim2SF x = S754_zero s).
      { rewrite <- is_zero_spec. congruence. }
      destruct (Prim2SF x); try tauto; try congruence.
      exfalso. apply Z'. eauto.
Qed.

Lemma truthy_not_nan (x : number) : truthy x = true -> is_nan x = false.
Proof.
  unfold truthy. rewrite negb_true_iff, orb_false_iff. tauto.
Qed.

Lemma or_null_None (x : number) : or_null x = None <-> truthy x = false.
Proof. unfold or_null. destruct (truthy x); split; congruence. Qed.

Lemma or_null_Some (x v : number) : or_null x = Some v -> v = x /\ truthy x = true.
Proof. unfold or_null. destruct (truthy x); intros H; inversion H; auto. Qed.

Lemma is_zero_abs (x : number) : is_zero (Math_abs x) = is_zero x.
Proof.
  unfold Math_abs, is_zero. rewrite !eqb_spec, abs_spec.
  destruct (Prim2SF x) as [[]|[]| |[] m e]; reflexivity.
Qed.

Lemma is_nan_abs (x : number) : is_nan (Math_abs x) = is_nan x.
Proof.
  unfold Math_abs. destruct (is_nan x) eqn:N.
  - apply is_nan_spec. rewrite abs_spec. apply is_nan_spec in N. rewrite N. reflexivity.
  - apply is_nan_false. rewrite abs_spec. apply is_nan_false in N.
    destruct (Prim2SF x); simpl; congruence.
Qed.

Lemma truthy_abs (x : number) : truthy (Math_abs x) = truthy x.
Proof. unfold truthy. rewrite is_zero_abs, is_nan_abs. reflexivity. Qed.

(** A truthy absolute value is strictly positive. *)
Lemma truthy_abs_positive (x : number) :
  truthy (Math_abs x) = true -> (0 <? Math_abs x) = true.
Proof.
  rewrite truthy_spec, ltb_spec. unfold Math_abs. rewrite abs_spec.
  change (Prim2SF 0) with (S754_zero false).
  destruct (Prim2SF x) as [s|s| |s m e]; simpl; tauto || reflexivity.
Qed.

Local Close Scope float_scope.

(* ===================================================================== *)
(** * Part IV: the methods                                                *)
(* ===================================================================== *)

(** ** Loops *)

(** The invariant rule for a counted loop whose body never throws while the
    invariant holds. *)
Lemma for_range_inv {S : Type} (P : Z -> S -> Prop) (body : Z -> S -> Result S) :
  forall (count : nat) (i : Z) (s : S),
    P i s ->
    (forall j t, i <= j < i + Z.of_nat count -> P j t ->
       exists t', body j t = Ok t' /\ P (j + 1) t') ->
    exists s', for_range count i body s = Ok s' /\ P (i + Z.of_nat count) s'.
Proof.
  induction count as [|k IH]; intros i s Hs Hbody.
  - exists s. simpl. rewrite Z.add_0_r. auto.
  - destruct (Hbody i s ltac:(lia) Hs) as (t & Ht & HP).
    destruct (IH (i + 1) t HP) as (s' & Hs' & HP').
    { intros j u Hj. apply Hbody. lia. }
    exists s'. split.
    + cbn [for_range]. rewrite Ht. exact Hs'.
    + replace (i + Z.of_nat (Datatypes.S k)) with (i + 1 + Z.of_nat k) by lia.
      exact HP'.
Qed.

Lemma for_lt_inv {S : Type} (P : Z -> S -> Prop) (body : Z -> S -> Result S)
    (lo hi : Z) (s : S) :
  P lo s ->
  (forall j t, lo <= j < hi -> P j t ->
     exists t', body j t = Ok t' /\ P (j + 1) t') ->
  exists s', for_lt lo hi body s = Ok s' /\ P (Z.max lo hi) s'.
Proof.
  intros Hs Hbody. unfold for_lt.
  destruct (for_range_inv P body (Z.to_nat (hi - lo)) lo s Hs) as (s' & Hs' & HP).
  { intros j t Hj. apply Hbody. lia. }
  exists s'. split; [exact Hs'|].
  replace (Z.max lo hi) with (lo + Z.of_nat (Z.to_nat (hi - lo))) by lia.
  exact HP.
Qed.

(** A [for ... of] loop that only pushes is a [map]. *)
Lemma for_of_push {A B : Type} (f : A -> B) (xs : list A) (acc : list B) :
  for_of xs (fun x acc => push acc (f x)) acc = acc ++ map f xs.
Proof.
  unfold for_of. revert acc.
  induction xs as [|x xs IH]; intros acc; simpl.
  - rewrite app_nil_r. reflexivity.
  - rewrite IH. unfold push. rewrite <- app_assoc. reflexivity.
Qed.

Lemma index_in_range {A : Type} (xs : list A) (i : Z) :
  0 <= i < Z.of_nat (List.length xs) ->
  exists x, index xs i = Ok x /\ nth_error xs (Z.to_nat i) = Some x.
Proof.
  intros Hi. unfold index.
  destruct (Z.ltb_spec i 0); [lia|].
  destruct (nth_error xs (Z.to_nat i)) as [x|] eqn:E.
  - eauto.
  - apply nth_error_None in E. lia.
Qed.

(** ** [calcElevationStats] *)

Lemma firstn_succ_nth_error {A : Type} (l : list A) (n : nat) (x : A) :
  nth_error l n = Some x -> firstn (Datatypes.S n) l = firstn n l ++ [x].
Proof.
  revert n. induction l as [|a l IH]; intros [|n] H; simpl in *; try discriminate.
  - inversion H. reflexivity.
  - rewrite (IH n H). reflexivity.
Qed.

Lemma elevations_app (l1 l2 : list Point) :
  elevations (l1 ++ l2) = elevations l1 ++ elevations l2.
Proof. unfold elevations. apply flat_map_app. Qed.

Lemma elevations_single (p : Point) :
  elevations [p] =
  match ele p with
  | Some _ => [or_number (ele p) zero]
  | None => []
  end.
Proof. unfold elevations. simpl. apply app_nil_r. Qed.

(** The second loop collects exactly [elevations points] and their sum. *)
Lemma elevationList_spec (points : list Point) :
  elevationList points = Ok (elevations points, sumOf (elevations points)).
Proof.
  unfold elevationList.
  set (len := Z.of_nat (List.length points)).
  destruct (for_lt_inv
    (fun i st => 0 <= i <= len /\
       st = (elevations (firstn (Z.to_nat i) points),
             sumOf (elevations (firstn (Z.to_nat i) points))))
    (fun i '(elevation, sum) =>
       p <- index points i ;;
       match ele p with
       | Some _ =>
           let e := or_number (ele p) zero in
           Ok (push elevation e, (sum + e)%float)
       | None => Ok (elevation, sum)
       end)
    0 len ([], zero)) as (st & Hst & Hrange & ->).
  - split; [lia|reflexivity].
  - intros j t Hj [_ ->].
    destruct (index_in_range points j ltac:(lia)) as (p & -> & Hp).
    replace (Z.to_nat (j + 1)) with (Datatypes.S (Z.to_nat j)) by lia.
    rewrite (firstn_succ_nth_error _ _ _ Hp), elevations_app, elevations_single.
    cbn [bind].
    destruct (ele p) as [v|] eqn:E.
    + eexists. split; [reflexivity|]. split; [lia|].
      unfold push, sumOf. rewrite fold_left_app. reflexivity.
    + eexists. split; [reflexivity|]. split; [lia|].
      rewrite app_nil_r. reflexivity.
  - refine (eq_trans Hst _). replace (Z.max 0 len) with len by lia.
    unfold len. rewrite Nat2Z.id, firstn_all. reflexivity.
Qed.

(** The first loop never throws, [dp] is a number that is not negative and
    [dm] a number that is not positive. *)
Lemma elevationDeltas_signs (points : list Point) :
  exists dp dm,
    elevationDeltas points = Ok (dp, dm) /\
    (0 <=? dp)%float = true /\ (dm <=? 0)%float = true.
Proof.
  unfold elevationDeltas.
  set (len := Z.of_nat (List.length points)).
  destruct (for_lt_inv
    (fun (i : Z) (st : number * number) =>
       (0 <=? fst st)%float = true /\ (snd st <=? 0)%float = true)
    (fun i '(dp, dm) =>
       q <- index points (i + 1) ;;
       let rawNextElevation := or_number (ele q) zero in
       p <- index points i ;;
       let rawElevation := or_number (ele p) zero in
       let diff := (rawNextElevation - rawElevation)%float in
       if (diff <? 0)%float then Ok (dp, (dm + diff)%float)
       else if (0 <? diff)%float then Ok ((dp + diff)%float, dm)
       else Ok (dp, dm))
    0 (len - 1) (zero, zero)) as ([dp dm] & Hst & Hdp & Hdm).
  - split; reflexivity.
  - intros j [dp dm] Hj [Hdp Hdm]. simpl in Hdp, Hdm.
    destruct (index_in_range points (j + 1) ltac:(lia)) as (q & -> & _).
    destruct (index_in_range points j ltac:(lia)) as (p & -> & _).
    cbn [bind].
    set (diff := (or_number (ele q) zero - or_number (ele p) zero)%float).
    destruct (diff <? 0)%float eqn:Hneg.
    + eexists. split; [reflexivity|]. simpl. split; [exact Hdp|].
      apply add_nonpos; [exact Hdm|apply ltb_leb, Hneg].
    + destruct (0 <? diff)%float eqn:Hpos.
      * eexists. split; [reflexivity|]. simpl. split; [|exact Hdm].
        apply add_nonneg; [exact Hdp|apply ltb_leb, Hpos].
      * eexists. split; [reflexivity|]. simpl. auto.
  - exists dp, dm. auto.
Qed.

(** *** [Math.max] and [Math.min] over numbers that are not [NaN] *)

Lemma is_pos_zero_eq (x : number) : is_pos_zero x = true -> x = zero.
Proof. apply FloatAxioms.Leibniz.eqb_spec. Qed.

Lemma is_neg_zero_eq (x : number) : is_neg_zero x = true -> x = neg_zero.
Proof. apply FloatAxioms.Leibniz.eqb_spec. Qed.

Lemma Math_max_from_spec (args : list number) :
  forall highest : number,
    is_nan highest = false ->
    Forall (fun x => is_nan x = false) args ->
    let r := Math_max_from highest args in
    (r = highest \/ In r args) /\
    (highest <=? r)%float = true /\
    Forall (fun x => (x <=? r)%float = true) args.
Proof.
  induction args as [|x rest IH]; intros highest Hh Hargs; cbn zeta.
  - simpl. repeat split; auto using leb_refl.
  - inversion Hargs as [|? ? Hx Hrest]; subst.
    cbn [Math_max_from]. rewrite Hx.
    set (h1 := if is_pos_zero x && is_neg_zero highest then zero else highest).
    set (h2 := if (h1 <? x)%float then x else h1).
    assert (H2 : is_nan h2 = false /\ (h2 = highest \/ h2 = x) /\
                 (highest <=? h2)%float = true /\ (x <=? h2)%float = true).
    { unfold h2, h1.
      destruct (is_pos_zero x && is_neg_zero highest) eqn:B.
      - apply andb_true_iff in B as [Bx Bh].
        apply is_pos_zero_eq in Bx. apply is_neg_zero_eq in Bh. subst.
        repeat split; auto.
      - destruct (highest <? x)%float eqn:L.
        + repeat split; auto using ltb_leb, leb_refl.
        + repeat split; auto using ltb_false_leb, leb_refl. }
    destruct H2 as (N2 & E2 & L2 & X2).
    destruct (IH h2 N2 Hrest) as (R1 & R2 & R3).
    repeat split.
    + destruct R1 as [R1|R1]; [|right; right; exact R1].
      rewrite R1. destruct E2 as [->| ->]; [left|right; left]; reflexivity.
    + eapply leb_trans; eassumption.
    + constructor; [eapply leb_trans; eassumption|exact R3].
Qed.

Lemma Math_min_from_spec (args : list number) :
  forall lowest : number,
    is_nan lowest = false ->
    Forall (fun x => is_nan x = false) args ->
    let r := Math_min_from lowest args in
    (r = lowest \/ In r args) /\
    (r <=? lowest)%float = true /\
    Forall (fun x => (r <=? x)%float = true) args.
Proof.
  induction args as [|x rest IH]; intros lowest Hl Hargs; cbn zeta.
  - simpl. repeat split; auto using leb_refl.
  - inversion Hargs as [|? ? Hx Hrest]; subst.
    cbn [Math_min_from]. rewrite Hx.
    set (l1 := if is_neg_zero x && is_pos_zero lowest then neg_zero else lowest).
    set (l2 := if (x <? l1)%float then x else l1).
    assert (H2 : is_nan l2 = false /\ (l2 = lowest \/ l2 = x) /\
                 (l2 <=? lowest)%float = true /\ (l2 <=? x)%float = true).
    { unfold l2, l1.
      destruct (is_neg_zero x && is_pos_zero lowest) eqn:B.
      - apply andb_true_iff in B as [Bx Bl].
        apply is_neg_zero_eq in Bx. apply is_pos_zero_eq in Bl. subst.
        repeat split; auto.
      - destruct (x <? lowest)%float eqn:L.
        + repeat split; auto using ltb_leb, leb_refl.
        + repeat split; auto using ltb_false_leb, leb_refl. }
    destruct H2 as (N2 & E2 & L2 & X2).
    destruct (IH l2 N2 Hrest) as (R1 & R2 & R3).
    repeat split.
    + destruct R1 as [R1|R1]; [|right; right; exact R1].
      rewrite R1. destruct E2 as [->| ->]; [left|right; left]; reflexivity.
    + eapply leb_trans; eassumption.
    + constructor; [eapply leb_trans; eassumption|exact R3].
Qed.

Lemma leb_neg_infinity (x : number) :
  (x <=? neg_infinity)%float = true -> x = neg_infinity.
Proof.
  rewrite leb_spec. intros H. apply Prim2SF_inj.
  change (Prim2SF neg_infinity) with (S754_infinity true) in *.
  destruct (Prim2SF x) as [[]|[]| |[] m e]; cbv in H; congruence.
Qed.

Lemma infinity_leb (x : number) :
  (infinity <=? x)%float = true -> x = infinity.
Proof.
  rewrite leb_spec. intros H. apply Prim2SF_inj.
  change (Prim2SF infinity) with (S754_infinity false) in *.
  destruct (Prim2SF x) as [[]|[]| |[] m e]; cbv in H; congruence.
Qed.

(** Of at least one number, none of them [NaN], [Math.max] returns one that
    no other exceeds. *)
Lemma Math_max_spec (args : list number) :
  args <> [] -> Forall (fun x => is_nan x = false) args ->
  In (Math_max args) args /\
  Forall (fun x => (x <=? Math_max args)%float = true) args.
Proof.
  intros Hne Hargs.
  destruct (Math_max_from_spec args neg_infinity eq_refl Hargs) as (R1 & _ & R3).
  fold (Math_max args) in R1, R3. split; [|exact R3].
  destruct R1 as [R1|R1]; [|exact R1].
  destruct args as [|x rest]; [congruence|].
  inversion R3 as [|? ? Hx _]; subst. rewrite R1 in Hx.
  apply leb_neg_infinity in Hx. rewrite R1, <- Hx. left. reflexivity.
Qed.

Lemma Math_min_spec (args : list number) :
  args <> [] -> Forall (fun x => is_nan x = false) args ->
  In (Math_min args) args /\
  Forall (fun x => (Math_min args <=? x)%float = true) args.
Proof.
  intros Hne Hargs.
  destruct (Math_min_from_spec args infinity eq_refl Hargs) as (R1 & _ & R3).
  fold (Math_min args) in R1, R3. split; [|exact R3].
  destruct R1 as [R1|R1]; [|exact R1].
  destruct args as [|x rest]; [congruence|].
  inversion R3 as [|? ? Hx _]; subst. rewrite R1 in Hx.
  apply infinity_leb in Hx. rewrite R1, <- Hx. left. reflexivity.
Qed.

Lemma or_number_not_nan (x : option number) : is_nan (or_number x zero) = false.
Proof.
  destruct x as [v|]; simpl; [|reflexivity].
  destruct (truthy v) eqn:T; [apply truthy_not_nan, T|reflexivity].
Qed.

Lemma elevations_not_nan (points : list Point) :
  Forall (fun x => is_nan x = false) (elevations points).
Proof.
  unfold elevations. induction points as [|p rest IH]; simpl.
  - constructor.
  - destruct (ele p) as [v|]; simpl; [|exact IH].
    constructor; [apply (or_number_not_nan (Some v))|exact IH].
Qed.

Lemma elevations_nil_iff (points : list Point) :
  elevations points = [] <-> existsb hasElevation points = false.
Proof.
  unfold elevations, hasElevation. induction points as [|p rest IH]; simpl.
  - tauto.
  - destruct (ele p); simpl; [split; discriminate|exact IH].
Qed.

Lemma or_null_if_zero (x : number) :
  is_nan x = false -> or_null x = if is_zero x then None else Some x.
Proof.
  intros N. unfold or_null, truthy. rewrite N, orb_false_r.
  destruct (is_zero x); reflexivity.
Qed.

(** [calcElevationStats] returns the five statistics when the engine takes
    the elevations as arguments, and throws otherwise. *)
Lemma calcElevationStats_unfold (h : Host) (points : list Point) (dp dm : number) :
  elevationDeltas points = Ok (dp, dm) ->
  calcElevationStats h points =
  if argumentsFit h points
  then Ok {| max := or_null (Math_max (elevations points));
             min := or_null (Math_min (elevations points));
             pos := or_null (Math_abs dp);
             neg := or_null (Math_abs dm);
             avg := or_null (meanOf (elevations points)) |}
  else Throw RangeError.
Proof.
  intros H. unfold calcElevationStats.
  rewrite H, elevationList_spec. cbn [bind].
  unfold Function_apply, argumentsFit. rewrite N.ltb_antisym.
  destruct (N.of_nat (List.length (elevations points)) <=? maxArguments h)%N;
    reflexivity.
Qed.

Lemma calcElevationStats_Ok (h : Host) (points : list Point) (dp dm : number)
    (stats : ElevationStats) :
  elevationDeltas points = Ok (dp, dm) ->
  calcElevationStats h points = Ok stats ->
  argumentsFit h points = true /\
  stats = {| max := or_null (Math_max (elevations points));
             min := or_null (Math_min (elevations points));
             pos := or_null (Math_abs dp);
             neg := or_null (Math_abs dm);
             avg := or_null (meanOf (elevations points)) |}.
Proof.
  intros Hd. rewrite (calcElevationStats_unfold h _ _ _ Hd).
  destruct (argumentsFit h points); [|discriminate].
  intros H. inversion H. split; reflexivity.
Qed.

Lemma abs_null_iff_zero (x : number) :
  is_nan x = false -> (or_null (Math_abs x) = None <-> is_zero x = true).
Proof.
  intros N. rewrite or_null_None, truthy_abs. unfold truthy.
  rewrite N, orb_false_r. destruct (is_zero x); simpl; split; congruence.
Qed.

(** For an empty elevation list the three statistics come out differently:
    [Math.max()] is [-Infinity] and [Math.min()] is [Infinity], both truthy,
    while [0 / 0] is [NaN]. *)
Example calcElevationStats_no_points (h : Host) :
  calcElevationStats h [] =
  Ok {| max := Some neg_infinity; min := Some infinity;
        pos := None; neg := None; avg := None |}.
Proof.
  rewrite (calcElevationStats_unfold h [] zero zero eq_refl).
  unfold argumentsFit. cbn [elevations flat_map List.length N.of_nat].
  rewrite (proj2 (N.leb_le 0 (maxArguments h)) (N.le_0_l _)). reflexivity.
Qed.

(** With room for two arguments only, three elevations are too many. *)
Example calcElevationStats_too_many :
  calcElevationStats (withMaxArguments 2 (sampleHost emptyDocument)) upAndDown
  = Throw RangeError.
Proof. reflexivity. Qed.

(** C1, as stated, fails: a sequence whose only point has elevation 0 has a
    non-null elevation, and [max], [min] and [avg] are null all the same. *)
Lemma calcElevationStats_sea_level :
  existsb hasElevation seaLevel = true /\
  calcElevationStats (sampleHost emptyDocument) seaLevel =
  Ok {| max := None; min := None; pos := None; neg := None; avg := None |}.
Proof. split; reflexivity. Qed.

(** C1 (amended): [calcElevationStats] returns when the engine takes the
    non-null elevations as the arguments of one call, and throws a
    [RangeError] when they are too many for that.  Whenever it returns:
    [pos] (resp. [neg]) is null iff the positive-only (resp. negative-only)
    delta sum is exactly zero.  [avg] is null iff the computed mean is zero
    or [NaN], which is the case whenever no point has a non-null elevation.
    When some point has a non-null elevation, [max] (resp. [min]) is the
    largest (resp. smallest) of the non-null elevations, but null when that
    value is zero. *)
Theorem calcElevationStats_null_fields (h : Host) (points : list Point) :
  exists dp dm,
    elevationDeltas points = Ok (dp, dm) /\
    (argumentsFit h points = true ->
       exists stats, calcElevationStats h points = Ok stats) /\
    (argumentsFit h points = false ->
       calcElevationStats h points = Throw RangeError) /\
    forall stats,
      calcElevationStats h points = Ok stats ->
      (pos stats = None <-> is_zero dp = true) /\
      (neg stats = None <-> is_zero dm = true) /\
      (avg stats = None <-> truthy (meanOf (elevations points)) = false) /\
      (existsb hasElevation points = false -> avg stats = None) /\
      (existsb hasElevation points = true ->
         exists hi lo,
           In hi (elevations points) /\ In lo (elevations points) /\
           Forall (fun e => (e <=? hi)%float = true) (elevations points) /\
           Forall (fun e => (lo <=? e)%float = true) (elevations points) /\
           max stats = (if is_zero hi then None else Some hi) /\
           min stats = (if is_zero lo then None else Some lo)).
Proof.
  destruct (elevationDeltas_signs points) as (dp & dm & Hd & Hdp & Hdm).
  exists dp, dm. split; [exact Hd|].
  pose proof (calcElevationStats_unfold h _ _ _ Hd) as Hu.
  split; [intros Hfit; rewrite Hfit in Hu; eexists; exact Hu|].
  split; [intros Hfit; rewrite Hfit in Hu; exact Hu|].
  intros stats Hs.
  destruct (calcElevationStats_Ok h _ _ _ _ Hd Hs) as [_ ->].
  cbn [pos neg avg max min].
  split; [apply abs_null_iff_zero; apply (leb_not_nan _ _ Hdp)|].
  split; [apply abs_null_iff_zero; apply (leb_not_nan _ _ Hdm)|].
  split; [apply or_null_None|].
  split.
  - intros Hno. apply elevations_nil_iff in Hno. rewrite Hno. reflexivity.
  - intros Hsome.
    assert (Hne : elevations points <> []).
    { intros E. apply elevations_nil_iff in E. congruence. }
    pose proof (elevations_not_nan points) as Hnan.
    destruct (Math_max_spec _ Hne Hnan) as [Hin Hmax].
    destruct (Math_min_spec _ Hne Hnan) as [Hin' Hmin].
    exists (Math_max (elevations points)), (Math_min (elevations points)).
    repeat split; auto.
    + apply or_null_if_zero. rewrite Forall_forall in Hnan. auto.
    + apply or_null_if_zero. rewrite Forall_forall in Hnan. auto.
Qed.

(** C10: whatever the points, a non-null [pos] and a non-null [neg] that
    [calcElevationStats] returns are strictly positive numbers; and it
    returns whenever the engine takes the elevations as arguments. *)
Theorem calcElevationStats_pos_neg_positive (h : Host) (points : list Point) :
  (forall stats,
     calcElevationStats h points = Ok stats ->
     (forall v, pos stats = Some v -> (0 <? v)%float = true) /\
     (forall v, neg stats = Some v -> (0 <? v)%float = true)) /\
  (argumentsFit h points = true ->
     exists stats, calcElevationStats h points = Ok stats).
Proof.
  destruct (elevationDeltas_signs points) as (dp & dm & Hd & _ & _).
  split.
  - intros stats Hs.
    destruct (calcElevationStats_Ok h _ _ _ _ Hd Hs) as [_ ->].
    cbn [pos neg]. split; intros v Hv; apply or_null_Some in Hv as [-> T];
      apply truthy_abs_positive, T.
  - intros Hfit. pose proof (calcElevationStats_unfold h _ _ _ Hd) as Hu.
    rewrite Hfit in Hu. eexists. exact Hu.
Qed.

(** The gain and the loss of [upAndDown], both reported as positive. *)
Example calcElevationStats_up_and_down :
  calcElevationStats (sampleHost emptyDocument) upAndDown =
  Ok {| max := Some 3%float; min := Some 1%float;
        pos := Some 2%float; neg := Some 1%float; avg := Some 2%float |}.
Proof. reflexivity. Qed.

(** ** [calcRouteDistance] *)

Lemma store_at_length {A : Type} (l : list (option A)) (v : A) :
  store_at l (List.length l) v = l ++ [Some v].
Proof. induction l as [|x l IH]; simpl; [reflexivity|]. rewrite IH. reflexivity. Qed.

(** A store at the length of a dense array appends. *)
Lemma array_set_append (cs : list number) (i : Z) (v : number) :
  i = Z.of_nat (List.length cs) ->
  array_set (mkJSArray (map Some cs) []) i v = mkJSArray (map Some (cs ++ [v])) [].
Proof.
  intros ->. unfold array_set.
  destruct (Z.ltb_spec (Z.of_nat (List.length cs)) 0); [lia|].
  cbn [items props]. rewrite Nat2Z.id.
  rewrite <- (length_map Some cs), store_at_length, map_app. reflexivity.
Qed.

Lemma nonDecreasing_snoc (cs : list number) (x y : number) :
  nonDecreasing cs ->
  (cs = [] \/ nth_error cs (Nat.pred (List.length cs)) = Some x) ->
  (x <=? y)%float = true ->
  nonDecreasing (cs ++ [y]).
Proof.
  intros Hcs Hlast Hxy i a b Ha Hb.
  destruct (Nat.lt_ge_cases (Datatypes.S i) (List.length cs)) as [Hlt|Hge].
  - rewrite nth_error_app1 in Ha, Hb by lia. eapply Hcs; eassumption.
  - assert (Hlen : (Datatypes.S i <= List.length cs)%nat).
    { assert (nth_error (cs ++ [y]) (Datatypes.S i) <> None) by congruence.
      apply nth_error_Some in H. rewrite length_app in H. simpl in H. lia. }
    assert (Hi : Datatypes.S i = List.length cs) by lia.
    rewrite nth_error_app1 in Ha by lia.
    rewrite nth_error_app2, Hi, Nat.sub_diag in Hb by lia. simpl in Hb.
    inversion Hb; subst b.
    destruct Hlast as [->|Hlast]; [simpl in Hi; lia|].
    rewrite <- Hi in Hlast. simpl in Hlast. congruence.
Qed.

Lemma nth_error_last_snoc {A : Type} (l : list A) (x : A) :
  nth_error (l ++ [x]) (Nat.pred (List.length (l ++ [x]))) = Some x.
Proof.
  rewrite length_app. simpl. rewrite Nat.add_1_r. simpl.
  rewrite nth_error_app2, Nat.sub_diag by lia. reflexivity.
Qed.

(** The state of the loop of [calcRouteDistance] before iteration [i]. *)
Lemma calcRouteDistance_loop (h : Host) (points : list Point) :
  let len := Z.of_nat (List.length points) in
  exists totalDistance cs,
    for_lt 0 (len - 1)
      (fun i '(totalDistance, cumulDistance) =>
         p <- index points i ;;
         q <- index points (i + 1) ;;
         let totalDistance :=
           (totalDistance + calcDistanceBetween h p q)%float in
         Ok (totalDistance, array_set cumulDistance i totalDistance))
      (zero, empty_array)
    = Ok (totalDistance, mkJSArray (map Some cs) []) /\
    Z.of_nat (List.length cs) = Z.max 0 (len - 1) /\
    (cs = [] -> totalDistance = zero) /\
    (cs = [] \/ nth_error cs (Nat.pred (List.length cs)) = Some totalDistance) /\
    (segmentsNonNegative h points ->
       (0 <=? totalDistance)%float = true /\ nonDecreasing cs).
Proof.
  intros len.
  destruct (for_lt_inv
    (fun (i : Z) (st : number * JSArray number) =>
       exists cs,
         snd st = mkJSArray (map Some cs) [] /\
         Z.of_nat (List.length cs) = i /\
         (cs = [] -> fst st = zero) /\
         (cs = [] \/ nth_error cs (Nat.pred (List.length cs)) = Some (fst st)) /\
         (segmentsNonNegative h points ->
            (0 <=? fst st)%float = true /\ nonDecreasing cs))
    (fun i '(totalDistance, cumulDistance) =>
       p <- index points i ;;
       q <- index points (i + 1) ;;
       let totalDistance :=
         (totalDistance + calcDistanceBetween h p q)%float in
       Ok (totalDistance, array_set cumulDistance i totalDistance))
    0 (len - 1) (zero, empty_array))
    as ([total arr] & Hst & cs & Harr & Hlen & Hnil & Hlast & Hord).
  - exists []. cbn [fst snd]. repeat split; auto.
    intros i x y Hx. destruct i; discriminate.
  - intros j [total arr] Hj (cs & Harr & Hlen & Hnil & Hlast & Hord).
    cbn [fst snd] in *.
    destruct (index_in_range points j ltac:(lia)) as (p & -> & Hp).
    destruct (index_in_range points (j + 1) ltac:(lia)) as (q & -> & Hq).
    replace (Z.to_nat (j + 1)) with (Datatypes.S (Z.to_nat j)) in Hq by lia.
    cbn [bind]. eexists. split; [reflexivity|].
    exists (cs ++ [(total + calcDistanceBetween h p q)%float]). cbn [fst snd].
    split; [rewrite Harr; apply array_set_append; lia|].
    split; [rewrite length_app; simpl; lia|].
    split; [intros E; destruct cs; discriminate|].
    split; [right; apply nth_error_last_snoc|].
    intros Hseg. destruct (Hord Hseg) as [Hpos Hnd].
    pose proof (Hseg _ _ _ Hp Hq) as Hd.
    split; [apply add_nonneg; assumption|].
    eapply nonDecreasing_snoc; [exact Hnd|exact Hlast|].
    apply add_nonneg_mono; assumption.
  - cbn [fst snd] in *. subst arr. exists total, cs.
    split; [exact Hst|]. repeat split; auto; apply Hord; assumption.
Qed.

(** [NaN] coordinates give a [NaN] distance on every host that returns
    [NaN] where ECMA-262 says so. *)
Lemma calcDistanceBetween_nan (h : Host) (p q : Point) :
  Math_sin h nan = nan ->
  (forall x, Math_atan2 h nan x = nan) ->
  lat p = nan ->
  calcDistanceBetween h p q = nan.
Proof.
  intros Hsin Hatan Hlat. unfold calcDistanceBetween. rewrite Hlat.
  assert (E : forall x : number, (((x - nan) * (Math_PI / 180)) / 2)%float = nan).
  { intros x. apply Prim2SF_inj.
    rewrite div_spec, mul_spec, sub_spec.
    change (Prim2SF nan) with S754_nan.
    destruct (Prim2SF x); reflexivity. }
  rewrite E, Hsin.
  assert (A : forall x : number, (nan * nan + x)%float = nan).
  { intros x. apply Prim2SF_inj. rewrite add_spec.
    change (Prim2SF (nan * nan)%float) with S754_nan. reflexivity. }
  rewrite A. change (Math_sqrt nan) with nan. rewrite Hatan. reflexivity.
Qed.

(** C2, as stated, fails: with a [NaN] latitude both running totals are
    [NaN], and [NaN <= NaN] is false. *)
Lemma calcRouteDistance_nan_latitude :
  calcRouteDistance (sampleHost emptyDocument) nanLatitude =
  Ok (mkRouteDistance nan (mkJSArray [Some nan; Some nan] [])) /\
  (nan <=? nan)%float = false.
Proof. split; reflexivity. Qed.

(** C2 (amended): for every point sequence of length [n], [calcRouteDistance]
    returns a [cumul] array of [n] entries without holes, whose last entry
    is [total] when [n >= 1]; for [n <= 1] the total is 0, and [cumul] is
    [[0]] when [n = 1] and empty when [n = 0], where the store at index
    [-1] leaves the property ["-1"] on the array object.  [cumul] is
    non-decreasing provided the distance of every two consecutive points is
    a non-negative number (which excludes [NaN]). *)
Theorem calcRouteDistance_cumul (h : Host) (points : list Point) :
  exists r cs,
    calcRouteDistance h points = Ok r /\
    array_length (cumul r) = Z.of_nat (List.length points) /\
    items (cumul r) = map Some cs /\
    List.length cs = List.length points /\
    (points <> [] ->
       nth_error cs (Nat.pred (List.length points)) = Some (total r)) /\
    ((List.length points <= 1)%nat -> total r = zero) /\
    (List.length points = 1%nat -> cs = [zero]) /\
    (points = [] -> cs = [] /\ props (cumul r) = [(-1, zero)]) /\
    (points <> [] -> props (cumul r) = []) /\
    (segmentsNonNegative h points -> nonDecreasing cs).
Proof.
  destruct (calcRouteDistance_loop h points)
    as (tot & cs & Hloop & Hlen & Hnil & Hlast & Hord).
  cbv zeta in Hloop, Hlen.
  unfold calcRouteDistance. rewrite Hloop. cbn [bind].
  destruct points as [|p0 rest].
  - (* n = 0: the store at index -1 leaves the elements alone *)
    simpl in Hlen. destruct cs; [|simpl in Hlen; lia].
    rewrite (Hnil eq_refl).
    eexists. exists []. split; [reflexivity|].
    unfold array_length. cbn [cumul total items].
    split; [reflexivity|].
    split; [reflexivity|]. split; [reflexivity|].
    split; [intros E; congruence|].
    split; [intros _; reflexivity|].
    split; [intros E; discriminate|].
    split; [intros _; split; reflexivity|].
    split; [intros E; congruence|].
    intros _ i x y Hx. destruct i; discriminate.
  - assert (Hn : (1 <= List.length (p0 :: rest))%nat) by (simpl; lia).
    assert (Hne : p0 :: rest <> []) by discriminate.
    remember (p0 :: rest) as points eqn:Epts.
    assert (Hlen' : Z.of_nat (List.length points) - 1 = Z.of_nat (List.length cs)) by lia.
    rewrite (array_set_append cs _ tot Hlen').
    eexists. exists (cs ++ [tot]). split; [reflexivity|].
    unfold array_length. cbn [cumul total items].
    assert (Hlen'' : List.length (cs ++ [tot]) = List.length points).
    { rewrite length_app. cbn [List.length]. lia. }
    split; [rewrite length_map, Hlen''; reflexivity|].
    split; [reflexivity|].
    split; [exact Hlen''|].
    split; [intros _; rewrite <- Hlen''; apply nth_error_last_snoc|].
    split.
    { intros Hle. apply Hnil. destruct cs; [reflexivity|].
      cbn [List.length] in Hlen'. lia. }
    split.
    { intros H1. destruct cs; [|cbn [List.length] in Hlen'; lia].
      rewrite (Hnil eq_refl). reflexivity. }
    split; [intros E; congruence|].
    split; [intros _; reflexivity|].
    intros Hseg. destruct (Hord Hseg) as [Hpos Hnd].
    eapply nonDecreasing_snoc; [exact Hnd|exact Hlast|].
    apply leb_refl. apply (leb_not_nan _ _ Hpos).
Qed.

(** The proviso of the order property holds of the sample walk. *)
Example segmentsNonNegative_there_and_back :
  segmentsNonNegative (sampleHost emptyDocument) [harbour; bridge; harbour].
Proof.
  intros i p q Hp Hq.
  destruct i as [|[|i]]; cbn in Hp, Hq.
  - inversion Hp; inversion Hq; subst. reflexivity.
  - inversion Hp; inversion Hq; subst. reflexivity.
  - destruct i; discriminate Hq.
Qed.

(** There and back again on the sample host: three running totals, the last
    one repeated. *)
Example calcRouteDistance_there_and_back :
  calcRouteDistance (sampleHost emptyDocument) [harbour; bridge; harbour] =
  Ok (mkRouteDistance 0x1.e5a013c2c2428p+15%float
        (mkJSArray [Some 0x1.e5a013c2c2428p+14%float;
                    Some 0x1.e5a013c2c2428p+15%float;
                    Some 0x1.e5a013c2c2428p+15%float] [])).
Proof. reflexivity. Qed.

(** ** [calcDistanceBetween] *)

(** C9: the distance is a function of the two latitudes and the two
    longitudes: points that agree on [lat] and [lon] give the same distance,
    whatever their other fields. *)
Theorem calcDistanceBetween_lat_lon_only (h : Host) (p1 p2 q1 q2 : Point) :
  lat p1 = lat q1 -> lon p1 = lon q1 ->
  lat p2 = lat q2 -> lon p2 = lon q2 ->
  calcDistanceBetween h p1 p2 = calcDistanceBetween h q1 q2.
Proof.
  intros Hlat1 Hlon1 Hlat2 Hlon2. unfold calcDistanceBetween.
  rewrite Hlat1, Hlon1, Hlat2, Hlon2. reflexivity.
Qed.

Lemma calcDistanceBetween_lat_lon_only_witness :
  calcDistanceBetween (sampleHost emptyDocument) harbour bridge =
  calcDistanceBetween (sampleHost emptyDocument)
    (samplePoint 47.25%float (-1.5)%float None)
    (samplePoint 47.125%float (-1.75)%float (Some 4%float)).
Proof.
  apply (calcDistanceBetween_lat_lon_only (sampleHost emptyDocument)
           harbour bridge
           (samplePoint 47.25%float (-1.5)%float None)
           (samplePoint 47.125%float (-1.75)%float (Some 4%float)));
    reflexivity.
Defined.

Local Open Scope float_scope.










Local Close Scope float_scope.




(** ** [queryDirectSelector] *)

Lemma nth_error_0 {A : Type} (l : list A) : nth_error l 0 = hd_error l.
Proof. destruct l; reflexivity. Qed.

(** The loop over the direct children keeps the last child with the tag
    name, or the initial value when there is none. *)
Lemma last_match_loop (needle : string) (elems : list Node) (init : option Node) :
  for_of elems
    (fun elem finalElem => if hasTagName needle elem then Some elem else finalElem)
    init
  = match hd_error (rev (filter (hasTagName needle) elems)) with
    | Some c => Some c
    | None => init
    end.
Proof.
  unfold for_of. induction elems as [|x l IH] using rev_ind.
  - reflexivity.
  - rewrite fold_left_app, filter_app, rev_app_distr. cbn [fold_left filter].
    destruct (hasTagName needle x); cbn [rev app hd_error]; [reflexivity|exact IH].
Qed.

(** C6, as stated, fails: with two matching descendants of which none is an
    immediate child, the search among the immediate children finds nothing,
    and the method returns the first matching descendant. *)
Lemma queryDirectSelector_nested_only :
  List.length (querySelectorAll (sampleHost emptyDocument) nestedTypes "type")
  = 2%nat /\
  lastDirectChild nestedTypes "type" = None /\
  queryDirectSelector (sampleHost emptyDocument) nestedTypes "type"
  = Some (element "type" [] [TextNode "Web"]).
Proof. repeat split; reflexivity. Qed.

(** With prefixed elements, where the selector matches by local name it
    matches both children, their tag names ([g:type]) are not the needle,
    and the first one is returned. *)
Example queryDirectSelector_prefixed :
  List.length (querySelectorAll (sampleHost emptyDocument) prefixedTypes "type")
  = 2%nat /\
  lastDirectChild prefixedTypes "type" = None /\
  queryDirectSelector (sampleHost emptyDocument) prefixedTypes "type"
  = Some (ElementNode gpxNamespace "g:type" [] [TextNode "road"]).
Proof. repeat split; reflexivity. Qed.

(** Under jsdom the selector [type] matches no prefixed element, and the
    method returns nothing. *)
Example queryDirectSelector_prefixed_jsdom :
  querySelectorAll (jsdomHost emptyDocument) prefixedTypes "type" = [] /\
  queryDirectSelector (jsdomHost emptyDocument) prefixedTypes "type" = None.
Proof. split; reflexivity. Qed.

(** C6 (amended): when more than one descendant matches the tag name (as a
    selector), [queryDirectSelector] returns the last immediate child whose
    [tagName] is that name if there is one, and the first matching
    descendant otherwise; when at most one descendant matches, it returns
    that descendant, or none. *)
Theorem queryDirectSelector_spec (h : Host) (parent : Node) (needle : string) :
  let matched := querySelectorAll h parent needle in
  ((1 < List.length matched)%nat ->
     queryDirectSelector h parent needle =
     match lastDirectChild parent needle with
     | Some child => Some child
     | None => hd_error matched
     end) /\
  ((List.length matched <= 1)%nat ->
     queryDirectSelector h parent needle = hd_error matched /\
     (forall n, In n matched -> hd_error matched = Some n)).
Proof.
  cbv zeta. unfold queryDirectSelector, lastDirectChild.
  rewrite nth_error_0. split; intros Hlen.
  - apply Nat.ltb_lt in Hlen. rewrite Hlen. apply last_match_loop.
  - assert (Hlt : (1 <? List.length (querySelectorAll h parent needle))%nat = false)
      by (apply Nat.ltb_ge; exact Hlen).
    rewrite Hlt. split; [reflexivity|].
    destruct (querySelectorAll h parent needle) as [|a [|b l]]; simpl in *.
    + tauto.
    + intros n [->|[]]. reflexivity.
    + lia.
Qed.

(** ** The point parser *)

(** A text whose first character cannot start a number is not a number. *)
Lemma parseFloat_not_a_number (c : ascii) (r : string) :
  startsNumber c = false -> parseFloat (String c r) = nan.
Proof.
  intros H.
  destruct c as [[] [] [] [] [] [] [] []];
    first [discriminate H | reflexivity].
Qed.

Lemma nullIfNaN_not_nan (x v : number) : nullIfNaN x = Some v -> is_nan v = false.
Proof.
  unfold nullIfNaN, isNaN. destruct (is_nan x) eqn:N; intros H; inversion H.
  subst. exact N.
Qed.

(** What [parseFloat(text || "0")] followed by the [isNaN] test makes of the
    text of the [ele] child. *)
Lemma ele_of_text (text : option string) :
  nullIfNaN (parseFloat (or_string text "0")) =
  match text with
  | None => Some zero
  | Some EmptyString => Some zero
  | Some (String c r) =>
      if is_nan (parseFloat (String c r)) then None
      else Some (parseFloat (String c r))
  end.
Proof. destruct text as [[|c r]|]; reflexivity. Qed.

(** C3, as stated, fails: a waypoint without an [ele] child gets elevation 0,
    not null, and so does one whose [ele] text is ["0.0"], which is not the
    text ["0"]. *)
Lemma parseWaypoint_ele_defaults :
  getElementValue (sampleHost emptyDocument) waypointWithoutEle "ele" = None /\
  ele (parseWaypoint (sampleHost emptyDocument) waypointWithoutEle) = Some zero /\
  getElementValue (sampleHost emptyDocument) waypointEleZeroPointZero "ele"
  = Some "0.0"%string /\
  ele (parseWaypoint (sampleHost emptyDocument) waypointEleZeroPointZero)
  = Some zero.
Proof. repeat split; reflexivity. Qed.

(** C3 (amended): for every waypoint, route point and track point, with
    [text] the content of the [ele] child: [ele] is 0 when the child is
    absent or its text is empty; [ele] is null when the text is non-empty and
    [parseFloat] finds no number at its start; otherwise [ele] is
    [parseFloat(text)]; in particular [ele] is null when the text starts
    with a character that cannot start a number.  [ele] is never [NaN], and
    it is zero only when the child is absent or empty or its text parses to
    zero. *)
Theorem parsed_ele (h : Host) (node : Node) :
  let text := getElementValue h node "ele" in
  ele (parseRoutePoint h node) = ele (parseWaypoint h node) /\
  ele (parseTrackPoint h node) = ele (parseWaypoint h node) /\
  ele (parseWaypoint h node) =
    match text with
    | None => Some zero
    | Some EmptyString => Some zero
    | Some (String c r) =>
        if is_nan (parseFloat (String c r)) then None
        else Some (parseFloat (String c r))
    end /\
  (forall c r, text = Some (String c r) -> startsNumber c = false ->
     ele (parseWaypoint h node) = None) /\
  (forall v, ele (parseWaypoint h node) = Some v -> is_nan v = false) /\
  (forall v, ele (parseWaypoint h node) = Some v -> is_zero v = true ->
     text = None \/ text = Some EmptyString \/
     exists t, text = Some t /\ is_zero (parseFloat t) = true).
Proof.
  cbv zeta. unfold parseTrackPoint, parseRoutePoint, parseWaypoint. cbn [ele].
  split; [reflexivity|]. split; [reflexivity|].
  split; [apply ele_of_text|].
  split.
  { intros c r Ht Hc. rewrite ele_of_text, Ht.
    rewrite (parseFloat_not_a_number c r Hc). reflexivity. }
  split; [intros v; apply nullIfNaN_not_nan|].
  intros v Hv Hz. rewrite ele_of_text in Hv.
  destruct (getElementValue h node "ele") as [[|c r]|]; auto.
  right. right. exists (String c r). split; [reflexivity|].
  destruct (is_nan (parseFloat (String c r))); inversion Hv. subst. exact Hz.
Qed.

(** C4, as stated, fails: an unparsable [lat] attribute of a route point
    comes out as [NaN]. *)
Lemma parseRoutePoint_bad_lat :
  getAttribute routePointBadLat "lat" = Some "abc"%string /\
  lat (parseRoutePoint (sampleHost emptyDocument) routePointBadLat) = nan /\
  isNaN (lat (parseTrackPoint (sampleHost emptyDocument) routePointBadLat)) = true.
Proof. repeat split; reflexivity. Qed.

Lemma coordinate_of_attribute (attr : option string) :
  parseFloat (or_string attr "0") =
  match attr with
  | None => zero
  | Some EmptyString => zero
  | Some (String c r) => parseFloat (String c r)
  end.
Proof. destruct attr as [[|c r]|]; reflexivity. Qed.

(** C4 (amended): for every route point and track point, a missing or empty
    [lat] or [lon] attribute yields 0; any other attribute text yields
    [parseFloat] of that text, which is [NaN] when the text starts with a
    character that cannot start a number. *)
Theorem parsed_lat_lon (h : Host) (node : Node) :
  lat (parseTrackPoint h node) = lat (parseRoutePoint h node) /\
  lon (parseTrackPoint h node) = lon (parseRoutePoint h node) /\
  lat (parseRoutePoint h node) =
    match getAttribute node "lat" with
    | None => zero
    | Some EmptyString => zero
    | Some (String c r) => parseFloat (String c r)
    end /\
  lon (parseRoutePoint h node) =
    match getAttribute node "lon" with
    | None => zero
    | Some EmptyString => zero
    | Some (String c r) => parseFloat (String c r)
    end /\
  (forall c r, getAttribute node "lat" = Some (String c r) ->
     startsNumber c = false -> isNaN (lat (parseRoutePoint h node)) = true) /\
  (forall c r, getAttribute node "lon" = Some (String c r) ->
     startsNumber c = false -> isNaN (lon (parseRoutePoint h node)) = true).
Proof.
  unfold parseTrackPoint, parseRoutePoint. cbn [lat lon].
  split; [reflexivity|]. split; [reflexivity|].
  split; [apply coordinate_of_attribute|].
  split; [apply coordinate_of_attribute|].
  split; intros c r Ha Hc;
    rewrite coordinate_of_attribute, Ha, (parseFloat_not_a_number c r Hc);
    reflexivity.
Qed.

(** ** The constructor *)

Lemma calcRouteDistance_returns (h : Host) (points : list Point) :
  exists r, calcRouteDistance h points = Ok r.
Proof.
  destruct (calcRouteDistance_loop h points) as (tot & cs & Hloop & _).
  cbv zeta in Hloop. unfold calcRouteDistance. rewrite Hloop.
  eexists. reflexivity.
Qed.

Lemma calcElevationStats_returns (h : Host) (points : list Point) :
  argumentsFit h points = true ->
  exists stats, calcElevationStats h points = Ok stats.
Proof.
  intros Hfit. destruct (elevationDeltas_signs points) as (dp & dm & Hd & _).
  pose proof (calcElevationStats_unfold h _ _ _ Hd) as Hu.
  rewrite Hfit in Hu. eexists. exact Hu.
Qed.

Lemma calcElevationStats_throws (h : Host) (points : list Point) :
  argumentsFit h points = false ->
  calcElevationStats h points = Throw RangeError.
Proof.
  intros Hfit. destruct (elevationDeltas_signs points) as (dp & dm & Hd & _).
  pose proof (calcElevationStats_unfold h _ _ _ Hd) as Hu.
  rewrite Hfit in Hu. exact Hu.
Qed.

(** [calcSlope] never reads outside [points], and yields one slope for each
    two consecutive points. *)
Lemma calcSlope_returns (points : list Point) (cumul : JSArray number) :
  exists slopes,
    calcSlope points cumul = Ok slopes /\
    Z.of_nat (List.length slopes) = Z.max 0 (Z.of_nat (List.length points) - 1).
Proof.
  unfold calcSlope.
  set (len := Z.of_nat (List.length points)).
  destruct (for_lt_inv
    (fun (i : Z) (slopes : list number) => Z.of_nat (List.length slopes) = i)
    (fun i slopes =>
       point <- index points i ;;
       nextPoint <- index points (i + 1) ;;
       let elevationDiff :=
         (or_number (ele nextPoint) zero - or_number (ele point) zero)%float in
       let distance :=
         (to_number (array_get cumul (i + 1))
          - to_number (array_get cumul i))%float in
       let slope := ((elevationDiff * 100) / distance)%float in
       Ok (push slopes slope))
    0 (len - 1) []) as (slopes & Hs & Hlen).
  - reflexivity.
  - intros j t Hj Ht.
    destruct (index_in_range points j ltac:(lia)) as (p & -> & _).
    destruct (index_in_range points (j + 1) ltac:(lia)) as (q & -> & _).
    cbn [bind]. eexists. split; [reflexivity|].
    unfold push. rewrite length_app. cbn [List.length]. lia.
  - exists slopes. split; [exact Hs|exact Hlen].
Qed.

(** The body of the route loop returns a route when the engine takes the
    elevations of its points as arguments, and throws otherwise. *)
Lemma parseRoute_cases (h : Host) (pointTag : string) (rte : Node) :
  if argumentsFit h (routePoints h pointTag rte)
  then exists route,
         parseRoute h pointTag rte = Ok route /\
         pointsParsedFrom h pointTag rte route
  else parseRoute h pointTag rte = Throw RangeError.
Proof.
  unfold parseRoute, pointsParsedFrom. rewrite for_of_push. cbn [app].
  change (map (parseRoutePoint h) (querySelectorAll h rte pointTag))
    with (routePoints h pointTag rte).
  set (pts := routePoints h pointTag rte).
  destruct (calcRouteDistance_returns h pts) as (d & ->). cbn [bind].
  destruct (argumentsFit h pts) eqn:Hfit.
  - destruct (calcElevationStats_returns h pts Hfit) as (e & ->). cbn [bind].
    destruct (calcSlope_returns pts (cumul d)) as (sl & -> & _). cbn [bind].
    eexists. split; reflexivity.
  - rewrite (calcElevationStats_throws h pts Hfit). reflexivity.
Qed.

Lemma parseRoute_returns (h : Host) (pointTag : string) (rte : Node) :
  argumentsFit h (routePoints h pointTag rte) = true ->
  exists route,
    parseRoute h pointTag rte = Ok route /\
    pointsParsedFrom h pointTag rte route.
Proof.
  intros Hfit. pose proof (parseRoute_cases h pointTag rte) as H.
  rewrite Hfit in H. exact H.
Qed.

Lemma parseRoute_throws (h : Host) (pointTag : string) (rte : Node) :
  argumentsFit h (routePoints h pointTag rte) = false ->
  parseRoute h pointTag rte = Throw RangeError.
Proof.
  intros Hfit. pose proof (parseRoute_cases h pointTag rte) as H.
  rewrite Hfit in H. exact H.
Qed.

(** A route that was returned has the points of its element, and they were
    few enough. *)
Lemma parseRoute_Ok (h : Host) (pointTag : string) (rte : Node) (route : Route) :
  parseRoute h pointTag rte = Ok route ->
  argumentsFit h (routePoints h pointTag rte) = true /\
  pointsParsedFrom h pointTag rte route.
Proof.
  intros Hr. pose proof (parseRoute_cases h pointTag rte) as H.
  destruct (argumentsFit h (routePoints h pointTag rte)).
  - destruct H as (route' & Hr' & Hp). split; [reflexivity|].
    assert (route' = route) by congruence. subst. exact Hp.
  - congruence.
Qed.

(** A monadic [for ... of] loop whose body pushes one result per element,
    or throws. *)
Lemma for_ofM_push {A B : Type} (ok : A -> bool) (e : JSError)
    (P : A -> B -> Prop) (f : A -> Result B) (xs : list A) :
  (forall x, ok x = true -> exists y, f x = Ok y /\ P x y) ->
  (forall x, ok x = false -> f x = Throw e) ->
  forall acc : list B,
    if forallb ok xs
    then exists ys,
           for_ofM xs (fun x acc => y <- f x ;; Ok (push acc y)) acc
           = Ok (acc ++ ys) /\
           Forall2 P xs ys
    else for_ofM xs (fun x acc => y <- f x ;; Ok (push acc y)) acc = Throw e.
Proof.
  intros Hok Hbad. induction xs as [|x xs IH]; intros acc.
  - cbn [forallb for_ofM]. exists []. rewrite app_nil_r.
    split; [reflexivity|constructor].
  - cbn [forallb for_ofM]. destruct (ok x) eqn:Hx; cbn [andb].
    + destruct (Hok x Hx) as (y & Hy & HP). rewrite Hy. cbn [bind].
      specialize (IH (push acc y)). destruct (forallb ok xs).
      * destruct IH as (ys & Hys & HF). exists (y :: ys). rewrite Hys.
        unfold push. rewrite <- app_assoc. split; [reflexivity|].
        constructor; assumption.
      * exact IH.
    + rewrite (Hbad x Hx). reflexivity.
Qed.

(** What [new GPXParser] does with a document its XML parser accepts: it
    builds the model when every route and track has few enough elevations,
    and throws otherwise. *)
Lemma GPXParser_new_cases (h : Host) (gpxstring : string) (doc : Document) :
  parseXml h gpxstring = Ok doc ->
  if documentFits h doc
  then exists this,
         GPXParser_new h gpxstring = Ok this /\
         xmlSource this = doc /\
         metadata this = parseMetadata h (Document_querySelector h doc "metadata") /\
         waypoints this
         = map (parseWaypoint h) (Document_querySelectorAll h doc "wpt") /\
         Forall2 (pointsParsedFrom h "rtept")
           (Document_querySelectorAll h doc "rte") (routes this) /\
         Forall2 (pointsParsedFrom h "trkpt")
           (Document_querySelectorAll h doc "trk") (tracks this)
  else GPXParser_new h gpxstring = Throw RangeError.
Proof.
  intros Hxml. unfold GPXParser_new, documentFits. rewrite Hxml. cbn [bind].
  rewrite for_of_push. cbn [app].
  pose proof (for_ofM_push
                (fun rte => argumentsFit h (routePoints h "rtept" rte))
                RangeError (pointsParsedFrom h "rtept") (parseRoute h "rtept")
                (Document_querySelectorAll h doc "rte")
                (parseRoute_returns h "rtept") (parseRoute_throws h "rtept") [])
    as Hrs.
  destruct (forallb _ (Document_querySelectorAll h doc "rte"));
    [|rewrite Hrs; reflexivity].
  destruct Hrs as (rs & -> & Hrs). cbn [bind app andb].
  pose proof (for_ofM_push
                (fun trk => argumentsFit h (routePoints h "trkpt" trk))
                RangeError (pointsParsedFrom h "trkpt") (parseRoute h "trkpt")
                (Document_querySelectorAll h doc "trk")
                (parseRoute_returns h "trkpt") (parseRoute_throws h "trkpt") [])
    as Hts.
  destruct (forallb _ (Document_querySelectorAll h doc "trk"));
    [|rewrite Hts; reflexivity].
  destruct Hts as (ts & -> & Hts). cbn [bind app].
  eexists. split; [reflexivity|].
  cbn [xmlSource metadata waypoints routes tracks]. auto.
Qed.

(** The model that [new GPXParser] returned. *)
Lemma GPXParser_new_inv (h : Host) (gpxstring : string) (this : GPXParser) :
  GPXParser_new h gpxstring = Ok this ->
  exists doc,
    parseXml h gpxstring = Ok doc /\
    documentFits h doc = true /\
    xmlSource this = doc /\
    metadata this = parseMetadata h (Document_querySelector h doc "metadata") /\
    waypoints this
    = map (parseWaypoint h) (Document_querySelectorAll h doc "wpt") /\
    Forall2 (pointsParsedFrom h "rtept")
      (Document_querySelectorAll h doc "rte") (routes this) /\
    Forall2 (pointsParsedFrom h "trkpt")
      (Document_querySelectorAll h doc "trk") (tracks this).
Proof.
  intros Hnew.
  destruct (parseXml h gpxstring) as [doc|e] eqn:Hxml.
  2:{ unfold GPXParser_new in Hnew. rewrite Hxml in Hnew. discriminate. }
  pose proof (GPXParser_new_cases h gpxstring doc Hxml) as H.
  exists doc. split; [reflexivity|].
  destruct (documentFits h doc); [|congruence].
  destruct H as (this' & Hnew' & H).
  assert (this' = this) by congruence. subst this'.
  split; [reflexivity|exact H].
Qed.

Lemma parseTime_spec (h : Host) (node : Node) :
  time (parseRoutePoint h node) = time (parseWaypoint h node) /\
  time (parseWaypoint h node) =
    defined match getElementValue h node "time" with
            | Some (String c r) => Some (new_Date h (String c r))
            | _ => None
            end.
Proof.
  unfold parseRoutePoint, parseWaypoint, parseTime. cbn [time].
  split; [reflexivity|].
  destruct (getElementValue h node "time") as [[|c r]|]; reflexivity.
Qed.

Lemma is_nan_eq (x : number) : is_nan x = true -> x = nan.
Proof.
  intros H. apply is_nan_spec in H. apply Prim2SF_inj. rewrite H. reflexivity.
Qed.

(** A text that [Date.parse] does not recognise gives the Invalid Date. *)
Lemma new_Date_invalid (h : Host) (t : string) :
  isNaN (Date_parse h t) = true -> isInvalidDate (new_Date h t) = true.
Proof.
  intros H. unfold new_Date, isInvalidDate. cbn [DateValue].
  rewrite (is_nan_eq _ H). reflexivity.
Qed.

(** What [TimeClip] does to numbers that are time values already, and to
    some that are not. *)
Example TimeClip_samples :
  TimeClip 1580630070000%float = 1580630070000%float /\
  TimeClip 0x1.8p+0%float = 1%float /\
  TimeClip (-0x1p-1)%float = zero /\
  TimeClip 8640000000000001%float = nan /\
  TimeClip infinity = nan.
Proof. repeat split; reflexivity. Qed.

(** C5, as stated, fails: the waypoint's [time] text is no timestamp, and the
    constructor returns a model all the same, the waypoint carrying the
    Invalid Date. *)
Lemma GPXParser_new_bad_time :
  GPXParser_new (sampleHost badTimeDocument) badTimeText =
  Ok {| xmlSource := badTimeDocument;
        metadata := parseMetadata (sampleHost badTimeDocument) None;
        waypoints :=
          [ {| lat := 47.25%float; lon := (-1.5)%float; ele := Some zero;
               name := defined None; sym := defined None;
               cmt := defined None; desc := defined None;
               time := defined (Some (mkDate nan)) |} ];
        routes := [];
        tracks := [] |} /\
  isInvalidDate (mkDate nan) = true.
Proof. split; reflexivity. Qed.

(** C5 (amended): a [time] text that cannot be parsed as a timestamp makes
    nothing fail.  For a document the XML parser accepts, the constructor
    returns a model exactly when every route and every track has few enough
    non-null elevations for one call of [Math.max], and throws a
    [RangeError] otherwise, whatever the [time] texts.  In a model it
    returns every [wpt], [rtept] and [trkpt] is parsed; a point whose
    [time] child has a non-empty text [t] carries [new Date(t)], which is
    the Invalid Date when [Date.parse(t)] is [NaN], and a point whose
    [time] child is absent or empty carries null. *)
Theorem GPXParser_new_unparsable_time (h : Host) (gpxstring : string)
    (doc : Document) :
  parseXml h gpxstring = Ok doc ->
  (documentFits h doc = true ->
     exists this, GPXParser_new h gpxstring = Ok this) /\
  (documentFits h doc = false ->
     GPXParser_new h gpxstring = Throw RangeError) /\
  (forall this,
     GPXParser_new h gpxstring = Ok this ->
     waypoints this
     = map (parseWaypoint h) (Document_querySelectorAll h doc "wpt") /\
     Forall2 (pointsParsedFrom h "rtept")
       (Document_querySelectorAll h doc "rte") (routes this) /\
     Forall2 (pointsParsedFrom h "trkpt")
       (Document_querySelectorAll h doc "trk") (tracks this)) /\
  (forall node : Node,
     time (parseRoutePoint h node) = time (parseWaypoint h node) /\
     time (parseTrackPoint h node) = time (parseWaypoint h node) /\
     time (parseWaypoint h node) =
       defined match getElementValue h node "time" with
               | Some (String c r) => Some (new_Date h (String c r))
               | _ => None
               end) /\
  (forall t, isNaN (Date_parse h t) = true ->
     isInvalidDate (new_Date h t) = true).
Proof.
  intros Hxml.
  pose proof (GPXParser_new_cases h gpxstring doc Hxml) as Hc.
  split.
  { intros Hfit. rewrite Hfit in Hc. destruct Hc as (this & Hnew & _).
    exists this. exact Hnew. }
  split.
  { intros Hfit. rewrite Hfit in Hc. exact Hc. }
  split.
  { intros this Hnew.
    destruct (GPXParser_new_inv h gpxstring this Hnew)
      as (doc' & Hxml' & _ & _ & _ & Hw & Hr & Ht).
    assert (doc' = doc) by congruence. subst doc'. auto. }
  split.
  { intros node. repeat split; apply parseTime_spec. }
  apply new_Date_invalid.
Qed.

Lemma GPXParser_new_unparsable_time_witness :
  exists this,
    GPXParser_new (sampleHost badTimeDocument) badTimeText = Ok this /\
    waypoints this =
      map (parseWaypoint (sampleHost badTimeDocument))
          (Document_querySelectorAll (sampleHost badTimeDocument)
             badTimeDocument "wpt").
Proof.
  destruct (GPXParser_new_unparsable_time (sampleHost badTimeDocument)
              badTimeText badTimeDocument eq_refl)
    as (Hret & _ & Hmodel & _).
  destruct (Hret eq_refl) as (this & Hnew).
  exists this. split; [exact Hnew|apply (Hmodel this Hnew)].
Defined.

(** ** [toGeoJSON] *)

Lemma lineStringFeature_eq (track : Route) :
  lineStringFeature track = lineStringOf track.
Proof.
  unfold lineStringFeature, lineStringOf. rewrite for_of_push. reflexivity.
Qed.

(** The three loops of [toGeoJSON] concatenate three maps, and the top-level
    properties are the metadata, whatever the model. *)
Lemma toGeoJSON_features (this : GPXParser) :
  toGeoJSON this =
  {| geojson_type := "FeatureCollection";
     features := map lineStringOf (tracks this)
                 ++ map lineStringOf (routes this)
                 ++ map pointFeature (waypoints this);
     geojson_properties := metadata this |}.
Proof.
  unfold toGeoJSON. rewrite !for_of_push. cbn [app].
  rewrite !(map_ext _ _ lineStringFeature_eq), app_assoc.
  destruct (metadata this). reflexivity.
Qed.

Lemma eqb_zero_l (v : number) : is_zero v = true -> (zero =? v)%float = true.
Proof.
  intros H. apply is_zero_spec in H as [s Hs].
  rewrite eqb_spec, Hs. reflexivity.
Qed.

Lemma eqb_refl (v : number) : is_nan v = false -> (v =? v)%float = true.
Proof.
  intros H. unfold is_nan in H. apply negb_false_iff in H. exact H.
Qed.

(** The third entry of a coordinate triplet, for an elevation that is not
    [NaN]. *)
Lemma position_spec (pt : Point) :
  (forall v, ele pt = Some v -> is_nan v = false) ->
  fst (fst (position pt)) = lon pt /\
  snd (fst (position pt)) = lat pt /\
  match ele pt with
  | None => snd (position pt) = zero
  | Some v =>
      (snd (position pt) =? v)%float = true /\
      (is_zero v = false -> snd (position pt) = v)
  end.
Proof.
  intros Hnan. unfold position. cbn [fst snd].
  split; [reflexivity|]. split; [reflexivity|].
  destruct (ele pt) as [v|]; [|reflexivity].
  specialize (Hnan v eq_refl). unfold or_number, truthy. rewrite Hnan, orb_false_r.
  destruct (is_zero v) eqn:Z; cbn [negb].
  - split; [apply eqb_zero_l, Z|discriminate].
  - split; [apply eqb_refl, Hnan|reflexivity].
Qed.

Lemma Forall2_In_r {A B : Type} (P : A -> B -> Prop) (xs : list A) (ys : list B) :
  Forall2 P xs ys -> forall y, In y ys -> exists x, In x xs /\ P x y.
Proof.
  induction 1 as [|x y xs ys HP HF IH]; intros z Hz; simpl in Hz.
  - contradiction.
  - destruct Hz as [->|Hz].
    + exists x. split; [left; reflexivity|exact HP].
    + destruct (IH z Hz) as (x' & Hin & HP'). exists x'. split; [right|]; assumption.
Qed.

(** No point of a parsed model has a [NaN] elevation. *)
Lemma parsed_points_ele (h : Host) (gpxstring : string) (this : GPXParser) :
  GPXParser_new h gpxstring = Ok this ->
  forall pt, pointOf this pt -> forall v, ele pt = Some v -> is_nan v = false.
Proof.
  intros Hnew.
  destruct (GPXParser_new_inv h gpxstring this Hnew)
    as (doc & _ & _ & _ & _ & Hw & Hr & Ht).
  assert (Hroute : forall tag (nodes : list Node) (rs : list Route),
            Forall2 (pointsParsedFrom h tag) nodes rs ->
            forall r pt, In r rs -> In pt (points r) ->
            forall v, ele pt = Some v -> is_nan v = false).
  { intros tag nodes rs HF r pt Hin Hpt v Hv.
    destruct (Forall2_In_r _ _ _ HF r Hin) as (rte & _ & Hp).
    unfold pointsParsedFrom in Hp. rewrite Hp in Hpt.
    apply in_map_iff in Hpt as (node & <- & _).
    unfold parseRoutePoint in Hv. cbn [ele] in Hv.
    apply (nullIfNaN_not_nan _ _ Hv). }
  intros pt [Hpt|(r & [Hin|Hin] & Hpt)] v Hv.
  - rewrite Hw in Hpt. apply in_map_iff in Hpt as (node & <- & _).
    unfold parseWaypoint in Hv. cbn [ele] in Hv.
    apply (nullIfNaN_not_nan _ _ Hv).
  - apply (Hroute _ _ _ Hr r pt Hin Hpt v Hv).
  - apply (Hroute _ _ _ Ht r pt Hin Hpt v Hv).
Qed.

(** For an elevation that is not [NaN], [pt.ele || 0] is the described third
    entry. *)
Lemma position_tripletOf (pt : Point) :
  (forall v, ele pt = Some v -> is_nan v = false) ->
  position pt = tripletOf pt.
Proof.
  intros Hnan. unfold position, tripletOf, elevationOrZero.
  destruct (ele pt) as [v|]; [|reflexivity].
  specialize (Hnan v eq_refl). unfold or_number, truthy.
  rewrite Hnan, orb_false_r. destruct (is_zero v); reflexivity.
Qed.

Lemma lineStringOf_lineStringFor (track : Route) :
  (forall pt, In pt (points track) ->
     forall v, ele pt = Some v -> is_nan v = false) ->
  lineStringOf track = lineStringFor track.
Proof.
  intros Hnan. unfold lineStringOf, lineStringFor. f_equal.
  apply map_ext_in. intros pt Hpt. apply position_tripletOf, Hnan, Hpt.
Qed.

(** C7: for every parsed model, [toGeoJSON] returns a FeatureCollection whose
    properties are the metadata and whose features are one LineString per
    track, then one per route, then one Point per waypoint, each in parse
    order; a LineString has the triplets of the points of its track or
    route, a Point the triplet and the four texts of its waypoint; the
    triplet of a point is [[lon, lat, e]] where [e] is 0 for a null
    elevation and otherwise the same number as the elevation (identical to
    it unless the elevation is a zero, which is written [+0]). *)
Theorem toGeoJSON_parsed (h : Host) (gpxstring : string) (this : GPXParser) :
  GPXParser_new h gpxstring = Ok this ->
  toGeoJSON this =
    {| geojson_type := "FeatureCollection";
       features := map lineStringFor (tracks this)
                   ++ map lineStringFor (routes this)
                   ++ map pointFor (waypoints this);
       geojson_properties := metadata this |} /\
  (forall pt, pointOf this pt ->
     match ele pt with
     | None => tripletOf pt = (lon pt, lat pt, zero)
     | Some v =>
         fst (tripletOf pt) = (lon pt, lat pt) /\
         (snd (tripletOf pt) =? v)%float = true /\
         (is_zero v = false -> tripletOf pt = (lon pt, lat pt, v))
     end).
Proof.
  intros Hnew.
  pose proof (parsed_points_ele h gpxstring this Hnew) as Hele.
  split.
  - rewrite toGeoJSON_features. f_equal. f_equal; [|f_equal].
    + apply map_ext_in. intros r Hr. apply lineStringOf_lineStringFor.
      intros pt Hpt. apply Hele. right. exists r. auto.
    + apply map_ext_in. intros r Hr. apply lineStringOf_lineStringFor.
      intros pt Hpt. apply Hele. right. exists r. auto.
    + apply map_ext_in. intros pt Hpt. unfold pointFeature, pointFor.
      rewrite position_tripletOf; [reflexivity|].
      apply Hele. left. exact Hpt.
  - intros pt Hpt. specialize (Hele pt Hpt).
    unfold tripletOf, elevationOrZero. destruct (ele pt) as [v|]; [|reflexivity].
    specialize (Hele v eq_refl). cbn [fst snd].
    split; [reflexivity|]. destruct (is_zero v) eqn:Z.
    + split; [apply eqb_zero_l, Z|discriminate].
    + split; [apply eqb_refl, Hele|reflexivity].
Qed.

Lemma toGeoJSON_parsed_witness :
  exists this,
    GPXParser_new (sampleHost sampleDocument) sampleText = Ok this /\
    toGeoJSON this =
      {| geojson_type := "FeatureCollection";
         features := map lineStringFor (tracks this)
                     ++ map lineStringFor (routes this)
                     ++ map pointFor (waypoints this);
         geojson_properties := metadata this |} /\
    features (toGeoJSON this) =
    [ LineStringFeature
        [((-1.5)%float, 47.25%float, 4.5%float);
         ((-1.75)%float, 47.125%float, zero)]
        {| ls_name := Some "Walk"%string; ls_cmt := None; ls_desc := None;
           ls_src := None; ls_number := None; ls_link := defaultLink;
           ls_type := Some "hike"%string |};
      LineStringFeature
        [((-1.5)%float, 47.25%float, 35%float);
         ((-1.75)%float, 47.125%float, zero)]
        {| ls_name := Some "Plan"%string; ls_cmt := None; ls_desc := None;
           ls_src := None; ls_number := None; ls_link := defaultLink;
           ls_type := None |};
      PointFeature ((-1.5)%float, 47.25%float, 35%float)
        {| pt_name := defined (Some "Harbour"%string); pt_sym := defined None;
           pt_cmt := defined None; pt_desc := defined None |} ].
Proof.
  eexists. split; [reflexivity|]. split.
  - apply (proj1 (toGeoJSON_parsed (sampleHost sampleDocument) sampleText _ eq_refl)).
  - reflexivity.
Defined.

(* ===================================================================== *)
(** * Part V: further properties                                          *)
(* ===================================================================== *)

(** More of what the methods do: the loops in closed form, the edge cases
    of the parser, and how the parts of a model fit together. *)

(** ** The distance object in closed form *)

Lemma consecutive_cons2 {A : Type} (x y : A) (l : list A) :
  consecutive (x :: y :: l) = (x, y) :: consecutive (y :: l).
Proof. reflexivity. Qed.

Lemma length_consecutive {A : Type} (l : list A) :
  List.length (consecutive l) = Nat.pred (List.length l).
Proof.
  unfold consecutive. rewrite length_combine.
  destruct l as [|x l]; cbn [tl List.length]; lia.
Qed.

Lemma nth_error_consecutive {A : Type} (l : list A) :
  forall (i : nat) (a b : A),
    nth_error l i = Some a -> nth_error l (Datatypes.S i) = Some b ->
    nth_error (consecutive l) i = Some (a, b).
Proof.
  induction l as [|x l IH]; intros i a b Ha Hb.
  - destruct i; discriminate.
  - destruct l as [|y l]; [destruct i; discriminate Hb|].
    rewrite consecutive_cons2. destruct i as [|i].
    + simpl in Ha, Hb. inversion Ha; inversion Hb. reflexivity.
    + simpl. apply IH; assumption.
Qed.

Lemma runningTotals_snoc (ds : list number) (d : number) :
  forall start,
    runningTotals start (ds ++ [d]) =
    runningTotals start ds
      ++ [(fold_left (fun acc e => (acc + e)%float) ds start + d)%float].
Proof.
  induction ds as [|x ds IH]; intros start; simpl; [reflexivity|].
  rewrite IH. reflexivity.
Qed.

Lemma length_runningTotals (ds : list number) :
  forall start, List.length (runningTotals start ds) = List.length ds.
Proof. induction ds as [|x ds IH]; intros start; simpl; [|rewrite IH]; reflexivity. Qed.

Lemma runningTotals_last (ds : list number) (start : number) :
  ds <> [] ->
  nth_error (runningTotals start ds) (Nat.pred (List.length ds)) =
  Some (fold_left (fun acc e => (acc + e)%float) ds start).
Proof.
  destruct ds as [|x ds] using rev_ind; [congruence|]. intros _.
  rewrite runningTotals_snoc, length_app, fold_left_app. simpl.
  rewrite Nat.add_1_r. simpl.
  rewrite nth_error_app2 by (rewrite length_runningTotals; lia).
  rewrite length_runningTotals, Nat.sub_diag. reflexivity.
Qed.

(** The loop of [calcRouteDistance] leaves the sum of the segment distances
    and the totals it went through. *)
Lemma calcRouteDistance_loop_closed (h : Host) (points : list Point) :
  let len := Z.of_nat (List.length points) in
  let ds := segmentDistances h points in
  for_lt 0 (len - 1)
    (fun i '(totalDistance, cumulDistance) =>
       p <- index points i ;;
       q <- index points (i + 1) ;;
       let totalDistance :=
         (totalDistance + calcDistanceBetween h p q)%float in
       Ok (totalDistance, array_set cumulDistance i totalDistance))
    (zero, empty_array)
  = Ok (sumOf ds, mkJSArray (map Some (runningTotals zero ds)) []).
Proof.
  intros len ds.
  assert (Hds : List.length ds = Nat.pred (List.length points)).
  { unfold ds, segmentDistances. rewrite length_map. apply length_consecutive. }
  destruct (for_lt_inv
    (fun (i : Z) (st : number * JSArray number) =>
       0 <= i <= Z.max 0 (len - 1) /\
       st = (sumOf (firstn (Z.to_nat i) ds),
             mkJSArray (map Some (runningTotals zero (firstn (Z.to_nat i) ds))) []))
    (fun i '(totalDistance, cumulDistance) =>
       p <- index points i ;;
       q <- index points (i + 1) ;;
       let totalDistance :=
         (totalDistance + calcDistanceBetween h p q)%float in
       Ok (totalDistance, array_set cumulDistance i totalDistance))
    0 (len - 1) (zero, empty_array)) as (st & Hst & Hrange & ->).
  - split; [lia|reflexivity].
  - intros j t Hj [_ ->].
    destruct (index_in_range points j ltac:(lia)) as (p & -> & Hp).
    destruct (index_in_range points (j + 1) ltac:(lia)) as (q & -> & Hq).
    replace (Z.to_nat (j + 1)) with (Datatypes.S (Z.to_nat j)) in * by lia.
    cbn [bind]. eexists. split; [reflexivity|]. split; [lia|].
    assert (Hd : nth_error ds (Z.to_nat j) = Some (calcDistanceBetween h p q)).
    { unfold ds, segmentDistances.
      rewrite (map_nth_error _ _ _ (nth_error_consecutive _ _ _ _ Hp Hq)).
      reflexivity. }
    rewrite (firstn_succ_nth_error _ _ _ Hd).
    rewrite runningTotals_snoc. unfold sumOf at 3. rewrite fold_left_app.
    cbn [fold_left]. fold (sumOf (firstn (Z.to_nat j) ds)).
    f_equal. apply array_set_append.
    rewrite length_runningTotals, length_firstn. lia.
  - refine (eq_trans Hst _).
    replace (firstn (Z.to_nat (Z.max 0 (len - 1))) ds) with ds.
    + reflexivity.
    + symmetry. apply firstn_all2. lia.
Qed.

(** The closed form of [calcRouteDistance]. *)
Lemma calcRouteDistance_closed (h : Host) (points : list Point) :
  let ds := segmentDistances h points in
  calcRouteDistance h points =
  Ok (mkRouteDistance (sumOf ds)
        (array_set (mkJSArray (map Some (runningTotals zero ds)) [])
           (Z.of_nat (List.length points) - 1) (sumOf ds))).
Proof.
  intros ds. pose proof (calcRouteDistance_loop_closed h points) as Hloop.
  cbv zeta in Hloop. unfold calcRouteDistance. rewrite Hloop. reflexivity.
Qed.

Lemma array_get_dense (cs : list number) (i : nat) :
  array_get (mkJSArray (map Some cs) []) (Z.of_nat i) = nth_error cs i.
Proof.
  unfold array_get. destruct (Z.ltb_spec (Z.of_nat i) 0); [lia|].
  cbn [items]. rewrite Nat2Z.id, nth_error_map.
  destruct (nth_error cs i); reflexivity.
Qed.

(** X1: [calcRouteDistance] adds the distances of consecutive points from
    the left, starting from 0: [total] is that sum, and for a sequence that
    is not empty [cumul] holds the running totals followed by [total] once
    more.  So [cumul[i]] is the distance from the first point to point
    [i + 1]; in particular [cumul[0]] is the length of the first segment,
    not 0. *)
Theorem calcRouteDistance_running_totals (h : Host) (points : list Point) :
  let ds := segmentDistances h points in
  exists r,
    calcRouteDistance h points = Ok r /\
    total r = sumOf ds /\
    (points <> [] ->
       cumul r = mkJSArray (map Some (runningTotals zero ds ++ [sumOf ds])) []) /\
    (forall p q rest, points = p :: q :: rest ->
       array_get (cumul r) 0 = Some (zero + calcDistanceBetween h p q)%float).
Proof.
  intros ds. eexists. split; [apply calcRouteDistance_closed|].
  cbn [total cumul]. fold ds.
  assert (Hds : List.length ds = Nat.pred (List.length points)).
  { unfold ds, segmentDistances. rewrite length_map. apply length_consecutive. }
  assert (Hne : points <> [] ->
    array_set (mkJSArray (map Some (runningTotals zero ds)) [])
      (Z.of_nat (List.length points) - 1) (sumOf ds) =
    mkJSArray (map Some (runningTotals zero ds ++ [sumOf ds])) []).
  { intros Hne. apply array_set_append. rewrite length_runningTotals, Hds.
    destruct points; [congruence|]. cbn [List.length Nat.pred]. lia. }
  split; [reflexivity|]. split; [exact Hne|].
  intros p q rest E. rewrite Hne by (rewrite E; discriminate).
  change 0 with (Z.of_nat 0). rewrite array_get_dense.
  unfold ds, segmentDistances. rewrite E. reflexivity.
Qed.

(** The loop of [calcSlope]. *)
Lemma calcSlope_closed (points : list Point) (cumul : JSArray number) :
  exists slopes,
    calcSlope points cumul = Ok slopes /\
    List.length slopes = Nat.pred (List.length points) /\
    forall i, nth_error slopes i = slopeAt points cumul i.
Proof.
  unfold calcSlope.
  set (len := Z.of_nat (List.length points)).
  destruct (for_lt_inv
    (fun (i : Z) (slopes : list number) =>
       0 <= i /\ Z.of_nat (List.length slopes) = i /\
       forall k, (k < List.length slopes)%nat ->
         nth_error slopes k = slopeAt points cumul k)
    (fun i slopes =>
       point <- index points i ;;
       nextPoint <- index points (i + 1) ;;
       let elevationDiff :=
         (or_number (ele nextPoint) zero - or_number (ele point) zero)%float in
       let distance :=
         (to_number (array_get cumul (i + 1))
          - to_number (array_get cumul i))%float in
       let slope := ((elevationDiff * 100) / distance)%float in
       Ok (push slopes slope))
    0 (len - 1) []) as (slopes & Hs & _ & Hlen & Hnth).
  - split; [lia|]. split; [reflexivity|]. intros k Hk. simpl in Hk. lia.
  - intros j t Hj (_ & Ht & Hnth).
    destruct (index_in_range points j ltac:(lia)) as (p & -> & Hp).
    destruct (index_in_range points (j + 1) ltac:(lia)) as (q & -> & Hq).
    replace (Z.to_nat (j + 1)) with (Datatypes.S (Z.to_nat j)) in Hq by lia.
    cbn [bind]. eexists. split; [reflexivity|].
    unfold push. rewrite length_app. cbn [List.length].
    split; [lia|]. split; [lia|].
    intros k Hk.
    destruct (Nat.eq_dec k (List.length t)) as [->|Hne].
    + rewrite nth_error_app2, Nat.sub_diag by lia. cbn [nth_error].
      unfold slopeAt.
      replace (List.length t) with (Z.to_nat j) by lia.
      rewrite Hp, Hq. rewrite Z2Nat.id by lia. reflexivity.
    + rewrite nth_error_app1 by lia. apply Hnth. lia.
  - exists slopes. split; [exact Hs|].
    assert (Hl : List.length slopes = Nat.pred (List.length points)) by lia.
    split; [exact Hl|].
    intros i. destruct (Nat.lt_ge_cases i (List.length slopes)) as [Hi|Hi].
    + apply Hnth, Hi.
    + rewrite (proj2 (nth_error_None slopes i) Hi). unfold slopeAt.
      assert (E : nth_error points (Datatypes.S i) = None)
        by (apply nth_error_None; lia).
      rewrite E. destruct (nth_error points i); reflexivity.
Qed.

(** ** More on numbers *)

Local Open Scope float_scope.

Lemma sub_nan_r (x : number) : x - nan = nan.
Proof.
  apply Prim2SF_inj. rewrite sub_spec. change (Prim2SF nan) with S754_nan.
  destruct (Prim2SF x); reflexivity.
Qed.

Lemma sub_nan_l (x : number) : nan - x = nan.
Proof.
  apply Prim2SF_inj. rewrite sub_spec. change (Prim2SF nan) with S754_nan.
  reflexivity.
Qed.

Lemma div_nan_r (x : number) : x / nan = nan.
Proof.
  apply Prim2SF_inj. rewrite div_spec. change (Prim2SF nan) with S754_nan.
  destruct (Prim2SF x); reflexivity.
Qed.

Lemma mul_nan_r (x : number) : x * nan = nan.
Proof.
  apply Prim2SF_inj. rewrite mul_spec. change (Prim2SF nan) with S754_nan.
  destruct (Prim2SF x); reflexivity.
Qed.

Lemma mul_nan_l (x : number) : nan * x = nan.
Proof. rewrite mul_comm. apply mul_nan_r. Qed.

Lemma add_nan_r (x : number) : x + nan = nan.
Proof.
  apply Prim2SF_inj. rewrite add_spec. change (Prim2SF nan) with S754_nan.
  destruct (Prim2SF x); reflexivity.
Qed.

Lemma add_nan_l (x : number) : nan + x = nan.
Proof.
  apply Prim2SF_inj. rewrite add_spec. change (Prim2SF nan) with S754_nan.
  reflexivity.
Qed.

Lemma div_nan_l (x : number) : nan / x = nan.
Proof.
  apply Prim2SF_inj. rewrite div_spec. change (Prim2SF nan) with S754_nan.
  reflexivity.
Qed.

(** [x - x] is [+0] for a finite [x], and [NaN] otherwise. *)
Lemma sub_self (x : number) : x - x = zero \/ x - x = nan.
Proof.
  destruct (is_finite x) eqn:F; [left; apply sub_diag, F|right].
  assert (N : ~ is_finite_sf (Prim2SF x)) by (rewrite <- is_finite_spec; congruence).
  apply Prim2SF_inj. rewrite sub_spec. change (Prim2SF nan) with S754_nan.
  destruct (Prim2SF x) as [s|[]| |s m e]; simpl in N; try tauto; reflexivity.
Qed.

(** A division by zero never gives a finite number. *)
Lemma div_zero_not_finite (x : number) : is_finite (x / zero) = false.
Proof.
  destruct (is_finite (x / zero)) eqn:F; [|reflexivity].
  apply is_finite_spec in F. rewrite div_spec, Prim2SF_zero in F.
  destruct (Prim2SF x); simpl in F; tauto.
Qed.

Local Close Scope float_scope.

(** ** [calcSlope] *)

(** X2: whatever the [cumul] array, [calcSlope] returns, with one slope for
    every two consecutive points (none for fewer than two points); the slope
    at index [i] is [(e' - e) * 100 / (cumul[i + 1] - cumul[i])], where [e]
    and [e'] are the elevations of points [i] and [i + 1] read as
    [ele || 0], and a [cumul] entry that is missing counts as [NaN]. *)
Theorem calcSlope_slopes (points : list Point) (cumul : JSArray number) :
  exists slopes,
    calcSlope points cumul = Ok slopes /\
    List.length slopes = (List.length points - 1)%nat /\
    forall i, nth_error slopes i = slopeAt points cumul i.
Proof.
  destruct (calcSlope_closed points cumul) as (slopes & Hs & Hlen & Hnth).
  exists slopes. split; [exact Hs|]. split; [lia|exact Hnth].
Qed.

(** X3: a [cumul] array that lacks index [i] or [i + 1] (one shorter than
    the points, say, or empty) makes nothing fail: the slope at [i] is
    [NaN]. *)
Theorem calcSlope_missing_cumul (points : list Point) (cumul : JSArray number) :
  exists slopes,
    calcSlope points cumul = Ok slopes /\
    forall i s,
      nth_error slopes i = Some s ->
      array_get cumul (Z.of_nat i) = None \/
      array_get cumul (Z.of_nat i + 1) = None ->
      s = nan.
Proof.
  destruct (calcSlope_closed points cumul) as (slopes & Hs & _ & Hnth).
  exists slopes. split; [exact Hs|].
  intros i s Hi Hmiss. rewrite Hnth in Hi. unfold slopeAt in Hi.
  destruct (nth_error points i) as [p|]; [|discriminate].
  destruct (nth_error points (Datatypes.S i)) as [q|]; [|discriminate].
  cbv zeta in Hi. inversion Hi as [E]. clear Hi E.
  destruct Hmiss as [-> | ->]; cbn [to_number].
  - rewrite sub_nan_r. apply div_nan_r.
  - rewrite sub_nan_l. apply div_nan_r.
Qed.

(** X4: the slopes a route gets, [calcSlope(points, cumul)] for the [cumul]
    of [calcRouteDistance(points)], end in a slope that is no finite number.
    The last two entries of [cumul] are both [total], so for two or more
    points the last slope divides by [total - total]: it is [Infinity],
    [-Infinity] or [NaN]. *)
Theorem calcSlope_last_not_finite (h : Host) (points : list Point) :
  (2 <= List.length points)%nat ->
  exists r slopes s,
    calcRouteDistance h points = Ok r /\
    calcSlope points (cumul r) = Ok slopes /\
    array_get (cumul r) (Z.of_nat (List.length points) - 2) = Some (total r) /\
    array_get (cumul r) (Z.of_nat (List.length points) - 1) = Some (total r) /\
    nth_error slopes (List.length points - 2) = Some s /\
    is_finite s = false.
Proof.
  intros Hn.
  pose proof (calcRouteDistance_closed h points) as Hr. cbv zeta in Hr.
  set (ds := segmentDistances h points) in *.
  assert (Hds : List.length ds = Nat.pred (List.length points)).
  { unfold ds, segmentDistances. rewrite length_map. apply length_consecutive. }
  rewrite array_set_append in Hr by (rewrite length_runningTotals, Hds; lia).
  set (cs := runningTotals zero ds ++ [sumOf ds]) in *.
  assert (Hlast : nth_error cs (List.length points - 1) = Some (sumOf ds)).
  { unfold cs. rewrite nth_error_app2 by (rewrite length_runningTotals; lia).
    rewrite length_runningTotals.
    replace (List.length points - 1 - List.length ds)%nat with 0%nat by lia.
    reflexivity. }
  assert (Hprev : nth_error cs (List.length points - 2) = Some (sumOf ds)).
  { unfold cs. rewrite nth_error_app1 by (rewrite length_runningTotals; lia).
    replace (List.length points - 2)%nat with (Nat.pred (List.length ds)) by lia.
    apply runningTotals_last. destruct ds; [simpl in Hds; lia|discriminate]. }
  destruct (calcSlope_closed points (mkJSArray (map Some cs) []))
    as (slopes & Hs & Hlen & Hnth).
  destruct (nth_error points (List.length points - 2)) as [p|] eqn:Hp.
  2:{ apply nth_error_None in Hp. lia. }
  destruct (nth_error points (Datatypes.S (List.length points - 2))) as [q|] eqn:Hq.
  2:{ apply nth_error_None in Hq. lia. }
  eexists. exists slopes. eexists.
  split; [exact Hr|]. cbn [cumul total].
  split; [exact Hs|].
  replace (Z.of_nat (List.length points) - 2)
    with (Z.of_nat (List.length points - 2)) by lia.
  replace (Z.of_nat (List.length points) - 1)
    with (Z.of_nat (List.length points - 1)) by lia.
  rewrite !array_get_dense.
  split; [exact Hprev|]. split; [exact Hlast|].
  split.
  - rewrite Hnth. unfold slopeAt. rewrite Hp, Hq. cbv zeta.
    replace (Z.of_nat (List.length points - 2) + 1)
      with (Z.of_nat (List.length points - 1)) by lia.
    rewrite !array_get_dense, Hprev, Hlast. cbn [to_number]. reflexivity.
  - destruct (sub_self (sumOf ds)) as [-> | ->].
    + apply div_zero_not_finite.
    + rewrite div_nan_r. reflexivity.
Qed.

Lemma calcSlope_last_not_finite_witness :
  exists r slopes s,
    calcRouteDistance (sampleHost emptyDocument) [harbour; bridge; harbour] = Ok r /\
    calcSlope [harbour; bridge; harbour] (cumul r) = Ok slopes /\
    array_get (cumul r) (Z.of_nat (List.length [harbour; bridge; harbour]) - 2)
      = Some (total r) /\
    array_get (cumul r) (Z.of_nat (List.length [harbour; bridge; harbour]) - 1)
      = Some (total r) /\
    nth_error slopes (List.length [harbour; bridge; harbour] - 2) = Some s /\
    is_finite s = false.
Proof.
  apply (calcSlope_last_not_finite (sampleHost emptyDocument)
           [harbour; bridge; harbour]).
  simpl. lia.
Defined.

Example calcSlope_there_and_back :
  (r <- calcRouteDistance (sampleHost emptyDocument) [harbour; bridge; harbour] ;;
   calcSlope [harbour; bridge; harbour] (cumul r))
  = Ok [(-0x1.8b5dd6368f816p-5)%float; infinity].
Proof. vm_compute. reflexivity. Qed.

(** ** The sign of a distance *)

Lemma binary_round_aux_nan_or_sign (s : bool) (m e : Z) (l : location) :
  binary_round_aux prec emax s m e l = S754_nan \/
  has_sign s (binary_round_aux prec emax s m e l).
Proof.
  unfold binary_round_aux.
  destruct (shr_fexp prec emax m e l) as [r1 e1].
  destruct (shr_fexp prec emax _ e1 loc_Exact) as [r2 e2].
  destruct (shr_m r2); [right; reflexivity| |left; reflexivity].
  destruct (e2 <=? emax - prec)%Z; right; reflexivity.
Qed.

(** Rounding a non-zero integer at an exponent within range never gives a
    zero. *)
Lemma binary_round_not_zero (s : bool) (m : positive) (e : Z) :
  emin <= e -> forall s', binary_round prec emax s m e <> S754_zero s'.
Proof.
  intros He s'. unfold binary_round.
  change (Zpos (digits2_pos m)) with (Zdigits2 (Zpos m)).
  destruct (shl_align m e (fexp prec emax (Zdigits2 (Zpos m) + e)))
    as [mz ez] eqn:Es.
  assert (Hez : emin <= ez).
  { pose proof (fexp_ge_emin (Zdigits2 (Zpos m) + e)) as Hf.
    unfold shl_align in Es.
    destruct (fexp prec emax (Zdigits2 (Zpos m) + e) - e);
      inversion Es; subst; assumption. }
  destruct (binary_round_aux_spec s (Zpos mz) ez loc_Exact ltac:(lia))
    as (m1 & m2 & e2 & Hm1 & Hm2 & He2 & ->).
  pose proof (shiftr_fexp_pos mz ez Hez) as HM1.
  destruct m1 as [|p1|p1]; try lia.
  set (e1 := ez + Z.max (fexp prec emax (Zdigits2 (Zpos mz) + ez) - ez) 0) in *.
  assert (He1 : emin <= e1) by (unfold e1; lia).
  pose proof (shiftr_fexp_pos p1 e1 He1) as HM2.
  rewrite <- Hm2 in HM2.
  destruct m2 as [|p2|p2]; try lia.
  destruct (e2 <=? emax - prec); discriminate.
Qed.

Lemma binary_normalize_not_neg_zero (m e : Z) :
  emin <= e -> binary_normalize prec emax m e false <> S754_zero true.
Proof.
  intros He. destruct m as [|p|p]; simpl.
  - discriminate.
  - apply binary_round_not_zero, He.
  - apply binary_round_not_zero, He.
Qed.

Lemma valid_finite_emin (s : bool) (m : positive) (e : Z) :
  valid_binary (S754_finite s m e) = true -> emin <= e.
Proof.
  intros V. apply valid_finite_canonical in V as [C _]. rewrite <- C.
  apply fexp_ge_emin.
Qed.

(** A sum is [-0] only when both addends are. *)
Lemma SFadd_neg_zero (x y : spec_float) :
  valid_binary x = true -> valid_binary y = true ->
  SFadd prec emax x y = S754_zero true ->
  x = S754_zero true /\ y = S754_zero true.
Proof.
  intros Vx Vy.
  destruct x as [[]|[]| |sx mx ex], y as [[]|[]| |sy my ey];
    simpl; try discriminate; auto.
  intros H. exfalso. revert H. apply binary_normalize_not_neg_zero.
  pose proof (valid_finite_emin _ _ _ Vx). pose proof (valid_finite_emin _ _ _ Vy).
  lia.
Qed.

(** A difference is [-0] only for [-0 - +0]. *)
Lemma SFsub_neg_zero (x y : spec_float) :
  valid_binary x = true -> valid_binary y = true ->
  SFsub prec emax x y = S754_zero true ->
  x = S754_zero true /\ y = S754_zero false.
Proof.
  intros Vx Vy.
  destruct x as [[]|[]| |sx mx ex], y as [[]|[]| |sy my ey];
    simpl; try discriminate; auto.
  intros H. exfalso. revert H. apply binary_normalize_not_neg_zero.
  pose proof (valid_finite_emin _ _ _ Vx). pose proof (valid_finite_emin _ _ _ Vy).
  lia.
Qed.

Lemma SFmul_self_not_neg_zero (x : spec_float) :
  SFmul prec emax x x <> S754_zero true.
Proof.
  destruct x as [[]|[]| |[] m e]; simpl; try discriminate.
  - destruct (binary_round_aux_nan_or_sign false (Zpos (m * m)) (e + e) loc_Exact)
      as [E|E]; rewrite ?E; [discriminate|].
    intros H. rewrite H in E. discriminate E.
  - destruct (binary_round_aux_nan_or_sign false (Zpos (m * m)) (e + e) loc_Exact)
      as [E|E]; rewrite ?E; [discriminate|].
    intros H. rewrite H in E. discriminate E.
Qed.

Local Open Scope float_scope.

Lemma is_neg_zero_false (x : number) :
  is_neg_zero x = false <-> Prim2SF x <> S754_zero true.
Proof.
  split.
  - intros H E. assert (x = neg_zero) by (apply Prim2SF_inj; rewrite E; reflexivity).
    subst x. discriminate H.
  - intros H. destruct (is_neg_zero x) eqn:E; [|reflexivity].
    apply is_neg_zero_eq in E. subst x. exfalso. apply H. reflexivity.
Qed.

(** A square root is [NaN], or it is not negative; it is [-0] only of
    [-0]. *)
Lemma sqrt_nan_or_nonneg (x : number) :
  is_neg_zero x = false ->
  is_nan (Math_sqrt x) = true \/
  ((0 <=? Math_sqrt x) = true /\ is_neg_zero (Math_sqrt x) = false).
Proof.
  unfold Math_sqrt.
  rewrite !is_neg_zero_false, is_nan_spec, leb_zero_l, sqrt_spec.
  unfold SF64sqrt, SFsqrt.
  destruct (Prim2SF x) as [[]|[]| |[] m e]; simpl; intros Hx; auto;
    try congruence; try (right; split; [reflexivity|discriminate]).
  destruct (SFsqrt_core_binary prec emax (Zpos m) e) as [[mz ez] lz].
  destruct (binary_round_aux_nan_or_sign false mz ez lz) as [E|E]; [left; exact E|].
  right. split; [apply has_sign_nonneg, E|].
  intros H. rewrite H in E. discriminate E.
Qed.

(** A positive finite factor keeps a number that is not negative so. *)
Lemma mul_positive_nonneg (k x : number) (mk : positive) (ek : Z) :
  Prim2SF k = S754_finite false mk ek ->
  (0 <=? x) = true -> (0 <=? k * x) = true.
Proof.
  intros Hk. rewrite !leb_zero_l, mul_spec, Hk.
  destruct (Prim2SF x) as [s|s| |s m e]; simpl; auto.
  intros ->. apply has_sign_nonneg.
  apply (binary_round_aux_sign false (Zpos (mk * m)) (ek + e) loc_Exact). lia.
Qed.

Lemma ltb_zero_false (x : number) :
  is_nan x = true \/ (0 <=? x) = true -> (x <? 0) = false.
Proof.
  rewrite is_nan_spec, leb_zero_l, ltb_spec.
  change (Prim2SF 0) with (S754_zero false).
  destruct (Prim2SF x) as [s|s| |s m e]; simpl; intros [H|H];
    try discriminate H; try contradiction; subst; reflexivity.
Qed.

(** The haversine term [a] and [1 - a] are never [-0]. *)
Lemma square_plus_not_neg_zero (s t : number) : is_neg_zero (s * s + t) = false.
Proof.
  apply is_neg_zero_false. rewrite add_spec. intros H.
  apply SFadd_neg_zero in H as [H _]; try apply Prim2SF_valid.
  rewrite mul_spec in H. apply (SFmul_self_not_neg_zero _ H).
Qed.

Lemma one_minus_not_neg_zero (a : number) : is_neg_zero (1 - a) = false.
Proof.
  apply is_neg_zero_false. rewrite sub_spec. intros H.
  apply SFsub_neg_zero in H as [H _]; try apply Prim2SF_valid.
  discriminate H.
Qed.

Lemma calcDistanceBetween_nan_or_nonneg (h : Host) (p q : Point) :
  atan2OfNaN h -> atan2FirstQuadrant h ->
  is_nan (calcDistanceBetween h p q) = true \/
  (0 <=? calcDistanceBetween h p q) = true.
Proof.
  intros Hnan Hquad. unfold calcDistanceBetween. cbv zeta.
  set (sinDLat := Math_sin h _).
  set (a := sinDLat * sinDLat + _).
  destruct (sqrt_nan_or_nonneg a (square_plus_not_neg_zero _ _)) as [Ha|[Ha Za]].
  { left. rewrite (Hnan _ _ (or_introl Ha)). reflexivity. }
  destruct (sqrt_nan_or_nonneg (1 - a) (one_minus_not_neg_zero a)) as [Hb|[Hb Zb]].
  { left. rewrite (Hnan _ _ (or_intror Hb)). reflexivity. }
  destruct (Hquad _ _ Ha Za Hb Zb) as [Hc|Hc].
  { left. rewrite (is_nan_eq _ Hc). reflexivity. }
  right.
  eapply mul_positive_nonneg; [vm_compute; reflexivity|].
  eapply mul_positive_nonneg; [vm_compute; reflexivity|].
  exact Hc.
Qed.

(** X5: a distance is never negative.  On a host whose [atan2] is [NaN] on
    a [NaN] argument and not negative on the closed first quadrant,
    [calcDistanceBetween] returns [NaN] or a number [>= 0], for all points
    (the square roots it takes are never negative, and never [-0]). *)
Theorem calcDistanceBetween_not_negative (h : Host) :
  atan2OfNaN h -> atan2FirstQuadrant h ->
  forall p q : Point,
    (calcDistanceBetween h p q <? 0) = false /\
    (is_nan (calcDistanceBetween h p q) = false ->
     (0 <=? calcDistanceBetween h p q) = true).
Proof.
  intros Hnan Hquad p q.
  pose proof (calcDistanceBetween_nan_or_nonneg h p q Hnan Hquad) as H.
  split; [apply ltb_zero_false, H|].
  intros N. destruct H as [H|H]; [congruence|exact H].
Qed.

Lemma sampleHost_atan2OfNaN (doc : Document) : atan2OfNaN (sampleHost doc).
Proof.
  intros y x H. cbn [Math_atan2 sampleHost].
  destruct H as [-> | ->]; [reflexivity|rewrite orb_true_r; reflexivity].
Qed.

Lemma div_nan_or_nonneg (y x : number) :
  (0 <=? y) = true -> is_neg_zero y = false ->
  (0 <=? x) = true -> is_neg_zero x = false ->
  is_nan (y / x) = true \/ (0 <=? y / x) = true.
Proof.
  rewrite !is_neg_zero_false, is_nan_spec, !leb_zero_l, div_spec.
  destruct (Prim2SF y) as [[]|sy| |sy my ey], (Prim2SF x) as [[]|sx| |sx mx ex];
    simpl; intros Hy Zy Hx Zx; subst; simpl; auto; try contradiction;
    try congruence.
  destruct (SFdiv_core_binary prec emax (Zpos my) ey (Zpos mx) ex) as [[mz ez] lz].
  destruct (binary_round_aux_nan_or_sign false mz ez lz) as [E|E]; [left; exact E|].
  right. apply has_sign_nonneg, E.
Qed.

Lemma sampleHost_atan2FirstQuadrant (doc : Document) :
  atan2FirstQuadrant (sampleHost doc).
Proof.
  intros y x Hy Zy Hx Zx. cbn [Math_atan2 sampleHost].
  destruct (is_nan y || is_nan x); [left; reflexivity|].
  apply div_nan_or_nonneg; assumption.
Qed.

Lemma calcDistanceBetween_not_negative_witness :
  (calcDistanceBetween (sampleHost emptyDocument) harbour bridge <? 0) = false /\
  (is_nan (calcDistanceBetween (sampleHost emptyDocument) harbour bridge) = false ->
   (0 <=? calcDistanceBetween (sampleHost emptyDocument) harbour bridge) = true).
Proof.
  apply (calcDistanceBetween_not_negative (sampleHost emptyDocument)
           (sampleHost_atan2OfNaN emptyDocument)
           (sampleHost_atan2FirstQuadrant emptyDocument) harbour bridge).
Defined.

Local Close Scope float_scope.

(** ** [NaN] coordinates *)

Local Open Scope float_scope.

Lemma half_angle_nan_l (x : number) : (nan - x) * (Math_PI / 180) / 2 = nan.
Proof. rewrite sub_nan_l. reflexivity. Qed.

Lemma half_angle_nan_r (x : number) : (x - nan) * (Math_PI / 180) / 2 = nan.
Proof. rewrite sub_nan_r. reflexivity. Qed.

(** A [NaN] among the four coordinates gives a [NaN] distance. *)
Lemma calcDistanceBetween_nan_coordinate (h : Host) (p q : Point) :
  sinOfNaN h -> atan2OfNaN h ->
  is_nan (lat p) = true \/ is_nan (lon p) = true \/
  is_nan (lat q) = true \/ is_nan (lon q) = true ->
  calcDistanceBetween h p q = nan.
Proof.
  intros Hsin Hatan Hc. unfold calcDistanceBetween. cbv zeta.
  assert (Ha : forall a, is_nan a = true ->
            6371000 * (2 * Math_atan2 h (Math_sqrt a) (Math_sqrt (1 - a))) = nan).
  { intros a Na. rewrite (is_nan_eq _ Na).
    rewrite (Hatan (Math_sqrt nan) (Math_sqrt (1 - nan)) (or_introl eq_refl)).
    reflexivity. }
  apply Ha.
  destruct Hc as [N|[N|[N|N]]]; rewrite (is_nan_eq _ N).
  - rewrite half_angle_nan_r, Hsin. rewrite mul_nan_l, add_nan_l. reflexivity.
  - rewrite half_angle_nan_r, Hsin. rewrite !mul_nan_r, add_nan_r. reflexivity.
  - rewrite half_angle_nan_l, Hsin. rewrite mul_nan_l, add_nan_l. reflexivity.
  - rewrite half_angle_nan_l, Hsin. rewrite !mul_nan_r, add_nan_r. reflexivity.
Qed.

Lemma fold_add_nan (ds : list number) :
  forall start,
    start = nan \/ In nan ds ->
    fold_left (fun acc e => acc + e) ds start = nan.
Proof.
  induction ds as [|d ds IH]; intros start H; simpl.
  - destruct H as [H|[]]. exact H.
  - apply IH. destruct H as [->|[->|H]].
    + left. apply add_nan_l.
    + left. apply add_nan_r.
    + right. exact H.
Qed.

Lemma sumOf_not_nan (ds : list number) :
  is_nan (sumOf ds) = false -> Forall (fun d => is_nan d = false) ds.
Proof.
  intros H. apply Forall_forall. intros d Hd.
  destruct (is_nan d) eqn:N; [|reflexivity].
  apply is_nan_eq in N. subst d.
  unfold sumOf in H. rewrite (fold_add_nan ds zero (or_intror Hd)) in H.
  discriminate H.
Qed.

Local Close Scope float_scope.

(** Every element of a list of two or more has a neighbour. *)
Lemma In_consecutive {A : Type} (l : list A) (p : A) :
  In p l -> (2 <= List.length l)%nat ->
  exists q, In (p, q) (consecutive l) \/ In (q, p) (consecutive l).
Proof.
  induction l as [|x l IH]; intros Hin Hlen; [contradiction|].
  destruct l as [|y l]; [simpl in Hlen; lia|].
  rewrite consecutive_cons2.
  destruct Hin as [->|Hin].
  - exists y. left. left. reflexivity.
  - destruct l as [|z l].
    + destruct Hin as [->|[]]. exists x. right. left. reflexivity.
    + destruct (IH Hin ltac:(simpl; lia)) as (q & [H|H]).
      * exists q. left. right. exact H.
      * exists q. right. right. exact H.
Qed.

(** With a [NaN] coordinate somewhere among two or more points, the sum of
    the segment distances is [NaN]. *)
Lemma sumOf_segmentDistances_nan (h : Host) (points : list Point) :
  sinOfNaN h -> atan2OfNaN h ->
  (2 <= List.length points)%nat ->
  (exists p, In p points /\ (is_nan (lat p) = true \/ is_nan (lon p) = true)) ->
  sumOf (segmentDistances h points) = nan.
Proof.
  intros Hsin Hatan Hlen (p & Hin & Hp).
  apply fold_add_nan. right.
  destruct (In_consecutive points p Hin Hlen) as (q & [H|H]).
  - apply in_map_iff. exists (p, q). split; [|exact H]. cbn [fst snd].
    apply calcDistanceBetween_nan_coordinate; tauto.
  - apply in_map_iff. exists (q, p). split; [|exact H]. cbn [fst snd].
    apply calcDistanceBetween_nan_coordinate; tauto.
Qed.

(** X6: one [NaN] coordinate spoils the whole route.  On a host that answers
    [NaN] to [NaN], if any point of a sequence of two or more has a [NaN]
    latitude or longitude, [total] is [NaN], and so is the last entry of
    [cumul]. *)
Theorem calcRouteDistance_nan_coordinate (h : Host) (points : list Point) :
  sinOfNaN h -> atan2OfNaN h ->
  (2 <= List.length points)%nat ->
  (exists p, In p points /\ (is_nan (lat p) = true \/ is_nan (lon p) = true)) ->
  exists r,
    calcRouteDistance h points = Ok r /\
    total r = nan /\
    array_get (cumul r) (Z.of_nat (List.length points) - 1) = Some nan.
Proof.
  intros Hsin Hatan Hlen Hp.
  pose proof (calcRouteDistance_closed h points) as Hr. cbv zeta in Hr.
  pose proof (sumOf_segmentDistances_nan h points Hsin Hatan Hlen Hp) as Hsum.
  set (ds := segmentDistances h points) in *.
  assert (Hds : List.length ds = Nat.pred (List.length points)).
  { unfold ds, segmentDistances. rewrite length_map. apply length_consecutive. }
  rewrite array_set_append in Hr by (rewrite length_runningTotals, Hds; lia).
  eexists. split; [exact Hr|]. cbn [total cumul].
  split; [exact Hsum|].
  replace (Z.of_nat (List.length points) - 1)
    with (Z.of_nat (List.length points - 1)) by lia.
  rewrite array_get_dense, Hsum.
  rewrite nth_error_app2 by (rewrite length_runningTotals; lia).
  rewrite length_runningTotals.
  replace (List.length points - 1 - List.length ds)%nat with 0%nat by lia.
  reflexivity.
Qed.

Lemma calcRouteDistance_nan_coordinate_witness :
  exists r,
    calcRouteDistance (sampleHost emptyDocument) nanLatitude = Ok r /\
    total r = nan /\
    array_get (cumul r) (Z.of_nat (List.length nanLatitude) - 1) = Some nan.
Proof.
  apply (calcRouteDistance_nan_coordinate (sampleHost emptyDocument) nanLatitude
           eq_refl (sampleHost_atan2OfNaN emptyDocument)).
  - simpl. lia.
  - exists (samplePoint nan 2%float None). split; [left; reflexivity|].
    left. reflexivity.
Defined.

(** ** The order of [cumul], revisited *)

Lemma nonDecreasing_cons (x y : number) (l : list number) :
  (x <=? y)%float = true -> nonDecreasing (y :: l) -> nonDecreasing (x :: y :: l).
Proof.
  intros Hxy Hl i a b Ha Hb. destruct i as [|i].
  - simpl in Ha, Hb. inversion Ha; inversion Hb; subst. exact Hxy.
  - simpl in Ha. apply (Hl i a b Ha Hb).
Qed.

Lemma nonDecreasing_tail (x : number) (l : list number) :
  nonDecreasing (x :: l) -> nonDecreasing l.
Proof. intros H i a b Ha Hb. apply (H (Datatypes.S i) a b Ha Hb). Qed.

Lemma nonDecreasing_single (x : number) : nonDecreasing [x].
Proof. intros i a b Ha Hb. destruct i as [|[|i]]; discriminate Hb. Qed.

(** Running totals of numbers that are not negative, from a start that is
    not negative, never go down. *)
Lemma runningTotals_nonDecreasing (ds : list number) :
  forall start,
    (0 <=? start)%float = true ->
    Forall (fun d => (0 <=? d)%float = true) ds ->
    nonDecreasing (start :: runningTotals start ds ++
                     [fold_left (fun acc e => (acc + e)%float) ds start]) /\
    Forall (fun c => (0 <=? c)%float = true)
      (runningTotals start ds ++ [fold_left (fun acc e => (acc + e)%float) ds start]).
Proof.
  induction ds as [|d ds IH]; intros start Hs Hds; simpl.
  - split.
    + apply nonDecreasing_cons; [|apply nonDecreasing_single].
      apply leb_refl. apply (leb_not_nan _ _ Hs).
    + constructor; [exact Hs|constructor].
  - inversion Hds as [|? ? Hd Hrest]; subst.
    destruct (IH (start + d)%float (add_nonneg _ _ Hs Hd) Hrest) as [Hnd Hpos].
    split.
    + apply nonDecreasing_cons; [apply add_nonneg_mono; assumption|exact Hnd].
    + constructor; [apply add_nonneg; assumption|exact Hpos].
Qed.

(** X7: on a host whose [atan2] is [NaN] on a [NaN] argument and not
    negative on the closed first quadrant, [cumul] is in order unless the
    total is [NaN]: when [total] is a number, no entry of [cumul] is
    negative or [NaN], each entry is at most the next one, and
    [total >= 0]. *)
Theorem calcRouteDistance_ordered_unless_nan (h : Host) :
  atan2OfNaN h -> atan2FirstQuadrant h ->
  forall points : list Point,
    exists r cs,
      calcRouteDistance h points = Ok r /\
      items (cumul r) = map Some cs /\
      (is_nan (total r) = false ->
         nonDecreasing cs /\
         Forall (fun c => (0 <=? c)%float = true) cs /\
         (0 <=? total r)%float = true).
Proof.
  intros Hnan Hquad points.
  pose proof (calcRouteDistance_closed h points) as Hr. cbv zeta in Hr.
  set (ds := segmentDistances h points) in *.
  assert (Hds : List.length ds = Nat.pred (List.length points)).
  { unfold ds, segmentDistances. rewrite length_map. apply length_consecutive. }
  assert (Hall : is_nan (sumOf ds) = false ->
            Forall (fun d => (0 <=? d)%float = true) ds).
  { intros N. apply sumOf_not_nan in N. rewrite Forall_forall in *.
    intros d Hd. specialize (N d Hd).
    unfold ds, segmentDistances in Hd. apply in_map_iff in Hd as ([p q] & <- & _).
    cbn [fst snd] in *.
    destruct (calcDistanceBetween_nan_or_nonneg h p q Hnan Hquad) as [E|E];
      [congruence|exact E]. }
  destruct points as [|p0 rest].
  - eexists. exists []. split; [exact Hr|]. split; [reflexivity|].
    intros _. split; [intros i x y Hx; destruct i; discriminate|].
    split; [constructor|reflexivity].
  - rewrite array_set_append in Hr
      by (rewrite length_runningTotals, Hds; cbn [List.length Nat.pred]; lia).
    eexists. exists (runningTotals zero ds ++ [sumOf ds]).
    split; [exact Hr|]. split; [reflexivity|]. cbn [total].
    intros N.
    destruct (runningTotals_nonDecreasing ds zero eq_refl (Hall N)) as [Hnd Hpos].
    split; [apply (nonDecreasing_tail _ _ Hnd)|]. split; [exact Hpos|].
    rewrite Forall_forall in Hpos. apply Hpos.
    apply in_or_app. right. left. reflexivity.
Qed.

Lemma calcRouteDistance_ordered_unless_nan_witness :
  exists r cs,
    calcRouteDistance (sampleHost emptyDocument) [harbour; bridge; harbour] = Ok r /\
    items (cumul r) = map Some cs /\
    (is_nan (total r) = false ->
       nonDecreasing cs /\
       Forall (fun c => (0 <=? c)%float = true) cs /\
       (0 <=? total r)%float = true).
Proof.
  apply (calcRouteDistance_ordered_unless_nan (sampleHost emptyDocument)
           (sampleHost_atan2OfNaN emptyDocument)
           (sampleHost_atan2FirstQuadrant emptyDocument)
           [harbour; bridge; harbour]).
Defined.

(** ** [calcElevationStats] in closed form *)

(** The first loop of [calcElevationStats] folds [addDelta] over the
    differences of neighbours. *)
Lemma elevationDeltas_closed (points : list Point) :
  elevationDeltas points = Ok (deltaSums points).
Proof.
  unfold elevationDeltas, deltaSums.
  set (len := Z.of_nat (List.length points)).
  set (ds := elevationDiffs points).
  assert (Hds : List.length ds = Nat.pred (List.length points)).
  { unfold ds, elevationDiffs. rewrite length_map. apply length_consecutive. }
  destruct (for_lt_inv
    (fun (i : Z) (st : number * number) =>
       0 <= i <= Z.max 0 (len - 1) /\
       st = fold_left addDelta (firstn (Z.to_nat i) ds) (zero, zero))
    (fun i '(dp, dm) =>
       q <- index points (i + 1) ;;
       let rawNextElevation := or_number (ele q) zero in
       p <- index points i ;;
       let rawElevation := or_number (ele p) zero in
       let diff := (rawNextElevation - rawElevation)%float in
       if (diff <? 0)%float then Ok (dp, (dm + diff)%float)
       else if (0 <? diff)%float then Ok ((dp + diff)%float, dm)
       else Ok (dp, dm))
    0 (len - 1) (zero, zero)) as (st & Hst & Hrange & ->).
  - split; [lia|reflexivity].
  - intros j [dp dm] Hj [_ Hacc].
    destruct (index_in_range points (j + 1) ltac:(lia)) as (q & -> & Hq).
    destruct (index_in_range points j ltac:(lia)) as (p & -> & Hp).
    replace (Z.to_nat (j + 1)) with (Datatypes.S (Z.to_nat j)) in * by lia.
    cbn [bind].
    assert (Hd : nth_error ds (Z.to_nat j) =
                 Some (or_number (ele q) zero - or_number (ele p) zero)%float).
    { unfold ds, elevationDiffs.
      rewrite (map_nth_error _ _ _ (nth_error_consecutive _ _ _ _ Hp Hq)).
      reflexivity. }
    rewrite (firstn_succ_nth_error _ _ _ Hd), fold_left_app, <- Hacc.
    cbn [fold_left]. unfold addDelta. cbn [fst snd].
    exists (if (or_number (ele q) zero - or_number (ele p) zero <? 0)%float
            then (dp, (dm + (or_number (ele q) zero - or_number (ele p) zero))%float)
            else if (0 <? or_number (ele q) zero - or_number (ele p) zero)%float
                 then ((dp + (or_number (ele q) zero - or_number (ele p) zero))%float, dm)
                 else (dp, dm)).
    split; [|split; [lia|reflexivity]].
    destruct (_ <? 0)%float; [reflexivity|].
    destruct (0 <? _)%float; reflexivity.
  - refine (eq_trans Hst _).
    replace (firstn (Z.to_nat (Z.max 0 (len - 1))) ds) with ds; [reflexivity|].
    symmetry. apply firstn_all2. lia.
Qed.

Lemma calcElevationStats_closed (h : Host) (points : list Point) :
  calcElevationStats h points =
  if argumentsFit h points
  then Ok {| max := or_null (Math_max (elevations points));
             min := or_null (Math_min (elevations points));
             pos := or_null (Math_abs (fst (deltaSums points)));
             neg := or_null (Math_abs (snd (deltaSums points)));
             avg := or_null (meanOf (elevations points)) |}
  else Throw RangeError.
Proof.
  apply calcElevationStats_unfold. rewrite elevationDeltas_closed.
  destruct (deltaSums points). reflexivity.
Qed.

(** The statistics that were returned. *)
Lemma calcElevationStats_closed_Ok (h : Host) (points : list Point)
    (stats : ElevationStats) :
  calcElevationStats h points = Ok stats ->
  argumentsFit h points = true /\
  stats = {| max := or_null (Math_max (elevations points));
             min := or_null (Math_min (elevations points));
             pos := or_null (Math_abs (fst (deltaSums points)));
             neg := or_null (Math_abs (snd (deltaSums points)));
             avg := or_null (meanOf (elevations points)) |}.
Proof.
  rewrite calcElevationStats_closed.
  destruct (argumentsFit h points); [|discriminate].
  intros H. inversion H. split; reflexivity.
Qed.

(** No arguments are never too many. *)
Lemma argumentsFit_no_elevation (h : Host) (points : list Point) :
  elevations points = [] -> argumentsFit h points = true.
Proof.
  intros E. unfold argumentsFit. rewrite E. apply N.leb_le, N.le_0_l.
Qed.

Lemma In_consecutive_inv {A : Type} (l : list A) (a b : A) :
  In (a, b) (consecutive l) -> In a l /\ In b l.
Proof.
  unfold consecutive. intros H. split.
  - apply (in_combine_l _ _ _ _ H).
  - apply in_combine_r in H. destruct l; [contradiction|]. right. exact H.
Qed.

Lemma hasElevation_none (points : list Point) :
  existsb hasElevation points = false ->
  forall p, In p points -> ele p = None.
Proof.
  intros H p Hin.
  destruct (ele p) as [v|] eqn:E; [|reflexivity].
  assert (existsb hasElevation points = true); [|congruence].
  apply existsb_exists. exists p. split; [exact Hin|].
  unfold hasElevation. rewrite E. reflexivity.
Qed.

Lemma fold_addDelta_zero (ds : list number) (acc : number * number) :
  Forall (fun d => d = zero) ds -> fold_left addDelta ds acc = acc.
Proof.
  induction 1 as [|d ds -> _ IH]; [reflexivity|].
  cbn [fold_left]. replace (addDelta acc zero) with acc by reflexivity.
  exact IH.
Qed.

(** X8: for points none of which has an elevation (no points at all
    included), [max] is [-Infinity] and [min] is [Infinity], while [pos],
    [neg] and [avg] are null. *)
Theorem calcElevationStats_no_elevation (h : Host) (points : list Point) :
  existsb hasElevation points = false ->
  calcElevationStats h points =
  Ok {| max := Some neg_infinity; min := Some infinity;
        pos := None; neg := None; avg := None |}.
Proof.
  intros H. rewrite calcElevationStats_closed.
  rewrite (argumentsFit_no_elevation h points
             (proj2 (elevations_nil_iff points) H)).
  rewrite (proj2 (elevations_nil_iff points) H).
  assert (E : deltaSums points = (zero, zero)).
  { unfold deltaSums. apply fold_addDelta_zero.
    apply Forall_forall. intros d Hd.
    unfold elevationDiffs in Hd. apply in_map_iff in Hd as ([p q] & <- & Hpq).
    apply In_consecutive_inv in Hpq as [Hp Hq]. cbn [fst snd].
    rewrite (hasElevation_none _ H p Hp), (hasElevation_none _ H q Hq).
    reflexivity. }
  rewrite E. reflexivity.
Qed.

Lemma calcElevationStats_no_elevation_witness :
  calcElevationStats (sampleHost emptyDocument) noElevation =
  Ok {| max := Some neg_infinity; min := Some infinity;
        pos := None; neg := None; avg := None |}.
Proof.
  apply (calcElevationStats_no_elevation (sampleHost emptyDocument) noElevation).
  reflexivity.
Defined.

Lemma consecutive_map {A B : Type} (f : A -> B) (l : list A) :
  consecutive (map f l) = map (fun ab => (f (fst ab), f (snd ab))) (consecutive l).
Proof.
  induction l as [|x l IH]; [reflexivity|].
  destruct l as [|y l]; [reflexivity|].
  cbn [map]. rewrite !consecutive_cons2. cbn [map fst snd].
  f_equal. exact IH.
Qed.

(** Both loops read the [ele] fields only. *)
Lemma elevationDiffs_ele (points : list Point) :
  elevationDiffs points =
  map (fun ab => (or_number (snd ab) zero - or_number (fst ab) zero)%float)
      (consecutive (map ele points)).
Proof.
  unfold elevationDiffs. rewrite consecutive_map, map_map. reflexivity.
Qed.

Lemma elevations_ele (points : list Point) :
  elevations points =
  flat_map (fun e => match e with
                     | Some _ => [or_number e zero]
                     | None => []
                     end) (map ele points).
Proof.
  unfold elevations. induction points as [|p l IH]; [reflexivity|].
  cbn [flat_map map]. rewrite IH. reflexivity.
Qed.

(** X9: [calcElevationStats] reads the [ele] fields only: two sequences
    with the same elevations, in the same order, get the same outcome, the
    same statistics or the same error, whatever their coordinates, names
    and times. *)
Theorem calcElevationStats_ele_only (h : Host) (points points' : list Point) :
  map ele points = map ele points' ->
  calcElevationStats h points = calcElevationStats h points'.
Proof.
  intros H. rewrite !calcElevationStats_closed.
  unfold argumentsFit, deltaSums.
  rewrite !elevationDiffs_ele, !elevations_ele, H.
  reflexivity.
Qed.

Lemma calcElevationStats_ele_only_witness :
  calcElevationStats (sampleHost emptyDocument) upAndDown =
  calcElevationStats (sampleHost emptyDocument)
    [samplePoint nan 0%float (Some 1%float); samplePoint 47.25%float (-1.5)%float (Some 3%float);
     samplePoint (-12)%float 180%float (Some 2%float)]
  /\ map ele upAndDown = [Some 1%float; Some 3%float; Some 2%float].
Proof.
  split; [|reflexivity].
  apply (calcElevationStats_ele_only (sampleHost emptyDocument) upAndDown
           [samplePoint nan 0%float (Some 1%float); samplePoint 47.25%float (-1.5)%float (Some 3%float);
            samplePoint (-12)%float 180%float (Some 2%float)]).
  reflexivity.
Defined.

(** [ele || 0] reads the same from a point and from its zero-filled copy. *)
Lemma or_number_idempotent (e : option number) :
  or_number (Some (or_number e zero)) zero = or_number e zero.
Proof.
  destruct e as [v|]; [|reflexivity]. cbn [or_number].
  destruct (truthy v) eqn:T; [rewrite T; reflexivity|reflexivity].
Qed.

Lemma elevationDiffs_zeroFilled (points : list Point) :
  elevationDiffs (map zeroFilled points) = elevationDiffs points.
Proof.
  unfold elevationDiffs. rewrite consecutive_map, map_map.
  apply map_ext. intros [p q]. cbn [fst snd zeroFilled ele].
  rewrite !or_number_idempotent. reflexivity.
Qed.

Lemma length_elevations (points : list Point) :
  (List.length (elevations points) <= List.length points)%nat.
Proof.
  unfold elevations. induction points as [|p l IH]; [apply Nat.le_refl|].
  cbn [flat_map]. rewrite length_app. cbn [List.length].
  destruct (ele p); cbn [List.length]; lia.
Qed.

Lemma length_elevations_zeroFilled (points : list Point) :
  List.length (elevations (map zeroFilled points)) = List.length points.
Proof.
  unfold elevations. induction points as [|p l IH]; [reflexivity|].
  cbn [map flat_map zeroFilled ele app List.length]. rewrite IH. reflexivity.
Qed.

(** The zero-filled copy has an elevation for every point: when it goes
    through, the original does. *)
Lemma argumentsFit_zeroFilled (h : Host) (points : list Point) :
  argumentsFit h (map zeroFilled points) = true ->
  argumentsFit h points = true.
Proof.
  unfold argumentsFit. rewrite length_elevations_zeroFilled.
  intros H. apply N.leb_le in H. apply N.leb_le.
  pose proof (length_elevations points). lia.
Qed.

(** X10: for [pos] and [neg] a point without elevation stands at 0: when
    every elevation is replaced by what [ele || 0] reads (0 for null, for
    [NaN] and for a zero), the statistics that are returned have the same
    [pos] and the same [neg] as those returned for the points themselves.
    The copy has one argument per point for [Math.max]: where the engine
    takes that many, both calls return. *)
Theorem calcElevationStats_null_counts_as_zero (h : Host) (points : list Point) :
  (forall stats filled,
     calcElevationStats h points = Ok stats ->
     calcElevationStats h (map zeroFilled points) = Ok filled ->
     pos stats = pos filled /\ neg stats = neg filled) /\
  (argumentsFit h (map zeroFilled points) = true ->
     exists stats filled,
       calcElevationStats h points = Ok stats /\
       calcElevationStats h (map zeroFilled points) = Ok filled).
Proof.
  split.
  - intros stats filled Hs Hf.
    apply calcElevationStats_closed_Ok in Hs as [_ ->].
    apply calcElevationStats_closed_Ok in Hf as [_ ->].
    cbn [pos neg]. unfold deltaSums.
    rewrite elevationDiffs_zeroFilled. split; reflexivity.
  - intros Hfit.
    destruct (calcElevationStats_returns h _ (argumentsFit_zeroFilled h _ Hfit))
      as (stats & Hs).
    destruct (calcElevationStats_returns h _ Hfit) as (filled & Hf).
    exists stats, filled. split; assumption.
Qed.

(** A level walk at 100 with one elevation missing is credited a climb and
    a descent of 100. *)
Example calcElevationStats_gap :
  calcElevationStats (sampleHost emptyDocument) gapInElevation =
  Ok {| max := Some 100%float; min := Some 100%float;
        pos := Some 100%float; neg := Some 100%float; avg := Some 100%float |}.
Proof. reflexivity. Qed.

(** The zero-filled copy of that walk has three elevations: with room for
    two arguments the walk goes through and its copy does not. *)
Example calcElevationStats_gap_filled :
  calcElevationStats (withMaxArguments 2 (sampleHost emptyDocument))
    gapInElevation
  = Ok {| max := Some 100%float; min := Some 100%float;
          pos := Some 100%float; neg := Some 100%float;
          avg := Some 100%float |} /\
  calcElevationStats (withMaxArguments 2 (sampleHost emptyDocument))
    (map zeroFilled gapInElevation)
  = Throw RangeError.
Proof. split; reflexivity. Qed.

(** X11: when some point has an elevation and [min] and [max] are both
    non-null in the statistics that are returned, [min <= max]; and the
    statistics are returned whenever the engine takes the elevations as
    arguments.  (Without any elevation it is the other way round: [min] is
    [Infinity] and [max] is [-Infinity].) *)
Theorem calcElevationStats_min_le_max (h : Host) (points : list Point) :
  existsb hasElevation points = true ->
  (argumentsFit h points = true ->
     exists stats, calcElevationStats h points = Ok stats) /\
  (forall stats,
     calcElevationStats h points = Ok stats ->
     forall lo hi,
       min stats = Some lo -> max stats = Some hi -> (lo <=? hi)%float = true).
Proof.
  intros H. split; [apply calcElevationStats_returns|].
  intros stats Hs. apply calcElevationStats_closed_Ok in Hs as [_ ->].
  cbn [min max]. intros lo hi Hlo Hhi.
  apply or_null_Some in Hlo as [-> _]. apply or_null_Some in Hhi as [-> _].
  assert (Hne : elevations points <> []).
  { intros E. apply elevations_nil_iff in E. congruence. }
  pose proof (elevations_not_nan points) as Hnan.
  destruct (Math_min_spec _ Hne Hnan) as [Hin _].
  destruct (Math_max_spec _ Hne Hnan) as [_ Hmax].
  rewrite Forall_forall in Hmax. apply Hmax, Hin.
Qed.

Lemma calcElevationStats_min_le_max_witness :
  exists stats,
    calcElevationStats (sampleHost emptyDocument) upAndDown = Ok stats /\
    forall lo hi,
      min stats = Some lo -> max stats = Some hi -> (lo <=? hi)%float = true.
Proof.
  destruct (calcElevationStats_min_le_max (sampleHost emptyDocument) upAndDown
              eq_refl) as [Hret Hord].
  destruct (Hret eq_refl) as (stats & Hs).
  exists stats. split; [exact Hs|apply (Hord stats Hs)].
Defined.

(** ** Walks that only climb, or only descend *)

Lemma digits_upper (p : positive) : Zpos p < 2 ^ Zdigits2 (Zpos p).
Proof.
  rewrite Zdigits2_log2.
  pose proof (Z.log2_spec (Zpos p) ltac:(lia)) as H.
  replace (Z.log2 (Zpos p) + 1) with (Z.succ (Z.log2 (Zpos p))) by lia. lia.
Qed.

(** Of two canonical numbers, the one with the smaller exponent has the
    smaller magnitude. *)
Lemma canonical_exponent_lt (s1 s2 : bool) (m1 m2 : positive) (e1 e2 : Z) :
  valid_binary (S754_finite s1 m1 e1) = true ->
  valid_binary (S754_finite s2 m2 e2) = true ->
  e1 < e2 -> Zpos m1 < Zpos m2 * 2 ^ (e2 - e1).
Proof.
  intros V1 V2 Hlt.
  apply valid_finite_canonical in V1 as [C1 _], V2 as [C2 _].
  rewrite fexp_eq in C1, C2.
  pose proof (digits_upper m1) as U1. pose proof (digits_lower m2) as L2.
  assert (D2 : Zdigits2 (Zpos m2) = 53) by lia.
  assert (D1 : Zdigits2 (Zpos m1) <= 53) by lia.
  rewrite D2 in L2.
  assert (B1 : Zpos m1 < 2 ^ 53).
  { eapply Z.lt_le_trans; [exact U1|]. apply Z.pow_le_mono_r; lia. }
  assert (B2 : 2 ^ 1 <= 2 ^ (e2 - e1)) by (apply Z.pow_le_mono_r; lia).
  change (2 ^ (53 - 1)) with 4503599627370496 in L2.
  change (2 ^ 53) with 9007199254740992 in *.
  change (2 ^ 1) with 2 in *. nia.
Qed.

(** The order of two finite numbers is the order of their mantissas brought
    to the smaller exponent. *)
Lemma SFleb_aligned (sx sy : bool) (mx my : positive) (ex ey : Z) :
  valid_binary (S754_finite sx mx ex) = true ->
  valid_binary (S754_finite sy my ey) = true ->
  SFleb (S754_finite sx mx ex) (S754_finite sy my ey) = true ->
  cond_Zopp sx (Zpos mx * 2 ^ (ex - Z.min ex ey))
  <= cond_Zopp sy (Zpos my * 2 ^ (ey - Z.min ex ey)).
Proof.
  intros Vx Vy. unfold SFleb, SFcompare.
  assert (Px : 0 < Zpos mx * 2 ^ (ex - Z.min ex ey))
    by (apply Z.mul_pos_pos; [lia|apply Z.pow_pos_nonneg; lia]).
  assert (Py : 0 < Zpos my * 2 ^ (ey - Z.min ex ey))
    by (apply Z.mul_pos_pos; [lia|apply Z.pow_pos_nonneg; lia]).
  destruct sx, sy; cbn [cond_Zopp]; try discriminate; try lia.
  - (* both negative *)
    destruct (Z.compare_spec ex ey) as [Heq|Hlt|Hgt]; try discriminate.
    + subst ey. rewrite Z.min_id, Z.sub_diag, !Z.mul_1_r.
      change (Pos.compare_cont Eq mx my) with (Pos.compare mx my).
      destruct (Pos.compare_spec mx my) as [Hc|Hc|Hc]; simpl; intros Hle;
        try discriminate; lia.
    + intros _. pose proof (canonical_exponent_lt _ _ _ _ _ _ Vy Vx Hgt) as Hc.
      replace (Z.min ex ey) with ey by lia.
      rewrite Z.sub_diag, Z.mul_1_r. lia.
  - (* both positive *)
    destruct (Z.compare_spec ex ey) as [Heq|Hlt|Hgt]; try discriminate.
    + subst ey. rewrite Z.min_id, Z.sub_diag, !Z.mul_1_r.
      change (Pos.compare_cont Eq mx my) with (Pos.compare mx my).
      destruct (Pos.compare_spec mx my) as [Hc|Hc|Hc]; simpl; intros Hle;
        try discriminate; lia.
    + intros _. pose proof (canonical_exponent_lt _ _ _ _ _ _ Vx Vy Hlt) as Hc.
      replace (Z.min ex ey) with ex by lia.
      rewrite Z.sub_diag, Z.mul_1_r. lia.
Qed.

Lemma shl_align_fst (m : positive) (e e' : Z) :
  e' <= e -> Zpos (fst (shl_align m e e')) = Zpos m * 2 ^ (e - e').
Proof.
  intros H. rewrite (shl_align_spec m e e' H). cbn [fst].
  apply Z2Pos.id. apply Z.mul_pos_pos; [lia|apply Z.pow_pos_nonneg; lia].
Qed.

(** The difference [y - x] of numbers with [x <= y] is not negative, and
    that of numbers with [y <= x] is not positive. *)
Lemma SFsub_leb (x y : spec_float) :
  valid_binary x = true -> valid_binary y = true ->
  SFleb x y = true ->
  SFltb (SFsub prec emax y x) (S754_zero false) = false /\
  SFltb (S754_zero false) (SFsub prec emax x y) = false.
Proof.
  intros Vx Vy H.
  destruct x as [sx|sx| |sx mx ex], y as [sy|sy| |sy my ey];
    try discriminate H;
    try (destruct sx, sy; try discriminate H; split; reflexivity);
    try (destruct sx; try discriminate H; split; reflexivity);
    try (destruct sy; try discriminate H; split; reflexivity).
  pose proof (SFleb_aligned _ _ _ _ _ _ Vx Vy H) as Hal.
  unfold SFsub.
  rewrite !shl_align_fst by lia.
  rewrite (Z.min_comm ey ex).
  set (X := cond_Zopp sx (Zpos mx * 2 ^ (ex - Z.min ex ey))) in *.
  set (Y := cond_Zopp sy (Zpos my * 2 ^ (ey - Z.min ex ey))) in *.
  split.
  - destruct (Y - X) as [|d|d] eqn:E; try lia; cbn [binary_normalize].
    + reflexivity.
    + pose proof (binary_round_sign false d (Z.min ex ey)) as Hs.
      destruct (binary_round prec emax false d (Z.min ex ey)) as [s|s| |s m e];
        simpl in Hs; subst; try contradiction; reflexivity.
  - destruct (X - Y) as [|d|d] eqn:E; try lia; cbn [binary_normalize].
    + reflexivity.
    + pose proof (binary_round_sign true d (Z.min ex ey)) as Hs.
      destruct (binary_round prec emax true d (Z.min ex ey)) as [s|s| |s m e];
        simpl in Hs; subst; try contradiction; reflexivity.
Qed.

Local Open Scope float_scope.

Lemma sub_leb_not_negative (x y : number) :
  (x <=? y) = true -> (y - x <? 0) = false /\ (0 <? x - y) = false.
Proof.
  rewrite leb_spec, !ltb_spec, !sub_spec.
  change (Prim2SF 0) with (S754_zero false).
  apply SFsub_leb; apply Prim2SF_valid.
Qed.

Local Close Scope float_scope.

Lemma fold_addDelta_no_descent (ds : list number) :
  Forall (fun d => (d <? 0)%float = false) ds ->
  forall acc, snd (fold_left addDelta ds acc) = snd acc.
Proof.
  induction 1 as [|d ds Hd _ IH]; intros acc; [reflexivity|].
  cbn [fold_left]. rewrite IH. unfold addDelta. rewrite Hd.
  destruct (0 <? d)%float; reflexivity.
Qed.

Lemma fold_addDelta_no_climb (ds : list number) :
  Forall (fun d => (0 <? d)%float = false) ds ->
  forall acc, fst (fold_left addDelta ds acc) = fst acc.
Proof.
  induction 1 as [|d ds Hd _ IH]; intros acc; [reflexivity|].
  cbn [fold_left]. rewrite IH. unfold addDelta. rewrite Hd.
  destruct (d <? 0)%float; reflexivity.
Qed.

(** X12: in the statistics returned for a walk on which no point lies
    lower than the one before it [neg] is null, and in those returned for
    one on which no point lies higher [pos] is null (elevations read as
    [ele || 0]); the statistics are returned whenever the engine takes the
    elevations as arguments. *)
Theorem calcElevationStats_one_way (h : Host) (points : list Point) :
  (forall stats,
     calcElevationStats h points = Ok stats ->
     (neverDescends points -> neg stats = None) /\
     (neverClimbs points -> pos stats = None)) /\
  (argumentsFit h points = true ->
     exists stats, calcElevationStats h points = Ok stats).
Proof.
  split; [|apply calcElevationStats_returns].
  intros stats Hs. apply calcElevationStats_closed_Ok in Hs as [_ ->].
  cbn [pos neg].
  unfold deltaSums, elevationDiffs. split; intros H.
  - rewrite fold_addDelta_no_descent; [reflexivity|].
    apply Forall_map. revert H. apply Forall_impl. intros [p q] Hpq.
    cbn [fst snd] in *. apply (sub_leb_not_negative _ _ Hpq).
  - rewrite fold_addDelta_no_climb; [reflexivity|].
    apply Forall_map. revert H. apply Forall_impl. intros [p q] Hpq.
    cbn [fst snd] in *. apply (sub_leb_not_negative _ _ Hpq).
Qed.

Example calcElevationStats_climb_only :
  neverDescends climbOnly /\
  calcElevationStats (sampleHost emptyDocument) climbOnly =
  Ok {| max := Some 25%float; min := Some 10%float;
        pos := Some 15%float; neg := None; avg := Some 20%float |}.
Proof.
  split; [|reflexivity].
  unfold neverDescends, climbOnly. repeat constructor.
Qed.

(** ** The constructor, route by route *)

(** X13: a waypoint's [lat] and [lon] are [parseFloat] of the attribute
    text, and [NaN] when the attribute is missing or empty: the fallback
    text of the [wpt] loop is the empty string, where that of the [rtept]
    and [trkpt] loops is ["0"]. *)
Theorem parseWaypoint_lat_lon (h : Host) (node : Node) :
  lat (parseWaypoint h node) =
    match getAttribute node "lat" with
    | None => nan
    | Some EmptyString => nan
    | Some (String c r) => parseFloat (String c r)
    end /\
  lon (parseWaypoint h node) =
    match getAttribute node "lon" with
    | None => nan
    | Some EmptyString => nan
    | Some (String c r) => parseFloat (String c r)
    end /\
  (getAttribute node "lat" = None ->
     isNaN (lat (parseWaypoint h node)) = true /\
     lat (parseRoutePoint h node) = zero) /\
  (getAttribute node "lon" = None ->
     isNaN (lon (parseWaypoint h node)) = true /\
     lon (parseRoutePoint h node) = zero).
Proof.
  unfold parseWaypoint, parseRoutePoint. cbn [lat lon].
  split; [destruct (getAttribute node "lat") as [[|c r]|]; reflexivity|].
  split; [destruct (getAttribute node "lon") as [[|c r]|]; reflexivity|].
  split; intros ->; split; reflexivity.
Qed.

(** X14: the constructor throws exactly when the XML parser does, and
    then the same error, or when some route or track of the document has
    more non-null elevations than the engine takes as arguments, and then a
    [RangeError].  With a [window.DOMParser], which never throws, it
    returns a model unless there is such a route or track, and the
    [xmlSource] of the model is what [parseFromString] returned; without
    one, an error of jsdom is the constructor's. *)
Theorem GPXParser_new_throws (h : Host) (gpxstring : string) :
  (forall e,
     GPXParser_new h gpxstring = Throw e <->
     parseXml h gpxstring = Throw e \/
     exists doc,
       parseXml h gpxstring = Ok doc /\ documentFits h doc = false /\
       e = RangeError) /\
  (forall parseFromString,
     window_DOMParser h = Some parseFromString ->
     (documentFits h (parseFromString gpxstring) = true ->
        exists this,
          GPXParser_new h gpxstring = Ok this /\
          xmlSource this = parseFromString gpxstring) /\
     (documentFits h (parseFromString gpxstring) = false ->
        GPXParser_new h gpxstring = Throw RangeError)) /\
  (window_DOMParser h = None ->
     forall e, JSDOM h gpxstring = Throw e -> GPXParser_new h gpxstring = Throw e).
Proof.
  assert (Hthrow : forall e, parseXml h gpxstring = Throw e ->
                             GPXParser_new h gpxstring = Throw e).
  { intros e H. unfold GPXParser_new. rewrite H. reflexivity. }
  split; [|split].
  - intros e. split.
    + intros H. destruct (parseXml h gpxstring) as [doc|e'] eqn:Hxml.
      * right. exists doc. split; [reflexivity|].
        pose proof (GPXParser_new_cases h gpxstring doc Hxml) as Hc.
        destruct (documentFits h doc).
        -- destruct Hc as (this & Hnew & _). congruence.
        -- split; [reflexivity|congruence].
      * left. rewrite (Hthrow e' eq_refl) in H. congruence.
    + intros [H|(doc & Hxml & Hfit & ->)]; [apply Hthrow, H|].
      pose proof (GPXParser_new_cases h gpxstring doc Hxml) as Hc.
      rewrite Hfit in Hc. exact Hc.
  - intros parseFromString Hw.
    assert (Hxml : parseXml h gpxstring = Ok (parseFromString gpxstring))
      by (unfold parseXml; rewrite Hw; reflexivity).
    pose proof (GPXParser_new_cases h gpxstring _ Hxml) as Hc.
    split; intros Hfit; rewrite Hfit in Hc; [|exact Hc].
    destruct Hc as (this & Hnew & Hsrc & _).
    exists this. split; assumption.
  - intros Hw e He. apply Hthrow. unfold parseXml. rewrite Hw. exact He.
Qed.

(** The route and the track of the sample document have two elevations
    each: an engine that takes one argument only throws. *)
Example GPXParser_new_too_many :
  documentFits (withMaxArguments 1 (sampleHost sampleDocument)) sampleDocument
  = false /\
  GPXParser_new (withMaxArguments 1 (sampleHost sampleDocument)) sampleText
  = Throw RangeError.
Proof. split; reflexivity. Qed.

(** What [parseRoute] puts in a route, and how its parts fit together. *)
Lemma parseRoute_fields (h : Host) (pointTag : string) (rte : Node)
    (route : Route) :
  parseRoute h pointTag rte = Ok route ->
  points route = map (parseRoutePoint h) (querySelectorAll h rte pointTag) /\
  calcRouteDistance h (points route) = Ok (distance route) /\
  calcElevationStats h (points route) = Ok (elevation route) /\
  calcSlope (points route) (cumul (distance route)) = Ok (slopes route) /\
  route_link route = parseLink h (querySelector h rte "link") /\
  route_type route = option_map (innerHTML h) (queryDirectSelector h rte "type") /\
  route_name route = getElementValue h rte "name".
Proof.
  unfold parseRoute. rewrite for_of_push. cbn [app].
  set (pts := map (parseRoutePoint h) (querySelectorAll h rte pointTag)).
  destruct (calcRouteDistance h pts) as [d|e] eqn:Hd;
    [|intros H; discriminate H].
  cbn [bind].
  destruct (calcElevationStats h pts) as [el|e] eqn:He;
    [|intros H; discriminate H].
  cbn [bind].
  destruct (calcSlope pts (cumul d)) as [sl|e] eqn:Hsl;
    [|intros H; discriminate H].
  cbn [bind]. intros H. inversion H. subst route.
  cbn [points distance elevation slopes route_link route_type route_name].
  repeat split; assumption.
Qed.

(** A monadic [for ... of] loop that returned pushed one result per
    element. *)
Lemma for_ofM_push_Ok {A B : Type} (f : A -> Result B) (xs : list A) :
  forall acc res : list B,
    for_ofM xs (fun x acc => y <- f x ;; Ok (push acc y)) acc = Ok res ->
    exists ys, res = acc ++ ys /\ Forall2 (fun x y => f x = Ok y) xs ys.
Proof.
  induction xs as [|x xs IH]; intros acc res.
  - cbn [for_ofM]. intros H. inversion H. exists []. rewrite app_nil_r.
    split; [reflexivity|constructor].
  - cbn [for_ofM]. destruct (f x) as [y|e] eqn:Hy;
      [|intros H; discriminate H].
    cbn [bind]. intros H. destruct (IH _ _ H) as (ys & -> & HF).
    exists (y :: ys). unfold push. rewrite <- app_assoc.
    split; [reflexivity|]. constructor; assumption.
Qed.

(** The routes and tracks of a model are its [rte] and [trk] elements
    parsed, in document order. *)
Lemma GPXParser_new_routes (h : Host) (gpxstring : string) (this : GPXParser) :
  GPXParser_new h gpxstring = Ok this ->
  Forall2 (routeParsedFrom h "rtept")
    (Document_querySelectorAll h (xmlSource this) "rte") (routes this) /\
  Forall2 (routeParsedFrom h "trkpt")
    (Document_querySelectorAll h (xmlSource this) "trk") (tracks this).
Proof.
  unfold GPXParser_new.
  destruct (parseXml h gpxstring) as [doc|e]; [|intros H; discriminate H].
  cbn [bind].
  destruct (for_ofM (Document_querySelectorAll h doc "rte") _ [])
    as [rs|e] eqn:Hrs; [|intros H; discriminate H].
  cbn [bind].
  destruct (for_ofM (Document_querySelectorAll h doc "trk") _ [])
    as [ts|e] eqn:Hts; [|intros H; discriminate H].
  cbn [bind]. intros H. inversion H. subst this.
  cbn [xmlSource routes tracks].
  apply (for_ofM_push_Ok (parseRoute h "rtept")) in Hrs as (rs' & -> & Hrs).
  apply (for_ofM_push_Ok (parseRoute h "trkpt")) in Hts as (ts' & -> & Hts).
  split; assumption.
Qed.

Lemma calcRouteDistance_cumul_length (h : Host) (points : list Point)
    (d : RouteDistance) :
  calcRouteDistance h points = Ok d ->
  array_length (cumul d) = Z.of_nat (List.length points).
Proof.
  pose proof (calcRouteDistance_closed h points) as Hc. cbv zeta in Hc.
  intros Hd. rewrite Hd in Hc. inversion Hc as [Hdist]. cbn [cumul].
  destruct points as [|p0 rest]; [reflexivity|].
  assert (Hl : Z.of_nat (List.length (p0 :: rest)) - 1 =
               Z.of_nat (List.length (runningTotals zero
                                        (segmentDistances h (p0 :: rest))))).
  { rewrite length_runningTotals. unfold segmentDistances.
    rewrite length_map, length_consecutive. cbn [List.length Nat.pred]. lia. }
  rewrite (array_set_append _ _ _ Hl).
  unfold array_length. cbn [items].
  rewrite length_map, length_app. cbn [List.length] in *. lia.
Qed.

(** X15: in a parsed model the parts of every route and track fit together:
    [distance], [elevation] and [slopes] are what [calcRouteDistance],
    [calcElevationStats] and [calcSlope] return for its [points] (and its
    [cumul]); [cumul] has as many entries as there are points, and [slopes]
    one less (none for no points). *)
Theorem parsed_route_invariants (h : Host) (gpxstring : string) (this : GPXParser) :
  GPXParser_new h gpxstring = Ok this ->
  forall r : Route,
    In r (routes this) \/ In r (tracks this) ->
    calcRouteDistance h (points r) = Ok (distance r) /\
    calcElevationStats h (points r) = Ok (elevation r) /\
    calcSlope (points r) (cumul (distance r)) = Ok (slopes r) /\
    array_length (cumul (distance r)) = Z.of_nat (List.length (points r)) /\
    List.length (slopes r) = (List.length (points r) - 1)%nat.
Proof.
  intros Hnew r Hr.
  destruct (GPXParser_new_routes h gpxstring this Hnew) as [Hrs Hts].
  assert (Hp : exists tag rte, routeParsedFrom h tag rte r).
  { destruct Hr as [Hr|Hr].
    - destruct (Forall2_In_r _ _ _ Hrs r Hr) as (rte & _ & H). eauto.
    - destruct (Forall2_In_r _ _ _ Hts r Hr) as (rte & _ & H). eauto. }
  destruct Hp as (tag & rte & Hp). unfold routeParsedFrom in Hp.
  destruct (parseRoute_fields h tag rte r Hp) as (_ & Hd & He & Hs & _).
  split; [exact Hd|]. split; [exact He|]. split; [exact Hs|].
  split.
  - apply (calcRouteDistance_cumul_length h _ _ Hd).
  - destruct (calcSlope_closed (points r) (cumul (distance r)))
      as (sl & Hsl & Hlen & _).
    assert (sl = slopes r) by congruence. subst sl. lia.
Qed.

Lemma parsed_route_invariants_witness :
  exists this,
    GPXParser_new (sampleHost sampleDocument) sampleText = Ok this /\
    forall r : Route,
      In r (routes this) \/ In r (tracks this) ->
      calcRouteDistance (sampleHost sampleDocument) (points r) = Ok (distance r) /\
      calcElevationStats (sampleHost sampleDocument) (points r)
      = Ok (elevation r) /\
      calcSlope (points r) (cumul (distance r)) = Ok (slopes r) /\
      array_length (cumul (distance r)) = Z.of_nat (List.length (points r)) /\
      List.length (slopes r) = (List.length (points r) - 1)%nat.
Proof.
  eexists. split; [reflexivity|].
  apply (parsed_route_invariants (sampleHost sampleDocument) sampleText _ eq_refl).
Defined.

Lemma Forall2_length_eq {A B : Type} (P : A -> B -> Prop) (xs : list A) (ys : list B) :
  Forall2 P xs ys -> List.length xs = List.length ys.
Proof. induction 1; simpl; congruence. Qed.

(** X16: the GeoJSON of a model that the constructor returned has one
    feature for each [trk], [rte] and [wpt] element of the document. *)
Theorem toGeoJSON_feature_count (h : Host) (gpxstring : string)
    (this : GPXParser) :
  GPXParser_new h gpxstring = Ok this ->
  parseXml h gpxstring = Ok (xmlSource this) /\
  List.length (features (toGeoJSON this)) =
  (List.length (Document_querySelectorAll h (xmlSource this) "trk")
   + List.length (Document_querySelectorAll h (xmlSource this) "rte")
   + List.length (Document_querySelectorAll h (xmlSource this) "wpt"))%nat.
Proof.
  intros Hnew.
  destruct (GPXParser_new_inv h gpxstring this Hnew)
    as (doc & Hxml & _ & Hsrc & _ & Hw & Hr & Ht).
  rewrite Hsrc. split; [exact Hxml|].
  rewrite toGeoJSON_features. cbn [features].
  rewrite !length_app, !length_map, Hw, length_map.
  rewrite (Forall2_length_eq _ _ _ Hr), (Forall2_length_eq _ _ _ Ht). lia.
Qed.

Lemma toGeoJSON_feature_count_witness :
  exists this,
    GPXParser_new (sampleHost sampleDocument) sampleText = Ok this /\
    xmlSource this = sampleDocument /\
    List.length (features (toGeoJSON this)) =
    (List.length (Document_querySelectorAll (sampleHost sampleDocument)
                    (xmlSource this) "trk")
     + List.length (Document_querySelectorAll (sampleHost sampleDocument)
                      (xmlSource this) "rte")
     + List.length (Document_querySelectorAll (sampleHost sampleDocument)
                      (xmlSource this) "wpt"))%nat.
Proof.
  eexists. split; [reflexivity|]. split; [reflexivity|].
  apply (toGeoJSON_feature_count (sampleHost sampleDocument) sampleText _
           eq_refl).
Defined.

(** ** [toGeoJSON] on any model *)

Lemma position_elevation_not_nan (pt : Point) :
  is_nan (snd (position pt)) = false /\ is_neg_zero (snd (position pt)) = false.
Proof.
  unfold position. cbn [snd]. split; [apply or_number_not_nan|].
  destruct (ele pt) as [v|]; [|reflexivity]. cbn [or_number].
  destruct (truthy v) eqn:T; [|reflexivity].
  destruct (is_neg_zero v) eqn:Z; [|reflexivity].
  apply is_neg_zero_eq in Z. subst v. discriminate T.
Qed.

(** X17: for every model, also one built by hand, [toGeoJSON] returns one
    feature per track, route and waypoint; the LineString of a track or
    route has the coordinate triplets of its points in order; and the third
    entry of a triplet is never [NaN] and never [-0] ([ele || 0] turns
    both into 0), whatever the elevation. *)
Theorem toGeoJSON_elevation_coordinate (this : GPXParser) :
  List.length (features (toGeoJSON this)) =
    (List.length (tracks this) + List.length (routes this)
     + List.length (waypoints this))%nat /\
  (forall track, In track (tracks this) \/ In track (routes this) ->
     exists f, In f (features (toGeoJSON this)) /\
               coordinatesOf f = map position (points track)) /\
  (forall f c, In f (features (toGeoJSON this)) -> In c (coordinatesOf f) ->
     is_nan (snd c) = false /\ is_neg_zero (snd c) = false).
Proof.
  rewrite toGeoJSON_features. cbn [features]. split; [|split].
  - rewrite !length_app, !length_map. apply Nat.add_assoc.
  - intros track Ht. exists (lineStringOf track). split; [|reflexivity].
    rewrite !in_app_iff, !in_map_iff.
    destruct Ht as [Ht|Ht]; [left|right; left]; exists track; auto.
  - intros f c Hf Hc. rewrite !in_app_iff, !in_map_iff in Hf.
    destruct Hf as [(t & <- & _)|[(t & <- & _)|(pt & <- & _)]];
      cbn [coordinatesOf lineStringOf pointFeature] in Hc.
    + apply in_map_iff in Hc as (pt & <- & _). apply position_elevation_not_nan.
    + apply in_map_iff in Hc as (pt & <- & _). apply position_elevation_not_nan.
    + destruct Hc as [<-|[]]. apply position_elevation_not_nan.
Qed.

Example toGeoJSON_handBuilt :
  map coordinatesOf (features (toGeoJSON handBuilt)) = [[(2%float, nan, zero)]].
Proof. reflexivity. Qed.

(** ** [parseMetadata] and [parseAuthor] *)

Lemma querySelectorAll_childless (h : Host) (m : Node) (needle : string) :
  childNodes m = [] -> querySelectorAll h m needle = [].
Proof. intros H. unfold querySelectorAll. rewrite H. reflexivity. Qed.

Lemma getElementValue_childless (h : Host) (m : Node) (needle : string) :
  childNodes m = [] -> getElementValue h m needle = None.
Proof.
  intros H. unfold getElementValue, querySelector.
  rewrite (querySelectorAll_childless h m needle H). reflexivity.
Qed.

Lemma queryDirectSelector_childless (h : Host) (m : Node) (needle : string) :
  childNodes m = [] -> queryDirectSelector h m needle = None.
Proof.
  intros H. unfold queryDirectSelector.
  rewrite (querySelectorAll_childless h m needle H). reflexivity.
Qed.

(** X18: the model returned for a document without a [metadata] element
    has metadata whose texts are all the empty string, and so has its
    GeoJSON; an empty [metadata] element gives null for [name], [desc] and
    [time] instead, next to the same empty author and link. *)
Theorem GPXParser_new_metadata_absent_or_empty (h : Host) (gpxstring : string)
    (this : GPXParser) :
  GPXParser_new h gpxstring = Ok this ->
  (Document_querySelector h (xmlSource this) "metadata" = None ->
     metadata this = emptyMetadata /\
     geojson_properties (toGeoJSON this) = emptyMetadata) /\
  (forall m,
     Document_querySelector h (xmlSource this) "metadata" = Some m ->
     childNodes m = [] ->
     metadata this =
       {| metadata_name := None; metadata_desc := None; metadata_time := None;
          author := author emptyMetadata;
          metadata_link := metadata_link emptyMetadata |}).
Proof.
  intros Hnew.
  destruct (GPXParser_new_inv h gpxstring this Hnew)
    as (doc & _ & _ & Hsrc & Hm & _).
  rewrite Hsrc. split.
  - intros Hnone. rewrite toGeoJSON_features. cbn [geojson_properties].
    rewrite Hm, Hnone. split; reflexivity.
  - intros m Hsome Hempty. rewrite Hm, Hsome. unfold parseMetadata.
    rewrite !(getElementValue_childless h m _ Hempty).
    rewrite (queryDirectSelector_childless h m _ Hempty).
    unfold querySelector. rewrite (querySelectorAll_childless h m _ Hempty).
    reflexivity.
Qed.

Lemma GPXParser_new_metadata_absent_or_empty_witness :
  exists this,
    GPXParser_new (sampleHost badTimeDocument) badTimeText = Ok this /\
    metadata this = emptyMetadata /\
    geojson_properties (toGeoJSON this) = emptyMetadata.
Proof.
  eexists. split; [reflexivity|].
  apply (GPXParser_new_metadata_absent_or_empty (sampleHost badTimeDocument)
           badTimeText _ eq_refl).
  reflexivity.
Defined.

(** X19: when the only [link] below [metadata] is the author's, it is the
    link of the metadata as well: [queryDirectSelector] falls back on the
    single nested match. *)
Theorem parseMetadata_link_from_author (h : Host) (m a l : Node) :
  querySelectorAll h m "link" = [l] ->
  querySelector h m "author" = Some a ->
  querySelector h a "link" = Some l ->
  metadata_link (parseMetadata h (Some m)) = parseLink h (Some l) /\
  metadata_link (parseMetadata h (Some m)) =
  author_link (author (parseMetadata h (Some m))).
Proof.
  intros Hl Ha Hal. unfold parseMetadata. cbn [metadata_link author].
  rewrite Ha. unfold parseAuthor. cbn [author_link]. rewrite Hal.
  unfold queryDirectSelector. rewrite Hl. split; reflexivity.
Qed.

Lemma parseMetadata_link_from_author_witness :
  metadata_link (parseMetadata (sampleHost emptyDocument)
                   (Some metadataAuthorLink)) =
    parseLink (sampleHost emptyDocument)
      (Some (element "link" [("href", "http://example.com")]
               [element "text" [] [TextNode "Home"]]))%string /\
  metadata_link (parseMetadata (sampleHost emptyDocument)
                   (Some metadataAuthorLink)) =
  author_link (author (parseMetadata (sampleHost emptyDocument)
                         (Some metadataAuthorLink))).
Proof.
  apply (parseMetadata_link_from_author (sampleHost emptyDocument)
           metadataAuthorLink
           (element "author" []
              [element "name" [] [TextNode "Ann"];
               element "link" [("href", "http://example.com")]
                 [element "text" [] [TextNode "Home"]]])%string);
    reflexivity.
Defined.

(** X20: an [author] element that lacks an [email] or a [link] gets the
    defaults of a missing author for it (empty strings), and so does an
    [email] without [id] and [domain]; but without a [name] its name is
    null, where the missing author's is the empty string. *)
Theorem parseAuthor_missing_parts (h : Host) (a : Node) :
  (querySelector h a "email" = None ->
     email (parseAuthor h (Some a)) = email (parseAuthor h None)) /\
  (querySelector h a "link" = None ->
     author_link (parseAuthor h (Some a)) = author_link (parseAuthor h None)) /\
  (querySelector h a "name" = None ->
     author_name (parseAuthor h (Some a)) = None /\
     author_name (parseAuthor h None) = Some ""%string) /\
  (forall e, querySelector h a "email" = Some e ->
     getAttribute e "id" = None -> getAttribute e "domain" = None ->
     email (parseAuthor h (Some a)) = email (parseAuthor h None)).
Proof.
  unfold parseAuthor. cbn [email author_link author_name].
  split; [intros ->; reflexivity|].
  split; [intros ->; reflexivity|].
  split.
  - intros H. unfold getElementValue. rewrite H. split; reflexivity.
  - intros e -> -> ->. reflexivity.
Qed.

(** ** [getElementValue] *)

Lemma filter_nil_iff {A : Type} (f : A -> bool) (l : list A) :
  filter f l = [] <-> forall x, In x l -> f x = false.
Proof.
  induction l as [|a l IH]; simpl.
  - split; [intros _ x []|reflexivity].
  - destruct (f a) eqn:E.
    + split; [discriminate|]. intros H. specialize (H a (or_introl eq_refl)).
      congruence.
    + rewrite IH. split.
      * intros H x [->|Hx]; auto.
      * intros H x Hx. apply H. right. exact Hx.
Qed.

(** X21: [getElementValue] is null exactly when no element below [parent]
    matches the name, as for a parent without children; otherwise it is the
    [innerHTML] of the first match. *)
Theorem getElementValue_null (h : Host) (parent : Node) (needle : string) :
  (getElementValue h parent needle = None <->
   forall n, In n (descendantsOf (childNodes parent)) ->
             matchesSelector h needle n = false) /\
  (childNodes parent = [] -> getElementValue h parent needle = None) /\
  (forall elem, querySelector h parent needle = Some elem ->
     getElementValue h parent needle = Some (innerHTML h elem)).
Proof.
  split; [|split].
  - unfold getElementValue, querySelector, querySelectorAll.
    rewrite <- filter_nil_iff.
    destruct (filter (matchesSelector h needle) (descendantsOf (childNodes parent)));
      simpl; split; congruence.
  - apply getElementValue_childless.
  - intros elem H. unfold getElementValue. rewrite H. reflexivity.
Qed.

Lemma escape_plainText (d : string) : plainText d = true -> escape false d = d.
Proof.
  induction d as [|c r IH]; [reflexivity|]. cbn [plainText escape].
  intros H. apply andb_true_iff in H as [Hc Hr].
  apply negb_true_iff in Hc. apply orb_false_iff in Hc as [Hc Hgt].
  apply orb_false_iff in Hc as [Hamp Hlt].
  rewrite Hamp, Hlt, Hgt. cbn [andb]. rewrite (IH Hr). reflexivity.
Qed.

Lemma escape_length (d : string) :
  (String.length d <= String.length (escape false d))%nat /\
  (plainText d = false -> (String.length d < String.length (escape false d))%nat).
Proof.
  induction d as [|c r [IHle IHlt]]; [split; [reflexivity|discriminate]|].
  cbn [plainText escape].
  destruct (Ascii.eqb c "&") eqn:Hamp; [cbn [String.append String.length]; split; [lia|intros _; lia]|].
  destruct (Ascii.eqb c "<") eqn:Hlt; [cbn [String.append String.length]; split; [lia|intros _; lia]|].
  destruct (Ascii.eqb c ">") eqn:Hgt; [cbn [String.append String.length]; split; [lia|intros _; lia]|].
  cbn [andb orb negb String.length]. split; [lia|].
  intros H. specialize (IHlt H). lia.
Qed.

(** X22: the value of an element that holds one text is that text as the
    XML serialization writes it: unchanged when it has none of [&], [<] and
    [>], and longer (entities in their place) when it has. *)
Theorem getElementValue_text (h : Host) (parent : Node) (needle : string)
    (ns : option string) (t : string) (attrs : list Attr) (d : string) :
  querySelector h parent needle = Some (ElementNode ns t attrs [TextNode d]) ->
  getElementValue h parent needle = Some (escape false d) /\
  (plainText d = true -> getElementValue h parent needle = Some d) /\
  (plainText d = false ->
     (String.length d < String.length (escape false d))%nat).
Proof.
  intros H. unfold getElementValue. rewrite H.
  assert (E : innerHTML h (ElementNode ns t attrs [TextNode d]) = escape false d)
    by reflexivity.
  rewrite E. split; [reflexivity|]. split.
  - intros Hp. rewrite (escape_plainText d Hp). reflexivity.
  - apply escape_length.
Qed.

Lemma getElementValue_text_witness :
  getElementValue (sampleHost emptyDocument) waypointAmpersand "name"
  = Some (escape false "Fish & Chips") /\
  (plainText "Fish & Chips" = true ->
     getElementValue (sampleHost emptyDocument) waypointAmpersand "name"
     = Some "Fish & Chips"%string) /\
  (plainText "Fish & Chips" = false ->
     (String.length "Fish & Chips"
      < String.length (escape false "Fish & Chips"))%nat).
Proof.
  apply (getElementValue_text (sampleHost emptyDocument) waypointAmpersand
           "name" None "name" [] "Fish & Chips").
  reflexivity.
Defined.

(** The value of an element that holds markup: the child element is
    serialized on its own, and so declares its namespace. *)
Example getElementValue_markup :
  getElementValue (sampleHost emptyDocument) descWithMarkup "desc"
  = Some ("An <b xmlns=" ++ String quote_char "http://www.topografix.com/GPX/1/1"
            ++ String quote_char ">easy</b> walk")%string.
Proof. reflexivity. Qed.

Example getElementValue_ampersand :
  getElementValue (sampleHost emptyDocument) waypointAmpersand "name"
  = Some "Fish &amp; Chips"%string /\
  getElementValue (sampleHost emptyDocument) waypointWithoutEle "name"
  = Some "Harbour"%string.
Proof. split; reflexivity. Qed.

(** ** Document order *)

Lemma subtree_element (ns : option string) (t : string) (attrs : list Attr)
    (cs : list Node) :
  subtree (ElementNode ns t attrs cs)
  = ElementNode ns t attrs cs :: descendantsOf cs.
Proof. reflexivity. Qed.

Lemma descendantsOf_app (l1 l2 : list Node) :
  descendantsOf (l1 ++ l2) = descendantsOf l1 ++ descendantsOf l2.
Proof. apply flat_map_app. Qed.

(** What a selector finds below an element is what it finds in the
    subtrees of the children, one after the other. *)
Lemma querySelectorAll_children (h : Host) (ns : option string) (t : string)
    (attrs : list Attr) (cs : list Node) (needle : string) :
  querySelectorAll h (ElementNode ns t attrs cs) needle =
  flat_map (fun c => filter (matchesSelector h needle) (subtree c)) cs.
Proof.
  unfold querySelectorAll, descendantsOf. cbn [childNodes].
  induction cs as [|c cs IH]; [reflexivity|].
  cbn [flat_map]. rewrite filter_app, IH. reflexivity.
Qed.

Lemma filter_subtree (h : Host) (needle : string) (c : Node) :
  matchesSelector h needle c = false ->
  filter (matchesSelector h needle) (subtree c) = querySelectorAll h c needle.
Proof.
  intros H. destruct c as [ns t attrs cs|d]; [|reflexivity].
  rewrite subtree_element. cbn [filter]. rewrite H. reflexivity.
Qed.

(** X23: [getElementValue] takes the first match in document order, however
    deep: a match inside an earlier child wins over a later child that
    matches itself. *)
Theorem getElementValue_document_order (h : Host) (ns : option string)
    (t : string) (attrs : list Attr) (before after : list Node) (c : Node)
    (needle v : string) :
  (forall n, In n (descendantsOf before) -> matchesSelector h needle n = false) ->
  matchesSelector h needle c = false ->
  getElementValue h c needle = Some v ->
  getElementValue h (ElementNode ns t attrs (before ++ c :: after)) needle
  = Some v.
Proof.
  intros Hbefore Hc Hv.
  unfold getElementValue, querySelector in *.
  unfold querySelectorAll at 1. cbn [childNodes].
  rewrite descendantsOf_app, filter_app.
  rewrite (proj2 (filter_nil_iff _ _) Hbefore). cbn [app].
  unfold descendantsOf at 1. cbn [flat_map]. rewrite filter_app.
  rewrite (filter_subtree h needle c Hc).
  destruct (querySelectorAll h c needle) as [|e l]; [discriminate Hv|].
  exact Hv.
Qed.

Lemma getElementValue_document_order_witness :
  getElementValue (sampleHost emptyDocument) routeNamedLate "name"
  = Some "Start"%string.
Proof.
  apply (getElementValue_document_order (sampleHost emptyDocument)
           None "rte"%string [] []
           [element "name" [] [TextNode "Loop"]]%string
           (element "rtept" [("lat", "1"); ("lon", "2")]
              [element "name" [] [TextNode "Start"]])%string
           "name"%string "Start"%string).
  - intros n [].
  - reflexivity.
  - reflexivity.
Defined.

(** The direct child is what [queryDirectSelector] prefers. *)
Example queryDirectSelector_routeNamedLate :
  option_map (innerHTML (sampleHost emptyDocument))
    (queryDirectSelector (sampleHost emptyDocument) routeNamedLate "name")
  = Some "Loop"%string.
Proof. reflexivity. Qed.

Lemma map_flat_map {A B C : Type} (f : B -> C) (g : A -> list B) (l : list A) :
  map f (flat_map g l) = flat_map (fun x => map f (g x)) l.
Proof.
  induction l as [|x l IH]; [reflexivity|].
  cbn [flat_map]. rewrite map_app, IH. reflexivity.
Qed.

(** X24: the points of a route or track that was parsed are the point
    elements found in its children's subtrees, child after child: the
    points of the segments of a track end up in one list, in document
    order.  The route or track is parsed whenever the engine takes the
    elevations of these points as arguments. *)
Theorem parseRoute_merges_segments (h : Host) (pointTag : string)
    (ns : option string) (t : string) (attrs : list Attr) (cs : list Node) :
  (forall route,
     parseRoute h pointTag (ElementNode ns t attrs cs) = Ok route ->
     points route =
     flat_map
       (fun c => map (parseRoutePoint h)
                     (filter (matchesSelector h pointTag) (subtree c)))
       cs) /\
  (argumentsFit h (routePoints h pointTag (ElementNode ns t attrs cs)) = true ->
     exists route,
       parseRoute h pointTag (ElementNode ns t attrs cs) = Ok route).
Proof.
  split.
  - intros route Hr.
    destruct (parseRoute_fields h pointTag _ route Hr) as (Hp & _).
    rewrite Hp, querySelectorAll_children. apply map_flat_map.
  - intros Hfit.
    destruct (parseRoute_returns h pointTag _ Hfit) as (route & Hr & _).
    exists route. exact Hr.
Qed.

Example parseRoute_two_segments :
  exists route,
    parseRoute (sampleHost emptyDocument) "trkpt" twoSegments = Ok route /\
    map lat (points route) = [1%float; 3%float; 5%float] /\
    List.length (slopes route) = 2%nat.
Proof. eexists. split; [reflexivity|]. split; reflexivity. Qed.

(** ** [queryDirectSelector], once more *)

Lemma queryDirectSelector_none (h : Host) (parent : Node) (needle : string) :
  queryDirectSelector h parent needle = None <->
  querySelectorAll h parent needle = [].
Proof.
  unfold queryDirectSelector. rewrite nth_error_0.
  destruct (querySelectorAll h parent needle) as [|a [|b l]] eqn:E.
  - simpl. tauto.
  - simpl. split; discriminate.
  - replace (1 <? List.length (a :: b :: l))%nat with true by reflexivity.
    rewrite last_match_loop.
    destruct (hd_error (rev (filter (hasTagName needle) (children parent))));
      simpl; split; discriminate.
Qed.

(** X25: [queryDirectSelector] returns no element exactly when no element
    below the parent matches the name; so the [type] of a route or track
    that was parsed is null exactly when it has no [type] element anywhere
    below it. *)
Theorem queryDirectSelector_null (h : Host) (parent : Node) (needle : string) :
  (queryDirectSelector h parent needle = None <->
   forall n, In n (descendantsOf (childNodes parent)) ->
             matchesSelector h needle n = false) /\
  (forall pointTag route,
     parseRoute h pointTag parent = Ok route ->
     (route_type route = None <->
      forall n, In n (descendantsOf (childNodes parent)) ->
                matchesSelector h "type" n = false)) /\
  (forall pointTag,
     argumentsFit h (routePoints h pointTag parent) = true ->
     exists route, parseRoute h pointTag parent = Ok route).
Proof.
  split; [|split].
  - rewrite queryDirectSelector_none. apply filter_nil_iff.
  - intros pointTag route Hr.
    destruct (parseRoute_fields h pointTag parent route Hr)
      as (_ & _ & _ & _ & _ & Ht & _).
    rewrite Ht.
    rewrite <- filter_nil_iff. fold (querySelectorAll h parent "type").
    rewrite <- queryDirectSelector_none.
    destruct (queryDirectSelector h parent "type"); simpl; split; congruence.
  - intros pointTag Hfit.
    destruct (parseRoute_returns h pointTag parent Hfit) as (route & Hr & _).
    exists route. exact Hr.
Qed.

(** ** A bad coordinate, end to end *)

(** X26: one unreadable coordinate makes the distance of the whole route
    [NaN].  On a host that answers [NaN] to [NaN], if a route or track has
    two or more points and the [lat] or [lon] attribute of one of them
    starts with a character that cannot start a number, the route that is
    parsed has [distance.total] [NaN]; and it is parsed whenever the
    engine takes the elevations of its points as arguments. *)
Theorem parseRoute_bad_coordinate (h : Host) (pointTag : string)
    (rte pt : Node) (c : ascii) (r : string) :
  sinOfNaN h -> atan2OfNaN h ->
  (2 <= List.length (querySelectorAll h rte pointTag))%nat ->
  In pt (querySelectorAll h rte pointTag) ->
  getAttribute pt "lat" = Some (String c r) \/
  getAttribute pt "lon" = Some (String c r) ->
  startsNumber c = false ->
  (forall route,
     parseRoute h pointTag rte = Ok route -> total (distance route) = nan) /\
  (argumentsFit h (routePoints h pointTag rte) = true ->
     exists route, parseRoute h pointTag rte = Ok route).
Proof.
  intros Hsin Hatan Hlen Hin Hattr Hc. split.
  - intros route Hr.
    destruct (parseRoute_fields h pointTag rte route Hr) as (Hp & Hd & _).
    pose proof (calcRouteDistance_closed h (points route)) as Hclosed.
    cbv zeta in Hclosed. rewrite Hd in Hclosed. inversion Hclosed as [Hdist].
    rewrite Hdist. cbn [total]. apply sumOf_segmentDistances_nan; try assumption.
    + rewrite Hp, length_map. exact Hlen.
    + exists (parseRoutePoint h pt). split.
      * rewrite Hp. apply in_map, Hin.
      * unfold parseRoutePoint. cbn [lat lon].
        destruct Hattr as [Ha|Ha]; [left|right];
          rewrite coordinate_of_attribute, Ha,
            (parseFloat_not_a_number c r Hc); reflexivity.
  - intros Hfit.
    destruct (parseRoute_returns h pointTag rte Hfit) as (route & Hr & _).
    exists route. exact Hr.
Qed.

Lemma parseRoute_bad_coordinate_witness :
  exists route,
    parseRoute (sampleHost emptyDocument) "rtept" routeBadLat = Ok route /\
    total (distance route) = nan.
Proof.
  assert (H : (forall route,
                 parseRoute (sampleHost emptyDocument) "rtept" routeBadLat
                 = Ok route -> total (distance route) = nan) /\
              (argumentsFit (sampleHost emptyDocument)
                 (routePoints (sampleHost emptyDocument) "rtept" routeBadLat)
               = true ->
               exists route,
                 parseRoute (sampleHost emptyDocument) "rtept" routeBadLat
                 = Ok route)).
  { apply (parseRoute_bad_coordinate (sampleHost emptyDocument) "rtept"
             routeBadLat
             (element "rtept" [("lat", "abc"); ("lon", "-1.75")] [])%string
             "a"%char "bc"%string eq_refl (sampleHost_atan2OfNaN emptyDocument)).
    - simpl. lia.
    - right. left. reflexivity.
    - left. reflexivity.
    - reflexivity. }
  destruct H as [Hnan Hret]. destruct (Hret eq_refl) as (route & Hr).
  exists route. split; [exact Hr|apply (Hnan route Hr)].
Defined.
